(** * Bisection root finder [root.Find]: model and verification

    The program is the Go package [root]: one exported function

      func Find(f func(F64) (F64R, error), minX, maxX F64) (root F64, err error)

    with two package-level variables ([Precision], [MaxIteration]) and the
    error type [ErrorFind] with its kinds [ErrType].

    Modelling choices.
    - [float64] is Rocq's primitive binary64 [float]; every arithmetic
      operation and comparison of the source is the IEEE operation of the
      same name.  Primitive floats have a single NaN, so [math.Signbit] of a
      NaN is taken to be [false] (the sign of Go's [math.NaN()]); no theorem
      below depends on the sign of a NaN.
    - The evaluator is a Go closure: it may keep state, fail, or panic.  It
      is a function from its own state and an argument to a reply and a new
      state.  It does not write [Precision] or [MaxIteration].
    - The named results [root] and [err] are variables of the running call;
      [return] leaves with their current values and the deferred function
      rewrites [err] after a panic.  The value of a panic is a string that
      [recover] hands over; it is never nil.
    - Every invocation of the evaluator is logged with its reply, so that
      the number and order of the calls can be stated.
    - [fmt.Errorf] is kept as its format string with its operands.
    - [MaxIteration] and the loop counter are Go [int]s, here in [Z]: the
      counter never exceeds [MaxIteration], so it does not wrap.

    Contents: the model ([Find], from the source); the words of the
    specification where a theorem compares them with the source; the
    verification: rules for the control flow, the loop pass by pass, the
    aborts, the failures and panics of the evaluator, the count of
    evaluations, the order of the bounds, and binary64 arithmetic for the
    place of the midpoint in its bracket. *)

From Stdlib Require Import ZArith Floats List String Bool Lia.
Import ListNotations.

Set Implicit Arguments.

(** ** Errors *)

Inductive ErrType : Type :=
| MaximalIteration
| InternalErr
| NotValidValue
| Recovery.

(** Operand of a format string. *)
Inductive operand : Type :=
| OInt (n : Z)
| OFloat (x : float)
| OValue (v : string).

(** A Go [error]: either made by [fmt.Errorf], or an [ErrorFind] struct. *)
Inductive error : Type :=
| Errorf (format : string) (args : list operand)
| ErrorFind (Type_ : ErrType) (Err : error).


(** The kind carried by an error, when it is an [ErrorFind]. *)
Definition kind_of (e : error) : option ErrType :=
  match e with
  | ErrorFind t _ => Some t
  | Errorf _ _ => None
  end.

(** ** Package variables *)

Record Config : Type := mkConfig {
  Precision : float;
  MaxIteration : Z
}.

(** [Precision float64 = 1e-6] (the nearest binary64), [MaxIteration int = 500]. *)
Definition default : Config :=
  {| Precision := 0x1.0c6f7a0b5ed8dp-20%float; MaxIteration := 500%Z |}.

(** ** The evaluator *)

Inductive reply : Type :=
| Returns (y : float) (e : option error)
| Panics (r : string).

Definition evaluator (St : Type) : Type := St -> float -> reply * St.

(** A stateless evaluator. *)
Definition pure (g : float -> reply) : evaluator unit :=
  fun s x => (g x, s).

(** ** State of one call of [Find] *)

Record state (St : Type) : Type := mkState {
  ev : St;
  calls : list (float * reply);
  root : float;
  err : option error
}.

Definition set_root {St} (r : float) (s : state St) : state St :=
  {| ev := ev s; calls := calls s; root := r; err := err s |}.

Definition set_err {St} (e : option error) (s : state St) : state St :=
  {| ev := ev s; calls := calls s; root := root s; err := e |}.

Definition initial {St} (e0 : St) : state St :=
  {| ev := e0; calls := []; root := 0%float; err := None |}.

(** ** Control flow: fall through, [return], or a panic in flight *)

Inductive flow (A : Type) : Type :=
| Next (a : A)
| Return
| Panicking (r : string)
| OutOfFuel.

Arguments Return {A}.
Arguments Panicking {A} r.
Arguments OutOfFuel {A}.

Definition M (St A : Type) : Type := state St -> flow A * state St.

Definition ret {St A} (a : A) : M St A := fun s => (Next a, s).

Definition bind {St A B} (m : M St A) (k : A -> M St B) : M St B :=
  fun s =>
    match m s with
    | (Next a, s') => k a s'
    | (Return, s') => (Return, s')
    | (Panicking r, s') => (Panicking r, s')
    | (OutOfFuel, s') => (OutOfFuel, s')
    end.

Notation "x <- c1 ;; c2" := (bind c1 (fun x => c2))
  (at level 61, c1 at next level, right associativity).
Notation "' pat <- c1 ;; c2" := (bind c1 (fun x => match x with pat => c2 end))
  (at level 61, pat pattern, c1 at next level, right associativity).
Notation "c1 ;; c2" := (bind c1 (fun _ => c2))
  (at level 61, right associativity).

Definition assign_root {St} (r : float) : M St unit :=
  fun s => (Next tt, set_root r s).

Definition assign_err {St} (e : option error) : M St unit :=
  fun s => (Next tt, set_err e s).

Definition return_ {St A} : M St A := fun s => (Return, s).

(** One invocation [f(x)], logged with its reply. *)
Definition call {St} (f : evaluator St) (x : float) : M St (float * option error) :=
  fun s =>
    let (r, e') := f (ev s) x in
    let s' := {| ev := e'; calls := calls s ++ [(x, r)]; root := root s; err := err s |} in
    match r with
    | Returns y e => (Next (y, e), s')
    | Panics v => (Panicking v, s')
    end.

(** ** Float helpers of the source *)

Definition Abs (x : float) : float := PrimFloat.abs x.
Definition Signbit (x : float) : bool := PrimFloat.get_sign x.
Definition IsNaN (x : float) : bool := PrimFloat.is_nan x.
Definition IsInf (x : float) : bool := PrimFloat.is_infinity x.

(** The closure [middle]. *)
Definition middle (xLeft xRigth : float) : float :=
  (xLeft + (xRigth - xLeft) / 2)%float.

(** [if minX > maxX { minX, maxX = maxX, minX }] *)
Definition replace_borders (minX maxX : float) : float * float :=
  if (maxX <? minX)%float then (maxX, minX) else (minX, maxX).

(** The six sample variables of the loop. *)
Record vars : Type := mkVars {
  xLeft : float; yLeft : float;
  xRoot : float; yRoot : float;
  xRigth : float; yRigth : float
}.

(** The test that leaves the loop with [break]. *)
Definition converged (prec : float) (v : vars) : bool :=
  if (xLeft v =? 0)%float then
    (Abs (yRoot v) <? prec)%float && (Abs (xRigth v - xLeft v) <? prec)%float
  else
    (Abs (yRoot v) <? prec)%float && (Abs ((xRigth v - xLeft v) / xLeft v) <? prec)%float.

Inductive ctl : Type :=
| Continue (v : vars)
| Break.

Definition fail {St A} (t : ErrType) (e : error) : M St A :=
  assign_err (Some (ErrorFind t e)) ;; return_.

Section Solver.
Context {St : Type}.
Variable cfg : Config.
Variable f : evaluator St.

(** [for _, errLocal := range []error{...} { if errLocal != nil { err = errLocal; return } }] *)
Fixpoint check_errors (es : list (option error)) : M St unit :=
  match es with
  | [] => ret tt
  | Some e :: _ => assign_err (Some e) ;; return_
  | None :: es' => check_errors es'
  end.

(** [root = x; _, err = f(root); return] *)
Definition confirm {A} (x : float) : M St A :=
  assign_root x ;;
  '(_, e) <- call f x ;;
  assign_err e ;;
  return_.

(** The sign comparison: which half is kept.  The first branch is
    [xRigth, yRigth = xRoot, yRigth], the second [xLeft, yLeft = xRoot, yRoot]. *)
Definition bracket (v : vars) : option vars :=
  if negb (Bool.eqb (Signbit (yLeft v)) (Signbit (yRoot v))) then
    Some {| xLeft := xLeft v; yLeft := yLeft v;
            xRoot := xRoot v; yRoot := yRoot v;
            xRigth := xRoot v; yRigth := yRigth v |}
  else if negb (Bool.eqb (Signbit (yRoot v)) (Signbit (yRigth v))) then
    Some {| xLeft := xRoot v; yLeft := yRoot v;
            xRoot := xRoot v; yRoot := yRoot v;
            xRigth := xRigth v; yRigth := yRigth v |}
  else None.

(** The guards on the new midpoint, in the order of the source. *)
Definition not_valid (x y : float) : option string :=
  if IsNaN x then Some "xRoot is NaN"%string
  else if IsNaN y then Some "yRoot is NaN"%string
  else if IsInf x then Some "xRoot is Inf"%string
  else if IsInf y then Some "yRoot is Inf"%string
  else None.

(** One pass through the body of the [for]. *)
Definition iteration (iter : Z) (v : vars) : M St ctl :=
  if (MaxIteration cfg <=? iter)%Z then
    fail MaximalIteration (Errorf "Too many iterations: %d" [OInt iter])
  else if converged (Precision cfg) v then ret Break
  else
    match bracket v with
    | None =>
        fail InternalErr
          (Errorf "No root: [%.3e, %.3e, %.3e]"
             [OFloat (yLeft v); OFloat (yRoot v); OFloat (yRigth v)])
    | Some v1 =>
        let x := middle (xLeft v1) (xRigth v1) in
        '(y, errRoot) <- call f x ;;
        match errRoot with
        | Some e => fail InternalErr e
        | None =>
            match not_valid x y with
            | Some msg => fail NotValidValue (Errorf msg [])
            | None =>
                ret (Continue {| xLeft := xLeft v1; yLeft := yLeft v1;
                                 xRoot := x; yRoot := y;
                                 xRigth := xRigth v1; yRigth := yRigth v1 |})
            end
        end
    end.

(** [for iter := 0; ; iter++ { ... }]; the fuel bounds the back edges. *)
Fixpoint loop (fuel : nat) (iter : Z) (v : vars) : M St vars :=
  c <- iteration iter v ;;
  match c with
  | Break => ret v
  | Continue v' =>
      match fuel with
      | O => fun s => (OutOfFuel, s)
      | S fuel' => loop fuel' (iter + 1)%Z v'
      end
  end.

(** From the replacement of the borders to the entry of the loop: the three
    first evaluations, the check of their errors and the two early exits. *)
Definition enter (minX maxX : float) : M St vars :=
  let '(minX, maxX) := replace_borders minX maxX in
  let xLeft' := minX in
  let xRigth' := maxX in
  let xRoot' := middle xLeft' xRigth' in
  '(yLeft', errLeft) <- call f xLeft' ;;
  '(yRoot', errRoot) <- call f xRoot' ;;
  '(yRigth', errRigth) <- call f xRigth' ;;
  check_errors [errLeft; errRigth; errRoot] ;;
  if (Abs yLeft' <? Precision cfg)%float then confirm xLeft'
  else if (Abs yRigth' <? Precision cfg)%float then confirm xRigth'
  else
    ret {| xLeft := xLeft'; yLeft := yLeft';
           xRoot := xRoot'; yRoot := yRoot';
           xRigth := xRigth'; yRigth := yRigth' |}.

(** The body of [Find], before the deferred function runs. *)
Definition body (minX maxX : float) : M St unit :=
  v0 <- enter minX maxX ;;
  v <- loop (Z.to_nat (MaxIteration cfg)) 0%Z v0 ;;
  confirm (xRoot v).

(** [defer func() { if r := recover(); r != nil { err = ErrorFind{Recovery, ...} } }()] *)
Definition recovering (r : flow unit * state St) : state St :=
  match r with
  | (Panicking v, s) =>
      set_err (Some (ErrorFind Recovery (Errorf "%#v" [OValue v]))) s
  | (_, s) => s
  end.

(** The whole call, as the final state of its frame. *)
Definition run_Find (minX maxX : float) (e0 : St) : state St :=
  recovering (body minX maxX (initial e0)).

(** What the caller receives: [(root, err)]. *)
Definition Find (minX maxX : float) (e0 : St) : float * option error :=
  let s := run_Find minX maxX e0 in (root s, err s).

(** The variables and the state with which the loop starts its [n]-th pass,
    when the call gets that far. *)
Fixpoint head (minX maxX : float) (e0 : St) (n : nat) : option (vars * state St) :=
  match n with
  | O =>
      match enter minX maxX (initial e0) with
      | (Next v0, s) => Some (v0, s)
      | _ => None
      end
  | S n' =>
      match head minX maxX e0 n' with
      | Some (v, s) =>
          match iteration (Z.of_nat n') v s with
          | (Next (Continue v'), s') => Some (v', s')
          | _ => None
          end
      | None => None
      end
  end.

End Solver.

(** ** The convergence test in the words of the specification *)

(** Width of the bracket: absolute when the left endpoint is zero,
    relative to the left endpoint otherwise. *)
Definition width (v : vars) : float :=
  if (xLeft v =? 0)%float then Abs (xRigth v - xLeft v)
  else Abs ((xRigth v - xLeft v) / xLeft v).

Definition spec_converged (prec : float) (v : vars) : bool :=
  (Abs (yRoot v) <? prec)%float && (width v <? prec)%float.

(** ** Specifications of runs *)

Inductive exit : Type :=
| ByReturn
| ByPanic (r : string)
| ByFuel.

(** Postcondition of a run: [N] when control falls through, [E] when the
    function is left. *)
Definition outcome {St A} (N : A -> state St -> Prop) (E : exit -> state St -> Prop)
           (r : flow A * state St) : Prop :=
  match r with
  | (Next a, s) => N a s
  | (Return, s) => E ByReturn s
  | (Panicking v, s) => E (ByPanic v) s
  | (OutOfFuel, s) => E ByFuel s
  end.

(** The state right after [f] was invoked at [x] and replied [r]. *)
Definition logged {St} (s : state St) (x : float) (r : reply) (e' : St) : state St :=
  {| ev := e'; calls := calls s ++ [(x, r)]; root := root s; err := err s |}.

(** The first error in the order in which [Find] inspects them. *)
Fixpoint first_error (es : list (option error)) : option error :=
  match es with
  | [] => None
  | Some e :: _ => Some e
  | None :: es' => first_error es'
  end.

(** ** Evaluators of the test suite and of the examples *)

(** [TestNoRoot]: [2*x + 5]. *)
Definition no_root : evaluator unit :=
  pure (fun x => Returns (2 * x + 5)%float None).

(** A sign change that never becomes small: the cap of the loop is reached. *)
Definition jump : evaluator unit :=
  pure (fun x => if (x <? 0x1.3p-2)%float then Returns (-1)%float None
                 else Returns 1%float None).

(** A pole in the middle of the left half: [1/(x - 0.25)]. *)
Definition pole : evaluator unit :=
  pure (fun x => Returns (1 / (x - 0.25))%float None).

(** [TestPanic]. *)
Definition panicking : evaluator unit :=
  pure (fun _ => Panics "PANIC").

(** [TestNoSomeRoot], "rigth": fails for [x > 0.5]. *)
Definition fails_rigth : evaluator unit :=
  pure (fun x => if (0.5 <? x)%float
                 then Returns (-1)%float (Some (Errorf "rigth checking" []))
                 else Returns (2 * x + 5)%float None).

(** Fails inside [(0.25, 0.5)] only, where the loop puts its second midpoint. *)
Definition fails_inside : evaluator unit :=
  pure (fun x => if (0.25 <? x)%float && (x <? 0.5)%float
                 then Returns 0%float (Some (Errorf "stop" []))
                 else Returns (x - 0x1.8p-2)%float None).

(** The constant zero. *)
Definition flat : evaluator unit :=
  pure (fun _ => Returns 0%float None).

(** [x - 0.3125]: one root, in the left half of [[0, 1]]. *)
Definition shifted : evaluator unit :=
  pure (fun x => Returns (x - 0x1.4p-2)%float None).

(** [(x - 0.3125) * (x - 0.8125)]: two roots in [[0, 1]]. *)
Definition parabola : evaluator unit :=
  pure (fun x => Returns ((x - 0x1.4p-2) * (x - 0x1.ap-1))%float None).

(** Up to the end of the loop the named results keep their zero values. *)
Definition untouched {St} (s : state St) : Prop := root s = 0%float /\ err s = None.

(** The package with its cap lowered to two passes. *)
Definition two_passes : Config :=
  {| Precision := Precision default; MaxIteration := 2%Z |}.

(** A log without a panic. *)
Definition quiet (l : list (float * reply)) : Prop :=
  forall x r, ~ In (x, Panics r) l.

(** A panic in flight is the last entry of the log, and the only panic. *)
Definition panic_last {St} (x : exit) (s : state St) : Prop :=
  match x with
  | ByPanic r => exists l x0, calls s = l ++ [(x0, Panics r)] /\ quiet l
  | _ => quiet (calls s)
  end.

(** At most [k] evaluations between two states. *)
Definition within {St} (k : Z) (s s' : state St) : Prop :=
  (Z.of_nat (List.length (calls s')) <= Z.of_nat (List.length (calls s)) + k)%Z.

(** Fails at both zeros, with an error that tells their signs apart. *)
Definition zero_sign : evaluator unit :=
  pure (fun x => if (1 / x <? 0)%float
                 then Returns 0%float (Some (Errorf "negative" []))
                 else Returns 0%float (Some (Errorf "positive" []))).

(** The midpoint sample holds the value of a stateless evaluator. *)
Definition sampled (g : float -> reply) (v : vars) : Prop :=
  g (xRoot v) = Returns (yRoot v) None.

(** What a caller may rely on when [Find] hands back [root] without error. *)
Definition precise (cfg : Config) (g : float -> reply) (root : float) : Prop :=
  exists y, g root = Returns y None /\ (Abs y <? Precision cfg)%float = true.

(** On success the frame holds a root at which the evaluator is small. *)
Definition success (cfg : Config) (g : float -> reply) (x : exit) (s : state unit) : Prop :=
  x = ByReturn -> err s = None -> precise cfg g (root s).

(** ** Binary64 on the integer line

    The finite binary64 numbers are the integers [m * 2^(e + 1074)], counted in
    units of [2^-1074], whose mantissa has at most 53 digits.  These
    definitions state how [SpecFloat] rounds, for the proof that the midpoint
    of a bracket lies in the bracket. *)

Local Open Scope Z_scope.

Definition cexp (z : Z) : Z := Z.max (Zdigits2 z - 53) 0.
Definition round_down (z : Z) : Z := z / 2 ^ cexp z * 2 ^ cexp z.
Definition representable (z : Z) : Prop := Z.abs z mod 2 ^ cexp (Z.abs z) = 0.
Definition nearby (z y : Z) : Prop :=
  y = round_down z \/ (y = round_down z + 2 ^ cexp z /\ z mod 2 ^ cexp z <> 0).
Definition rounded (z y : Z) : Prop :=
  match z with
  | Z0 => y = 0
  | Zpos _ => nearby z y
  | Zneg _ => nearby (- z) (- y)
  end.

(** The first integer beyond the binary64 numbers: [2^1024], in units of
    [2^-1074]. *)
Definition huge : Z := 2 ^ 2098.

(** What a rounding returns, for the rounded integer [y] and the sign [s]. *)
Definition packed (s : bool) (y : Z) (r : spec_float) : Prop :=
  (r = S754_infinity s /\ huge <= y) \/
  (r = S754_zero s /\ y = 0) \/
  (exists m e, r = S754_finite s m e /\ -1074 <= e /\ Zpos m * 2 ^ (e + 1074) = y).

(** The value of a finite float or of a zero, in units of [2^-1074]. *)
Definition scaled (x : spec_float) : Z :=
  match x with
  | S754_finite s m e => cond_Zopp s (Zpos m * 2 ^ (e + 1074))
  | _ => 0
  end.

Definition finite_or_zero (x : spec_float) : bool :=
  match x with
  | S754_zero _ | S754_finite _ _ _ => true
  | _ => false
  end.

(** The result [r] of an operation whose rounded value is [y]: an infinity
    stands for a value beyond the largest float. *)
Definition reach (r : spec_float) (y : Z) : Prop :=
  match r with
  | S754_infinity s => huge <= cond_Zopp s y
  | S754_nan => False
  | _ => scaled r = y
  end.

(** The place of a float on the integer line, the infinities at both ends. *)
Definition key (x : spec_float) : Z :=
  match x with
  | S754_infinity s => cond_Zopp s huge
  | _ => scaled x
  end.

Definition two : spec_float := S754_finite false 4503599627370496 (-51).

Local Close Scope Z_scope.

Definition finite (x : float) : bool := finite_or_zero (Prim2SF x).
Definition fkey (x : float) : Z := key (Prim2SF x).

Definition within_bounds (a b r : float) : Prop :=
  (a <=? r)%float = true /\ (r <=? b)%float = true.

Definition bracketed (a b : float) (v : vars) : Prop :=
  (a <=? xLeft v)%float = true /\
  (xLeft v <=? xRigth v)%float = true /\
  (xRigth v <=? b)%float = true /\
  xRoot v = middle (xLeft v) (xRigth v).

(** On success the root of the frame is within the bounds. *)
Definition inside {St} (a b : float) (x : exit) (s : state St) : Prop :=
  x = ByReturn -> err s = None -> within_bounds a b (root s).

(** A [return] with an error. *)
Definition failed {St} (x : exit) (s : state St) : Prop :=
  x = ByReturn -> err s <> None.

(** The left and the midpoint samples hold the values of a stateless
    evaluator. *)
Definition left_root_sampled (g : float -> reply) (v : vars) : Prop :=
  g (xLeft v) = Returns (yLeft v) None /\ g (xRoot v) = Returns (yRoot v) None.

(** * The rest of the sources

    Beyond the generic [Find] the sources hold: the methods [ErrorFind.Error]
    and [ErrType.String]; the earlier [Find] over [float64]; the first
    [Find], of package [rf]; and the piecewise linear functions with which
    the test suite builds its evaluators.  Their models follow, with the
    predicates in which the further theorems about [Find] are stated. *)

Unset Implicit Arguments.

(** ** Logs of evaluations *)

(** An evaluation that returned, and without error. *)
Definition answered (c : float * reply) : Prop :=
  exists y, snd c = Returns y None.

(** The log of a call after its three first evaluations, none of which has
    failed so far. *)
Definition clean (lo hi : float) (l : list (float * reply)) : Prop :=
  exists yl ym yh l',
    l = (lo, Returns yl None) :: (middle lo hi, Returns ym None)
        :: (hi, Returns yh None) :: l' /\
    Forall answered l'.

(** A call left without error: its last evaluation is at [root]. *)
Definition clean_exit {St} (lo hi : float) (x : exit) (s : state St) : Prop :=
  x = ByReturn -> err s = None ->
  exists l y, clean lo hi l /\ calls s = l ++ [(root s, Returns y None)].

(** Every evaluation of the log was at a point within [[a, b]]. *)
Definition evaluated_within (a b : float) (l : list (float * reply)) : Prop :=
  Forall (fun c => within_bounds a b (fst c)) l.

(** A bracket inside [[a, b]] whose width does not overflow. *)
Definition narrowing (a b : float) (v : vars) : Prop :=
  bracketed a b v /\ finite (xRigth v - xLeft v) = true.

(** A call that is left with an error, or by a panic, has not touched [root]. *)
Definition zero_root {St} (x : exit) (s : state St) : Prop :=
  match x with
  | ByReturn => err s = None \/ root s = 0%float
  | _ => root s = 0%float
  end.

(** A call that makes no pass of the loop: four evaluations at most, and a
    bound for root. *)
Definition idle {St} (lo hi : float) (x : exit) (s : state St) : Prop :=
  (Z.of_nat (List.length (calls s)) <= 4)%Z /\
  (x = ByReturn -> err s = None -> root s = lo \/ root s = hi).

(** ** The value at the root *)

(** The evaluator has returned at [r], in the log [l], a value below
    [Precision], without error. *)
Definition probed (cfg : Config) (l : list (float * reply)) (r : float) : Prop :=
  exists y, In (r, Returns y None) l /\ (Abs y <? Precision cfg)%float = true.

(** A call left without error: the last evaluation is at [root], where an
    earlier one has returned a small value. *)
Definition probed_exit {St} (cfg : Config) (x : exit) (s : state St) : Prop :=
  x = ByReturn -> err s = None ->
  exists l y, calls s = l ++ [(root s, Returns y None)] /\ probed cfg l (root s).

(** ** The errors of [Find] *)

(** The errors that [Find] hands to its caller, each with the place of the
    source it comes from, for a call whose log is [l]: an error of the
    evaluator as it is (three first evaluations, last evaluation) or wrapped
    (loop), the cap, the sign comparison, the guards on the midpoint, the
    deferred function. *)
Inductive reported (cfg : Config) (l : list (float * reply)) : error -> Prop :=
| reported_native (x y : float) (e : error) :
    In (x, Returns y (Some e)) l -> reported cfg l e
| reported_wrapped (x y : float) (e : error) :
    In (x, Returns y (Some e)) l -> reported cfg l (ErrorFind InternalErr e)
| reported_cap :
    reported cfg l
      (ErrorFind MaximalIteration
         (Errorf "Too many iterations: %d" [OInt (Z.max 0 (MaxIteration cfg))]))
| reported_no_root (a b c : float) :
    Signbit a = Signbit b -> Signbit b = Signbit c ->
    reported cfg l
      (ErrorFind InternalErr
         (Errorf "No root: [%.3e, %.3e, %.3e]" [OFloat a; OFloat b; OFloat c]))
| reported_not_valid (msg : string) :
    In msg ["xRoot is NaN"; "yRoot is NaN"; "xRoot is Inf"; "yRoot is Inf"]%string ->
    reported cfg l (ErrorFind NotValidValue (Errorf msg []))
| reported_panic (x : float) (r : string) :
    In (x, Panics r) l ->
    reported cfg l (ErrorFind Recovery (Errorf "%#v" [OValue r])).

Definition reported_exit {St} (cfg : Config) (x : exit) (s : state St) : Prop :=
  match x with
  | ByReturn => forall e, err s = Some e -> reported cfg (calls s) e
  | ByPanic r => exists x0, In (x0, Panics r) (calls s)
  | ByFuel => True
  end.

(** ** Sign changes *)

(** The precondition of the bisection: the evaluator returns values of
    opposite sign bits at [a] and at [b]. *)
Definition sign_change (g : float -> reply) (a b : float) : Prop :=
  exists ya yb, g a = Returns ya None /\ g b = Returns yb None /\
                Signbit ya <> Signbit yb.

(** The samples of a pass enclose a sign change of the evaluator: the left and
    the midpoint samples hold its values, the right sample holds a value with
    the sign bit of its value. *)
Definition enclosing (g : float -> reply) (v : vars) : Prop :=
  g (xLeft v) = Returns (yLeft v) None /\
  g (xRoot v) = Returns (yRoot v) None /\
  (exists yr, g (xRigth v) = Returns yr None /\ Signbit yr = Signbit (yRigth v)) /\
  Signbit (yLeft v) <> Signbit (yRigth v).

(** What a successful call has found: a bound, or the midpoint of a bracket
    inside the bounds, narrower than [Precision], across which the evaluator
    changes sign. *)
Definition enclosed (cfg : Config) (g : float -> reply) (lo hi r : float) : Prop :=
  r = lo \/ r = hi \/
  exists v, sign_change g (xLeft v) (xRigth v) /\
            (lo <=? xLeft v)%float = true /\
            (xLeft v <=? r)%float = true /\
            (r <=? xRigth v)%float = true /\
            (xRigth v <=? hi)%float = true /\
            r = middle (xLeft v) (xRigth v) /\
            (width v <? Precision cfg)%float = true.

Definition enclosed_exit (cfg : Config) (g : float -> reply) (lo hi : float)
           (x : exit) (s : state unit) : Prop :=
  x = ByReturn -> err s = None -> enclosed cfg g lo hi (root s).

(** ** An interval of one point *)

(** What [Find] returns over the interval [[a, a]] when the evaluator
    returns [y] at [a]. *)
Definition at_a_point (cfg : Config) (a y : float) : float * option error :=
  if (Abs y <? Precision cfg)%float then (a, None)
  else if (MaxIteration cfg <=? 0)%Z then
    (0%float,
     Some (ErrorFind MaximalIteration (Errorf "Too many iterations: %d" [OInt 0])))
  else
    (0%float,
     Some (ErrorFind InternalErr
             (Errorf "No root: [%.3e, %.3e, %.3e]" [OFloat y; OFloat y; OFloat y]))).

(** ** The largest binary64 number *)

(** One unit in the last place of the largest binary64 numbers, [2^971], in
    units of [2^-1074]. *)
Definition last_place : Z := (2 ^ 2045)%Z.

(** The largest binary64 number, [(2^53 - 1) * 2^971]. *)
Definition largest : Z := ((2 ^ 53 - 1) * last_place)%Z.

(** ** Messages *)

Section Messages.
(** [fmt]'s rendering of a format with its operands. *)
Variable Sprintf : string -> list operand -> string.


End Messages.

(** ** The earlier [Find], over [float64] only

    [func Find(f func(float64) (float64, error), minX, maxX float64) (root float64, err error)]:
    the same three first evaluations and the same loop, without the guards on
    the midpoint, with plain errors, [-1] as root at the cap, and a second
    deferred function that wraps every error with the bounds. *)

(** [fmt.Errorf("Cannot find [%.5e,%.5e]: %v", minX, maxX, err)]: the format
    is fixed, the three operands are kept. *)
Inductive wrapped : Type :=
| Cannot_find (minX maxX : float) (err : error).

Module Float64.
Section Solver.
Context {St : Type}.
Variable cfg : Config.
Variable f : evaluator St.

(** One pass through the body of the [for]. *)
Definition iteration (iter : Z) (v : vars) : M St ctl :=
  if (MaxIteration cfg <=? iter)%Z then
    assign_root (-1)%float ;;
    assign_err (Some (Errorf "Too many iterations: %d" [OInt iter])) ;;
    return_
  else if converged (Precision cfg) v then ret Break
  else
    match bracket v with
    | None =>
        assign_err (Some (Errorf "No root: [%.3e, %.3e, %.3e]"
                            [OFloat (yLeft v); OFloat (yRoot v); OFloat (yRigth v)])) ;;
        return_
    | Some v1 =>
        let x := middle (xLeft v1) (xRigth v1) in
        '(y, errRoot) <- call f x ;;
        match errRoot with
        | Some e => assign_err (Some e) ;; return_
        | None =>
            ret (Continue {| xLeft := xLeft v1; yLeft := yLeft v1;
                             xRoot := x; yRoot := y;
                             xRigth := xRigth v1; yRigth := yRigth v1 |})
        end
    end.

Fixpoint loop (fuel : nat) (iter : Z) (v : vars) : M St vars :=
  c <- iteration iter v ;;
  match c with
  | Break => ret v
  | Continue v' =>
      match fuel with
      | O => fun s => (OutOfFuel, s)
      | S fuel' => loop fuel' (iter + 1)%Z v'
      end
  end.

(** The body: up to the loop it is that of the generic [Find], line for
    line. *)
Definition body (minX maxX : float) : M St unit :=
  v0 <- enter cfg f minX maxX ;;
  v <- loop (Z.to_nat (MaxIteration cfg)) 0%Z v0 ;;
  confirm f (xRoot v).

(** [defer func() { if r := recover(); r != nil { err = fmt.Errorf("%#v", r) } }()],
    the deferred function that runs first. *)
Definition recovering (r : flow unit * state St) : state St :=
  match r with
  | (Panicking v, s) => set_err (Some (Errorf "%#v" [OValue v])) s
  | (_, s) => s
  end.

Definition run_Find (minX maxX : float) (e0 : St) : state St :=
  recovering (body minX maxX (initial e0)).

(** [defer func() { if err != nil { err = fmt.Errorf("Cannot find ...", minX, maxX, err) } }()],
    the deferred function that runs last; it reads the bounds after their
    replacement. *)
Definition Find (minX maxX : float) (e0 : St) : float * option wrapped :=
  let s := run_Find minX maxX e0 in
  let '(minX, maxX) := replace_borders minX maxX in
  (root s, option_map (Cannot_find minX maxX) (err s)).

End Solver.
End Float64.

(** The root and the error that the earlier [Find] hands to the first of its
    deferred functions, for a call whose log is [l]: an error of the
    evaluator, as it is; the cap, with [-1] as root; the sign comparison;
    the value of a panic. *)
Inductive reported_earlier (cfg : Config) (l : list (float * reply)) :
  float -> error -> Prop :=
| earlier_native (x y r : float) (e : error) :
    In (x, Returns y (Some e)) l -> reported_earlier cfg l r e
| earlier_cap :
    reported_earlier cfg l (-1)%float
      (Errorf "Too many iterations: %d" [OInt (Z.max 0 (MaxIteration cfg))])
| earlier_no_root (a b c : float) :
    Signbit a = Signbit b -> Signbit b = Signbit c ->
    reported_earlier cfg l 0%float
      (Errorf "No root: [%.3e, %.3e, %.3e]" [OFloat a; OFloat b; OFloat c])
| earlier_panic (x r : float) (p : string) :
    In (x, Panics p) l ->
    reported_earlier cfg l r (Errorf "%#v" [OValue p]).

Definition earlier_exit {St} (cfg : Config) (x : exit) (s : state St) : Prop :=
  match x with
  | ByReturn => forall e, err s = Some e -> reported_earlier cfg (calls s) (root s) e
  | ByPanic p => exists x0, In (x0, Panics p) (calls s)
  | ByFuel => True
  end.

(** ** Package [rf]: the first [Find]

    [rf.go] holds the first version of the solver: every pass evaluates the
    function at the two ends and at the midpoint of the bracket, and the
    convergence test reads the absolute width only.  [Precision] and
    [MaxIteration] are constants there; the two deferred functions are those
    of the earlier [Find]. *)

Module rf.

Definition Precision : float := 0x1.0c6f7a0b5ed8dp-20%float.
Definition MaxIteration : Z := 500%Z.

Section Solver.
Context {St : Type}.
Variable f : evaluator St.

(** [if y, err = f(x); err != nil { return }] *)
Definition evaluate (x : float) : M St float :=
  '(y, e) <- call f x ;;
  assign_err e ;;
  match e with
  | Some _ => return_
  | None => ret y
  end.

(** One pass through the body of the [for]: [None] is [break], [Some] holds
    [left] and [rigth] for the next pass.  [fl], [frigth] and [fr] are
    written in every pass before they are read. *)
Definition iteration (iter : Z) (left rigth : float) : M St (option (float * float)) :=
  if (MaxIteration <=? iter)%Z then
    assign_root (-1)%float ;;
    assign_err (Some (Errorf "Too many iterations: %d" [OInt iter])) ;;
    return_
  else
    let x := (left + (rigth - left) / 2)%float in
    assign_root x ;;
    fl <- evaluate left ;;
    frigth <- evaluate rigth ;;
    fr <- evaluate x ;;
    if (Abs fr <? Precision)%float && (Abs (rigth - left) <? Precision)%float then ret None
    else if negb (Bool.eqb (Signbit fl) (Signbit fr)) then ret (Some (left, x))
    else if negb (Bool.eqb (Signbit fr) (Signbit frigth)) then ret (Some (x, rigth))
    else
      assign_err (Some (Errorf "No root in x = [%.2f,%.2f,%.2f]. y=[%.2f,%.2f,%.2f]"
                          [OFloat left; OFloat x; OFloat rigth;
                           OFloat fl; OFloat fr; OFloat frigth])) ;;
      return_.

Fixpoint loop (fuel : nat) (iter : Z) (left rigth : float) : M St unit :=
  c <- iteration iter left rigth ;;
  match c with
  | None => ret tt
  | Some (left', rigth') =>
      match fuel with
      | O => fun s => (OutOfFuel, s)
      | S fuel' => loop fuel' (iter + 1)%Z left' rigth'
      end
  end.

(** [_, err = f(root); return] *)
Definition confirm : M St unit :=
  fun s => ('(_, e) <- call f (root s) ;; assign_err e ;; return_) s.

Definition body (minX maxX : float) : M St unit :=
  let '(minX, maxX) := replace_borders minX maxX in
  loop (Z.to_nat MaxIteration) 0%Z minX maxX ;;
  confirm.

Definition run_Find (minX maxX : float) (e0 : St) : state St :=
  Float64.recovering (body minX maxX (initial e0)).

Definition Find (minX maxX : float) (e0 : St) : float * option wrapped :=
  let s := run_Find minX maxX e0 in
  let '(minX, maxX) := replace_borders minX maxX in
  (root s, option_map (Cannot_find minX maxX) (err s)).

End Solver.
End rf.

(** The bracket of a pass of a [Find] without guards on the midpoint: inside
    the bounds, or with a width that is not finite, which the convergence
    test never accepts. *)
Definition loose_bracket (lo hi left rigth : float) : Prop :=
  ((lo <=? left)%float = true /\ (left <=? rigth)%float = true /\
   (rigth <=? hi)%float = true) \/
  finite (rigth - left) = false.

(** What [rf.Find] has found when its loop breaks: a point within the bounds
    where the evaluator is small, the midpoint of a bracket within the
    bounds, narrower than [Precision], across which the evaluator changes
    sign when it does across the bounds. *)
Definition rf_found (g : float -> reply) (lo hi r : float) : Prop :=
  (lo <=? r)%float = true /\ (r <=? hi)%float = true /\
  (exists y, g r = Returns y None /\ (Abs y <? rf.Precision)%float = true) /\
  exists left rigth,
    (lo <=? left)%float = true /\ (left <=? r)%float = true /\
    (r <=? rigth)%float = true /\ (rigth <=? hi)%float = true /\
    r = middle left rigth /\ (Abs (rigth - left) <? rf.Precision)%float = true /\
    (sign_change g lo hi -> sign_change g left rigth).

(** A [return] of [rf.Find] from inside its loop carries an error. *)
Definition rf_exit (x : exit) (s : state unit) : Prop :=
  x = ByReturn -> err s <> None.

(** ** The contract of the earlier [Find] *)

(** The samples of a pass of the earlier [Find]: the midpoint is that of the
    ends and holds the value of the evaluator; the ends are inside the
    bounds, unless their difference is not finite. *)
Definition unguarded (g : float -> reply) (lo hi : float) (v : vars) : Prop :=
  xRoot v = middle (xLeft v) (xRigth v) /\
  loose_bracket lo hi (xLeft v) (xRigth v) /\
  sampled g v.

(** What a call without error returns: a point within the bounds where the
    evaluator is small. *)
Definition contract (cfg : Config) (g : float -> reply) (lo hi : float)
           (x : exit) (s : state unit) : Prop :=
  x = ByReturn -> err s = None -> within_bounds lo hi (root s) /\ precise cfg g (root s).

(** ** Piecewise linear functions of the test suite *)

(** [type xys struct { x, y float64 }] *)
Record xys : Type := mk_xys { x_ : float; y_ : float }.

(** [func line(x, x0, y0, x1, y1 float64) float64], every operation rounded
    on its own. *)
Definition line (x x0 y0 x1 y1 : float) : float :=
  let a := ((y1 - y0) / (x1 - x0))%float in
  let b := (y0 - a * x0)%float in
  (a * x + b)%float.

(** [xy[i]]: [None] stands for the panic of an index out of range. *)
Definition knot (xy : list xys) (i : Z) : option xys :=
  if (i <? 0)%Z then None else nth_error xy (Z.to_nat i).

(** [line(x, xy[i].x, xy[i].y, xy[j].x, xy[j].y)] *)
Definition through (x : float) (xy : list xys) (i j : Z) : option float :=
  match knot xy i, knot xy j with
  | Some p, Some q => Some (line x (x_ p) (y_ p) (x_ q) (y_ q))
  | _, _ => None
  end.

(** [for i := 1; i < len(xy); i++ { if xy[i-1].x <= x && x <= xy[i].x { return ... } }],
    from [i] on for [n] more indices; [Some None] when the loop ends without
    a [return]. *)
Fixpoint segments (x : float) (xy : list xys) (i : Z) (n : nat) : option (option float) :=
  match n with
  | O => Some None
  | S n' =>
      match knot xy (i - 1) with
      | None => None
      | Some p =>
          if (x_ p <=? x)%float then
            match knot xy i with
            | None => None
            | Some q =>
                if (x <=? x_ q)%float then option_map Some (through x xy (i - 1) i)
                else segments x xy (i + 1) n'
            end
          else segments x xy (i + 1) n'
      end
  end.

(** [func PartLine(x float64, xy []xys) float64]: [None] is a panic. *)
Definition PartLine (x : float) (xy : list xys) : option float :=
  let last := (Z.of_nat (List.length xy) - 1)%Z in
  match knot xy 0 with
  | None => None
  | Some p0 =>
      if (x <? x_ p0)%float then through x xy 0 1
      else
        match knot xy last with
        | None => None
        | Some pl =>
            if (x_ pl <? x)%float then through x xy (last - 1) last
            else
              match segments x xy 1 (List.length xy - 1) with
              | None => None
              | Some (Some y) => Some y
              | Some None => Some (-42)%float
              end
        end
  end.

(** What [PartLine] returns for a table of at least two knots and no NaN:
    the line through two neighbouring knots, which are the first two below
    the table, the last two above it, and two knots around [x] inside. *)
Definition interpolated (x : float) (xy : list xys) (y : float) : Prop :=
  exists i p q,
    knot xy i = Some p /\ knot xy (i + 1) = Some q /\
    y = line x (x_ p) (y_ p) (x_ q) (y_ q) /\
    (((x <? x_ p)%float = true /\ i = 0%Z) \/
     ((x_ q <? x)%float = true /\ i = (Z.of_nat (List.length xy) - 2)%Z) \/
     ((x_ p <=? x)%float = true /\ (x <=? x_ q)%float = true)).


(** * Verification *)

Unset Implicit Arguments.

(** ** Reasoning rules for the control-flow monad *)

Section Rules.
Context {St : Type}.

Lemma outcome_bind A B (m : M St A) (k : A -> M St B) N E (s : state St) :
  outcome (fun a s' => outcome N E (k a s')) E (m s) ->
  outcome N E (bind m k s).
Proof.
  unfold bind. destruct (m s) as [[a| |r|] s']; simpl; auto.
Qed.

Lemma outcome_weaken A (N N' : A -> state St -> Prop) (E E' : exit -> state St -> Prop)
      (r : flow A * state St) :
  outcome N' E' r ->
  (forall a s, N' a s -> N a s) ->
  (forall x s, E' x s -> E x s) ->
  outcome N E r.
Proof.
  destruct r as [[a| |v|] s]; simpl; auto.
Qed.

Lemma outcome_call (f : evaluator St) (x : float) N E (s : state St) :
  (forall y e e', f (ev s) x = (Returns y e, e') ->
                  N (y, e) (logged s x (Returns y e) e')) ->
  (forall r e', f (ev s) x = (Panics r, e') ->
                E (ByPanic r) (logged s x (Panics r) e')) ->
  outcome N E (call f x s).
Proof.
  intros HN HE. unfold call.
  destruct (f (ev s) x) as [[y e|r] e'] eqn:Hf; simpl.
  - apply HN; auto.
  - apply HE; auto.
Qed.

Lemma check_errors_eq (es : list (option error)) (s : state St) :
  check_errors es s =
  match first_error es with
  | Some e => (Return, set_err (Some e) s)
  | None => (Next tt, s)
  end.
Proof.
  induction es as [|[e|] es IH]; simpl; auto.
Qed.

Lemma outcome_check_errors (es : list (option error)) N E (s : state St) :
  (forall e, first_error es = Some e -> E ByReturn (set_err (Some e) s)) ->
  (first_error es = None -> N tt s) ->
  outcome N E (check_errors es s).
Proof.
  intros HE HN. rewrite check_errors_eq.
  destruct (first_error es); simpl; auto.
Qed.

(** [root = x; _, err = f(root); return] never falls through. *)
Lemma outcome_confirm A (f : evaluator St) (x : float) (N : A -> state St -> Prop) E
      (s : state St) :
  (forall y e e', f (ev s) x = (Returns y e, e') ->
                  E ByReturn (set_err e (logged (set_root x s) x (Returns y e) e'))) ->
  (forall r e', f (ev s) x = (Panics r, e') ->
                E (ByPanic r) (logged (set_root x s) x (Panics r) e')) ->
  outcome N E (confirm f x s).
Proof.
  intros HN HE. unfold confirm.
  apply outcome_bind. simpl.
  apply outcome_bind. apply outcome_call.
  - intros y e e' Hf. simpl. apply HN. exact Hf.
  - intros r e' Hf. apply HE. exact Hf.
Qed.

End Rules.

(** ** The loop, one pass at a time *)

Section Passes.
Context {St : Type}.
Variable cfg : Config.
Variable f : evaluator St.

Lemma loop_unfold (fuel : nat) (iter : Z) (v : vars) :
  loop cfg f fuel iter v =
  (c <- iteration cfg f iter v ;;
   match c with
   | Break => ret v
   | Continue v' =>
       match fuel with
       | O => fun s => (OutOfFuel, s)
       | S fuel' => loop cfg f fuel' (iter + 1)%Z v'
       end
   end).
Proof. destruct fuel; reflexivity. Qed.

(** A pass that leaves the function leaves the loop and all that follows. *)
Lemma loop_return (fuel : nat) (iter : Z) (v : vars) (s s' : state St)
      (k : vars -> M St unit) :
  iteration cfg f iter v s = (Return, s') ->
  recovering ((v' <- loop cfg f fuel iter v ;; k v') s) = s'.
Proof.
  intros H. rewrite loop_unfold. unfold bind. rewrite H. reflexivity.
Qed.

Lemma iteration_capped (iter : Z) (v : vars) (s : state St) :
  (MaxIteration cfg <= iter)%Z ->
  iteration cfg f iter v s =
  (Return, set_err (Some (ErrorFind MaximalIteration
                            (Errorf "Too many iterations: %d" [OInt iter]))) s).
Proof.
  intros H. unfold iteration.
  destruct (Z.leb_spec (MaxIteration cfg) iter); [reflexivity | lia].
Qed.

Lemma iteration_under_cap (iter : Z) (v : vars) (s : state St) (c : ctl) (s' : state St) :
  iteration cfg f iter v s = (Next c, s') -> (iter < MaxIteration cfg)%Z.
Proof.
  intros H. destruct (Z.leb_spec (MaxIteration cfg) iter) as [Hle|Hlt]; [|assumption].
  rewrite (iteration_capped iter v s Hle) in H. discriminate.
Qed.

(** What a pass does once the cap and the convergence test are behind. *)
Lemma iteration_searching (iter : Z) (v : vars) :
  (iter < MaxIteration cfg)%Z ->
  converged (Precision cfg) v = false ->
  iteration cfg f iter v =
  match bracket v with
  | None =>
      fail InternalErr
        (Errorf "No root: [%.3e, %.3e, %.3e]"
           [OFloat (yLeft v); OFloat (yRoot v); OFloat (yRigth v)])
  | Some v1 =>
      let x := middle (xLeft v1) (xRigth v1) in
      '(y, errRoot) <- call f x ;;
      match errRoot with
      | Some e => fail InternalErr e
      | None =>
          match not_valid x y with
          | Some msg => fail NotValidValue (Errorf msg [])
          | None =>
              ret (Continue {| xLeft := xLeft v1; yLeft := yLeft v1;
                               xRoot := x; yRoot := y;
                               xRigth := xRigth v1; yRigth := yRigth v1 |})
          end
      end
  end.
Proof.
  intros Hlt Hc. unfold iteration. rewrite Hc.
  destruct (Z.leb_spec (MaxIteration cfg) iter); [lia | reflexivity].
Qed.

Lemma call_returns (x : float) (s : state St) (y : float) (e : option error) (e' : St) :
  f (ev s) x = (Returns y e, e') ->
  call f x s = (Next (y, e), logged s x (Returns y e) e').
Proof. intros H. unfold call. rewrite H. reflexivity. Qed.

(** The call as seen from the head of the [n]-th pass. *)
Lemma head_run (minX maxX : float) (e0 : St) (n : nat) (v : vars) (s : state St) :
  head cfg f minX maxX e0 n = Some (v, s) ->
  run_Find cfg f minX maxX e0 =
  recovering ((v' <- loop cfg f (Z.to_nat (MaxIteration cfg - Z.of_nat n)) (Z.of_nat n) v ;;
               confirm f (xRoot v')) s).
Proof.
  revert v s. induction n as [|n IH]; intros v s H.
  - simpl in H. unfold run_Find, body.
    unfold bind at 1.
    destruct (enter cfg f minX maxX (initial e0)) as [[v0| |r|] s0]; try discriminate.
    inversion H; subst. rewrite Z.sub_0_r. reflexivity.
  - simpl in H.
    destruct (head cfg f minX maxX e0 n) as [[v0 s0]|]; [|discriminate].
    destruct (iteration cfg f (Z.of_nat n) v0 s0) as [[[v1|]| |r|] s1] eqn:Hit;
      try discriminate.
    inversion H; subst.
    rewrite (IH _ _ eq_refl).
    pose proof (iteration_under_cap _ _ _ _ _ Hit) as Hlt.
    replace (Z.to_nat (MaxIteration cfg - Z.of_nat n))
      with (S (Z.to_nat (MaxIteration cfg - Z.of_nat (S n)))) by lia.
    rewrite loop_unfold. unfold bind at 2. unfold bind at 1.
    rewrite Hit. unfold bind.
    replace (Z.of_nat n + 1)%Z with (Z.of_nat (S n)) by lia.
    reflexivity.
Qed.

End Passes.

(** ** The convergence test *)

Lemma converged_spec (prec : float) (v : vars) :
  converged prec v = spec_converged prec v.
Proof.
  unfold converged, spec_converged, width.
  destruct (xLeft v =? 0)%float; reflexivity.
Qed.

(** C9. The loop is left by [break] exactly when the cap is not reached and
    [|yRoot| < Precision] and the width is below [Precision], the width being
    [|xRigth - xLeft|] when [xLeft == 0] and [|(xRigth - xLeft) / xLeft|]
    otherwise; the test of the source is that of the specification, and the
    width reads no other variable than the two endpoints. *)
Theorem convergence_test_exact :
  forall (St : Type) (cfg : Config) (f : evaluator St) (iter : Z) (v : vars) (s : state St),
    converged (Precision cfg) v = spec_converged (Precision cfg) v /\
    (spec_converged (Precision cfg) v = true <->
     (Abs (yRoot v) <? Precision cfg)%float = true /\
     ((if (xLeft v =? 0)%float
       then Abs (xRigth v - xLeft v)
       else Abs ((xRigth v - xLeft v) / xLeft v)) <? Precision cfg)%float = true) /\
    (iteration cfg f iter v s = (Next Break, s) <->
     (iter < MaxIteration cfg)%Z /\ spec_converged (Precision cfg) v = true) /\
    (forall s', iteration cfg f iter v s = (Next Break, s') -> s' = s).
Proof.
  intros St cfg f iter v s.
  split; [apply converged_spec|].
  split.
  { unfold spec_converged, width. rewrite andb_true_iff. reflexivity. }
  assert (Hbreak : forall s', iteration cfg f iter v s = (Next Break, s') ->
                              (iter < MaxIteration cfg)%Z /\
                              converged (Precision cfg) v = true /\ s' = s).
  { intros s' H. pose proof (iteration_under_cap cfg f _ _ _ _ _ H) as Hlt.
    split; [assumption|].
    destruct (converged (Precision cfg) v) eqn:Hc.
    - unfold iteration in H. rewrite Hc in H.
      destruct (Z.leb_spec (MaxIteration cfg) iter); [lia|].
      inversion H. auto.
    - exfalso. rewrite (iteration_searching cfg f iter v Hlt Hc) in H.
      destruct (bracket v) as [v1|]; [|discriminate].
      cbv zeta in H. unfold bind, call in H.
      destruct (f (ev s) (middle (xLeft v1) (xRigth v1))) as [[y [e|]|r] e'];
        try discriminate.
      destruct (not_valid (middle (xLeft v1) (xRigth v1)) y); discriminate. }
  split.
  - split.
    + intros H. destruct (Hbreak _ H) as (Hlt & Hc & _).
      rewrite <- converged_spec. auto.
    + intros [Hlt Hc]. rewrite <- converged_spec in Hc.
      unfold iteration. rewrite Hc.
      destruct (Z.leb_spec (MaxIteration cfg) iter); [lia | reflexivity].
  - intros s' H. destruct (Hbreak _ H) as (_ & _ & ->). reflexivity.
Qed.

(** ** Symbolic execution of [enter] and of a pass *)

Ltac step :=
  cbv beta iota;
  match goal with
  | |- outcome _ _ (bind _ _ _) => apply outcome_bind
  | |- outcome _ _ (call _ _ _) =>
      apply outcome_call; [intros ?y ?e ?e' ?Hf | intros ?r ?e' ?Hf]
  | |- outcome _ _ (check_errors _ _) =>
      apply outcome_check_errors; [intros ?e ?Hfirst | intros ?Hfirst]
  | |- outcome _ _ (confirm _ _ _) =>
      apply outcome_confirm; [intros ?y ?e ?e' ?Hf | intros ?r ?e' ?Hf]
  | |- outcome _ _ (ret _ _) => unfold ret, outcome
  | |- outcome _ _ (fail _ _ _) => unfold fail, bind, assign_err, return_, outcome
  | |- outcome _ _ ((if ?b then _ else _) _) => destruct b eqn:?
  | |- outcome _ _ (match ?o with Some _ => _ | None => _ end _) => destruct o eqn:?
  end.

Ltac steps := repeat step.

Section Frame.
Context {St : Type}.
Variable cfg : Config.
Variable f : evaluator St.

Lemma enter_untouched (minX maxX : float) (s : state St) :
  untouched s ->
  outcome (fun _ s' => untouched s') (fun _ _ => True) (enter cfg f minX maxX s).
Proof.
  intros Hs. unfold enter. destruct (replace_borders minX maxX) as [a b].
  steps; auto.
Qed.

Lemma iteration_untouched (iter : Z) (v : vars) (s : state St) :
  untouched s ->
  outcome (fun _ s' => untouched s') (fun _ _ => True) (iteration cfg f iter v s).
Proof.
  intros Hs. unfold iteration.
  steps; auto.
Qed.

Lemma head_untouched (minX maxX : float) (e0 : St) (n : nat) (v : vars) (s : state St) :
  head cfg f minX maxX e0 n = Some (v, s) -> untouched s.
Proof.
  revert v s. induction n as [|n IH]; intros v s H; simpl in H.
  - pose proof (enter_untouched minX maxX (initial e0) (conj eq_refl eq_refl)) as Hout.
    destruct (enter cfg f minX maxX (initial e0)) as [[v0| |r|] s0]; try discriminate.
    inversion H; subst. exact Hout.
  - destruct (head cfg f minX maxX e0 n) as [[v0 s0]|]; [|discriminate].
    pose proof (iteration_untouched (Z.of_nat n) v0 s0 (IH _ _ eq_refl)) as Hout.
    destruct (iteration cfg f (Z.of_nat n) v0 s0) as [[[v1|]| |r|] s1]; try discriminate.
    inversion H; subst. exact Hout.
Qed.

End Frame.

(** ** Aborts inside the loop *)

Section Aborts.
Context {St : Type}.
Variable cfg : Config.
Variable f : evaluator St.

(** With all three sign bits equal no half is kept. *)
Lemma bracket_lost (v : vars) :
  Signbit (yLeft v) = Signbit (yRoot v) ->
  Signbit (yRoot v) = Signbit (yRigth v) ->
  bracket v = None.
Proof.
  intros H1 H2. unfold bracket. rewrite H1, H2.
  rewrite !Bool.eqb_reflx. reflexivity.
Qed.

Lemma bracket_kept (v : vars) :
  bracket v <> None <->
  Signbit (yLeft v) <> Signbit (yRoot v) \/ Signbit (yRoot v) <> Signbit (yRigth v).
Proof.
  unfold bracket.
  destruct (Signbit (yLeft v)), (Signbit (yRoot v)), (Signbit (yRigth v)); simpl;
    split; intros H; try congruence; try (left; congruence); try (right; congruence);
    destruct H; congruence.
Qed.

Lemma not_valid_none (x y : float) :
  not_valid x y = None <-> IsNaN x || IsNaN y || IsInf x || IsInf y = false.
Proof.
  unfold not_valid.
  destruct (IsNaN x), (IsNaN y), (IsInf x), (IsInf y); simpl; split; congruence.
Qed.

(** The result of [Find] when the call is left with [return] at state [s]. *)
Lemma run_abort (minX maxX : float) (e0 : St) (n : nat) (v : vars) (s s' : state St) :
  head cfg f minX maxX e0 n = Some (v, s) ->
  iteration cfg f (Z.of_nat n) v s = (Return, s') ->
  run_Find cfg f minX maxX e0 = s'.
Proof.
  intros Hh Hit. rewrite (head_run cfg f minX maxX e0 n v s Hh).
  apply loop_return. exact Hit.
Qed.

End Aborts.

(** C6. In a pass of the loop that gets to the sign comparison (the cap is
    not reached and the convergence test fails), when the sign bits of
    [yLeft], [yRoot] and [yRigth] all agree, [Find] returns at once with an
    error of kind [InternalErr] and the zero root; in particular for
    [2*x + 5] over [[0, 1]]. *)
Theorem no_sign_change_is_InternalErr :
  (forall (St : Type) (cfg : Config) (f : evaluator St) (minX maxX : float) (e0 : St)
          (n : nat) (v : vars) (s : state St),
      head cfg f minX maxX e0 n = Some (v, s) ->
      (Z.of_nat n < MaxIteration cfg)%Z ->
      converged (Precision cfg) v = false ->
      Signbit (yLeft v) = Signbit (yRoot v) ->
      Signbit (yRoot v) = Signbit (yRigth v) ->
      let e := ErrorFind InternalErr
                 (Errorf "No root: [%.3e, %.3e, %.3e]"
                    [OFloat (yLeft v); OFloat (yRoot v); OFloat (yRigth v)]) in
      run_Find cfg f minX maxX e0 = set_err (Some e) s /\
      Find cfg f minX maxX e0 = (0%float, Some e) /\
      kind_of e = Some InternalErr) /\
  Find default no_root 0 1 tt =
  (0%float,
   Some (ErrorFind InternalErr
           (Errorf "No root: [%.3e, %.3e, %.3e]" [OFloat 5; OFloat 6; OFloat 7]))).
Proof.
  split; [|vm_compute; reflexivity].
  intros St cfg f minX maxX e0 n v s Hh Hlt Hc H1 H2 e.
  assert (Hrun : run_Find cfg f minX maxX e0 = set_err (Some e) s).
  { apply (run_abort cfg f minX maxX e0 n v s _ Hh).
    rewrite (iteration_searching cfg f _ v Hlt Hc).
    rewrite (bracket_lost v H1 H2). reflexivity. }
  split; [exact Hrun|]. split; [|reflexivity].
  unfold Find. rewrite Hrun. simpl.
  destruct (head_untouched cfg f minX maxX e0 n v s Hh) as [Hr _].
  rewrite Hr. reflexivity.
Qed.

Lemma no_sign_change_is_InternalErr_witness :
  head default no_root 0 1 tt 0 =
    Some ({| xLeft := 0; yLeft := 5; xRoot := 0.5; yRoot := 6; xRigth := 1; yRigth := 7 |},
          {| ev := tt;
             calls := [(0, Returns 5 None); (0.5, Returns 6 None); (1, Returns 7 None)]%float;
             root := 0; err := None |}) /\
  Find default no_root 0 1 tt =
  (0%float,
   Some (ErrorFind InternalErr
           (Errorf "No root: [%.3e, %.3e, %.3e]" [OFloat 5; OFloat 6; OFloat 7]))).
Proof.
  split; [vm_compute; reflexivity|].
  refine (proj1 (proj2 (proj1 no_sign_change_is_InternalErr unit default no_root 0%float 1%float tt 0%nat
            {| xLeft := 0; yLeft := 5; xRoot := 0.5; yRoot := 6; xRigth := 1; yRigth := 7 |}
            {| ev := tt;
               calls := [(0, Returns 5 None); (0.5, Returns 6 None); (1, Returns 7 None)]%float;
               root := 0; err := None |} _ _ _ _ _)));
    vm_compute; reflexivity.
Defined.

(** C7. When the count of passes reaches [MaxIteration] without the
    convergence test having succeeded, [Find] returns with an error of kind
    [MaximalIteration]; with the defaults, after 500 passes on a sign change
    that never becomes small. *)
Theorem cap_is_MaximalIteration :
  (forall (St : Type) (cfg : Config) (f : evaluator St) (minX maxX : float) (e0 : St)
          (n : nat) (v : vars) (s : state St),
      head cfg f minX maxX e0 n = Some (v, s) ->
      (MaxIteration cfg <= Z.of_nat n)%Z ->
      let e := ErrorFind MaximalIteration
                 (Errorf "Too many iterations: %d" [OInt (Z.of_nat n)]) in
      run_Find cfg f minX maxX e0 = set_err (Some e) s /\
      Find cfg f minX maxX e0 = (0%float, Some e) /\
      kind_of e = Some MaximalIteration) /\
  Find default jump 0 1 tt =
  (0%float,
   Some (ErrorFind MaximalIteration (Errorf "Too many iterations: %d" [OInt 500]))).
Proof.
  split; [|vm_compute; reflexivity].
  intros St cfg f minX maxX e0 n v s Hh Hle e.
  assert (Hrun : run_Find cfg f minX maxX e0 = set_err (Some e) s).
  { apply (run_abort cfg f minX maxX e0 n v s _ Hh).
    apply iteration_capped. exact Hle. }
  split; [exact Hrun|]. split; [|reflexivity].
  unfold Find. rewrite Hrun. simpl.
  destruct (head_untouched cfg f minX maxX e0 n v s Hh) as [Hr _].
  rewrite Hr. reflexivity.
Qed.

Lemma cap_is_MaximalIteration_witness :
  head two_passes jump 0 1 tt 2 =
    Some ({| xLeft := 0.25; yLeft := -1; xRoot := 0.375; yRoot := 1;
             xRigth := 0.5; yRigth := 1 |},
          {| ev := tt;
             calls := [(0, Returns (-1) None); (0.5, Returns 1 None); (1, Returns 1 None);
                       (0.25, Returns (-1) None); (0.375, Returns 1 None)]%float;
             root := 0; err := None |}) /\
  (MaxIteration two_passes <= Z.of_nat 2)%Z /\
  Find two_passes jump 0 1 tt =
  (0%float,
   Some (ErrorFind MaximalIteration (Errorf "Too many iterations: %d" [OInt 2]))).
Proof.
  split; [vm_compute; reflexivity|].
  split; [vm_compute; discriminate|].
  refine (proj1 (proj2 (proj1 cap_is_MaximalIteration unit two_passes jump 0%float 1%float tt 2%nat
            {| xLeft := 0.25; yLeft := -1; xRoot := 0.375; yRoot := 1;
               xRigth := 0.5; yRigth := 1 |}
            {| ev := tt;
               calls := [(0, Returns (-1) None); (0.5, Returns 1 None); (1, Returns 1 None);
                         (0.25, Returns (-1) None); (0.375, Returns 1 None)]%float;
               root := 0; err := None |} _ _)));
    vm_compute; [reflexivity | discriminate].
Defined.

(** C8. In a pass of the loop, once the new midpoint [x] is computed and the
    evaluator has returned [y] there without an error, if [x] or [y] is NaN
    or infinite then [Find] returns at once, with no further evaluation,
    with an error of kind [NotValidValue]; for instance at the pole of
    [1/(x - 0.25)]. *)
Theorem corrupted_midpoint_is_NotValidValue :
  (forall (St : Type) (cfg : Config) (f : evaluator St) (minX maxX : float) (e0 : St)
          (n : nat) (v v1 : vars) (s : state St) (y : float) (e' : St),
      head cfg f minX maxX e0 n = Some (v, s) ->
      (Z.of_nat n < MaxIteration cfg)%Z ->
      converged (Precision cfg) v = false ->
      bracket v = Some v1 ->
      f (ev s) (middle (xLeft v1) (xRigth v1)) = (Returns y None, e') ->
      IsNaN (middle (xLeft v1) (xRigth v1)) || IsNaN y ||
      IsInf (middle (xLeft v1) (xRigth v1)) || IsInf y = true ->
      exists msg : string,
        not_valid (middle (xLeft v1) (xRigth v1)) y = Some msg /\
        run_Find cfg f minX maxX e0 =
        set_err (Some (ErrorFind NotValidValue (Errorf msg [])))
                (logged s (middle (xLeft v1) (xRigth v1)) (Returns y None) e') /\
        Find cfg f minX maxX e0 =
        (0%float, Some (ErrorFind NotValidValue (Errorf msg [])))) /\
  Find default pole 0 1 tt =
  (0%float, Some (ErrorFind NotValidValue (Errorf "yRoot is Inf" []))).
Proof.
  split; [|vm_compute; reflexivity].
  intros St cfg f minX maxX e0 n v v1 s y e' Hh Hlt Hc Hb Hf Hbad.
  destruct (not_valid (middle (xLeft v1) (xRigth v1)) y) as [msg|] eqn:Hnv.
  2:{ apply not_valid_none in Hnv. rewrite Hnv in Hbad. discriminate. }
  exists msg. split; [reflexivity|].
  assert (Hrun : run_Find cfg f minX maxX e0 =
                 set_err (Some (ErrorFind NotValidValue (Errorf msg [])))
                         (logged s (middle (xLeft v1) (xRigth v1)) (Returns y None) e')).
  { apply (run_abort cfg f minX maxX e0 n v s _ Hh).
    rewrite (iteration_searching cfg f _ v Hlt Hc). rewrite Hb.
    cbv zeta. unfold bind at 1.
    rewrite (call_returns f _ s y None e' Hf). rewrite Hnv. reflexivity. }
  split; [exact Hrun|].
  unfold Find. rewrite Hrun. simpl.
  destruct (head_untouched cfg f minX maxX e0 n v s Hh) as [Hr _].
  rewrite Hr. reflexivity.
Qed.

Lemma corrupted_midpoint_is_NotValidValue_witness :
  exists msg : string,
    not_valid (middle 0 0.5) infinity = Some msg /\
    run_Find default pole 0 1 tt =
    set_err (Some (ErrorFind NotValidValue (Errorf msg [])))
            (logged {| ev := tt;
                       calls := [(0, Returns (-4) None); (0.5, Returns 4 None);
                                 (1, Returns (1 / 0.75) None)]%float;
                       root := 0; err := None |}
                    (middle 0 0.5) (Returns infinity None) tt) /\
    Find default pole 0 1 tt =
    (0%float, Some (ErrorFind NotValidValue (Errorf msg []))).
Proof.
  refine (proj1 corrupted_midpoint_is_NotValidValue unit default pole 0%float 1%float tt 0%nat
            {| xLeft := 0; yLeft := -4; xRoot := 0.5; yRoot := 4;
               xRigth := 1; yRigth := 1 / 0.75 |}
            {| xLeft := 0; yLeft := -4; xRoot := 0.5; yRoot := 4;
               xRigth := 0.5; yRigth := 1 / 0.75 |}
            {| ev := tt;
               calls := [(0, Returns (-4) None); (0.5, Returns 4 None);
                         (1, Returns (1 / 0.75) None)]%float;
               root := 0; err := None |}
            infinity tt _ _ _ _ _ _);
    vm_compute; reflexivity.
Defined.

(** ** Failures of the evaluator *)

Section Failures.
Context {St : Type}.
Variable cfg : Config.
Variable f : evaluator St.

(** The three first evaluations, when none panics. *)
Lemma enter_three_calls (minX maxX : float) (s : state St)
      (yl ym yr : float) (el em er : option error) (e1 e2 e3 : St) :
  let a := fst (replace_borders minX maxX) in
  let b := snd (replace_borders minX maxX) in
  f (ev s) a = (Returns yl el, e1) ->
  f e1 (middle a b) = (Returns ym em, e2) ->
  f e2 b = (Returns yr er, e3) ->
  let s3 := logged (logged (logged s a (Returns yl el) e1)
                           (middle a b) (Returns ym em) e2)
                   b (Returns yr er) e3 in
  enter cfg f minX maxX s =
  (check_errors [el; er; em] ;;
   if (Abs yl <? Precision cfg)%float then confirm f a
   else if (Abs yr <? Precision cfg)%float then confirm f b
   else ret {| xLeft := a; yLeft := yl; xRoot := middle a b; yRoot := ym;
               xRigth := b; yRigth := yr |}) s3.
Proof.
  intros a b Ha Hm Hb s3. unfold enter. subst a b.
  destruct (replace_borders minX maxX) as [a b]. simpl fst in *. simpl snd in *.
  unfold bind at 1. rewrite (call_returns f a s yl el e1 Ha).
  unfold bind at 1.
  rewrite (call_returns f (middle a b) (logged s a (Returns yl el) e1) ym em e2 Hm).
  unfold bind at 1.
  rewrite (call_returns f b (logged (logged s a (Returns yl el) e1) (middle a b) (Returns ym em) e2)
             yr er e3 Hb).
  reflexivity.
Qed.

End Failures.

(** C10. A failure of the evaluator at one of the three first points comes
    back to the caller as the very error the evaluator returned, unwrapped,
    after exactly the three evaluations (left, middle, right), the errors
    being inspected in the order left, right, middle; a failure of the
    evaluator at a midpoint of the loop comes back wrapped in an
    [ErrorFind] of kind [InternalErr]. *)
Theorem evaluator_failure_native_then_wrapped :
  (forall (St : Type) (cfg : Config) (f : evaluator St) (minX maxX : float) (e0 : St)
          (yl ym yr : float) (el em er : option error) (e1 e2 e3 : St) (e : error),
      let a := fst (replace_borders minX maxX) in
      let b := snd (replace_borders minX maxX) in
      f e0 a = (Returns yl el, e1) ->
      f e1 (middle a b) = (Returns ym em, e2) ->
      f e2 b = (Returns yr er, e3) ->
      first_error [el; er; em] = Some e ->
      run_Find cfg f minX maxX e0 =
      {| ev := e3;
         calls := [(a, Returns yl el); (middle a b, Returns ym em); (b, Returns yr er)];
         root := 0%float;
         err := Some e |}) /\
  (forall (St : Type) (cfg : Config) (f : evaluator St) (minX maxX : float) (e0 : St)
          (n : nat) (v v1 : vars) (s : state St) (y : float) (e : error) (e' : St),
      head cfg f minX maxX e0 n = Some (v, s) ->
      (Z.of_nat n < MaxIteration cfg)%Z ->
      converged (Precision cfg) v = false ->
      bracket v = Some v1 ->
      f (ev s) (middle (xLeft v1) (xRigth v1)) = (Returns y (Some e), e') ->
      run_Find cfg f minX maxX e0 =
      set_err (Some (ErrorFind InternalErr e))
              (logged s (middle (xLeft v1) (xRigth v1)) (Returns y (Some e)) e') /\
      Find cfg f minX maxX e0 = (0%float, Some (ErrorFind InternalErr e))).
Proof.
  split.
  - intros St cfg f minX maxX e0 yl ym yr el em er e1 e2 e3 e a b Ha Hm Hb He.
    unfold run_Find, body. unfold bind at 1.
    rewrite (enter_three_calls cfg f minX maxX (initial e0) yl ym yr el em er e1 e2 e3 Ha Hm Hb).
    fold a b. unfold bind at 1. rewrite check_errors_eq, He. reflexivity.
  - intros St cfg f minX maxX e0 n v v1 s y e e' Hh Hlt Hc Hb Hf.
    assert (Hrun : run_Find cfg f minX maxX e0 =
                   set_err (Some (ErrorFind InternalErr e))
                           (logged s (middle (xLeft v1) (xRigth v1)) (Returns y (Some e)) e')).
    { apply (run_abort cfg f minX maxX e0 n v s _ Hh).
      rewrite (iteration_searching cfg f _ v Hlt Hc). rewrite Hb.
      cbv zeta. unfold bind at 1.
      rewrite (call_returns f _ s y (Some e) e' Hf). reflexivity. }
    split; [exact Hrun|].
    unfold Find. rewrite Hrun. simpl.
    destruct (head_untouched cfg f minX maxX e0 n v s Hh) as [Hr _].
    rewrite Hr. reflexivity.
Qed.

Lemma evaluator_failure_native_then_wrapped_witness :
  run_Find default fails_rigth 0 1 tt =
  {| ev := tt;
     calls := [(0, Returns 5 None); (0.5, Returns 6 None);
               (1, Returns (-1) (Some (Errorf "rigth checking" [])))]%float;
     root := 0%float;
     err := Some (Errorf "rigth checking" []) |} /\
  Find default fails_inside 0 1 tt =
  (0%float, Some (ErrorFind InternalErr (Errorf "stop" []))).
Proof.
  split.
  - refine (proj1 evaluator_failure_native_then_wrapped unit default fails_rigth
              0%float 1%float tt 5%float 6%float (-1)%float
              None None (Some (Errorf "rigth checking" [])) tt tt tt
              (Errorf "rigth checking" []) _ _ _ _);
      vm_compute; reflexivity.
  - refine (proj2 (proj2 evaluator_failure_native_then_wrapped unit default fails_inside
              0%float 1%float tt 1%nat
              {| xLeft := 0; yLeft := -0.375; xRoot := 0.25; yRoot := -0.125;
                 xRigth := 0.5; yRigth := 0.625 |}
              {| xLeft := 0.25; yLeft := -0.125; xRoot := 0.25; yRoot := -0.125;
                 xRigth := 0.5; yRigth := 0.625 |}
              {| ev := tt;
                 calls := [(0, Returns (-0.375) None); (0.5, Returns 0.125 None);
                           (1, Returns 0.625 None); (0.25, Returns (-0.125) None)]%float;
                 root := 0; err := None |}
              0%float (Errorf "stop" []) tt _ _ _ _ _));
      vm_compute; reflexivity.
Defined.

(** ** Panics of the evaluator *)

Section Panics.
Context {St : Type}.
Variable cfg : Config.
Variable f : evaluator St.

Lemma quiet_app (l : list (float * reply)) (x : float) (y : float) (e : option error) :
  quiet l -> quiet (l ++ [(x, Returns y e)]).
Proof.
  intros Hq x0 r Hin. apply in_app_or in Hin. destruct Hin as [Hin|Hin].
  - exact (Hq x0 r Hin).
  - simpl in Hin. destruct Hin as [Hin|[]]. discriminate.
Qed.

Ltac quiet_goal :=
  unfold set_err, set_root, logged; simpl;
  match goal with
  | |- True => exact I
  | |- quiet _ => repeat apply quiet_app; assumption
  | |- exists l x0, ?c ++ [(?x, Panics ?r)] = l ++ [(x0, Panics ?r)] /\ quiet l =>
      exists c, x; split; [reflexivity | repeat apply quiet_app; assumption]
  end.

Lemma enter_panic_last (minX maxX : float) (s : state St) :
  quiet (calls s) ->
  outcome (fun _ s' => quiet (calls s')) panic_last (enter cfg f minX maxX s).
Proof.
  intros Hs. unfold enter. destruct (replace_borders minX maxX) as [a b].
  steps; unfold panic_last; quiet_goal.
Qed.

Lemma iteration_panic_last (iter : Z) (v : vars) (s : state St) :
  quiet (calls s) ->
  outcome (fun _ s' => quiet (calls s')) panic_last (iteration cfg f iter v s).
Proof.
  intros Hs. unfold iteration.
  steps; unfold panic_last; quiet_goal.
Qed.

Lemma confirm_panic_last (x : float) (s : state St) :
  quiet (calls s) ->
  outcome (fun (_ : unit) s' => quiet (calls s')) panic_last (confirm f x s).
Proof.
  intros Hs. steps; unfold panic_last; quiet_goal.
Qed.

Lemma loop_panic_last (fuel : nat) :
  forall (iter : Z) (v : vars) (s : state St),
    quiet (calls s) ->
    outcome (fun _ s' => quiet (calls s')) panic_last (loop cfg f fuel iter v s).
Proof.
  induction fuel as [|fuel IH]; intros iter v s Hs; rewrite loop_unfold;
    apply outcome_bind;
    (eapply outcome_weaken; [apply iteration_panic_last; exact Hs | | auto]);
    intros [v'|] s' Hs'; simpl; auto.
Qed.

Lemma body_panic_last (minX maxX : float) (s : state St) :
  quiet (calls s) ->
  outcome (fun _ s' => quiet (calls s')) panic_last (body cfg f minX maxX s).
Proof.
  intros Hs. unfold body. apply outcome_bind.
  eapply outcome_weaken; [apply enter_panic_last; exact Hs | | auto].
  intros v0 s0 Hs0. apply outcome_bind.
  eapply outcome_weaken; [apply loop_panic_last; exact Hs0 | | auto].
  intros v1 s1 Hs1. apply confirm_panic_last. exact Hs1.
Qed.

End Panics.

(** C3. A panic of the evaluator never leaves [Find]: whenever one of the
    evaluations made by a call of [Find] panics, the call returns to its
    caller, and with an error of kind [Recovery] that carries the value of
    the panic. *)
Theorem panic_is_recovered :
  forall (St : Type) (cfg : Config) (f : evaluator St) (minX maxX : float) (e0 : St)
         (x : float) (r : string),
    In (x, Panics r) (calls (run_Find cfg f minX maxX e0)) ->
    err (run_Find cfg f minX maxX e0) =
      Some (ErrorFind Recovery (Errorf "%#v" [OValue r])) /\
    exists root : float,
      Find cfg f minX maxX e0 = (root, Some (ErrorFind Recovery (Errorf "%#v" [OValue r]))).
Proof.
  intros St cfg f minX maxX e0 x r Hin.
  assert (Hq : quiet (calls (initial e0))) by (intros x0 r0 []).
  pose proof (body_panic_last cfg f minX maxX (initial e0) Hq) as Hout.
  unfold Find, run_Find in *.
  destruct (body cfg f minX maxX (initial e0)) as [[[]| |r'|] s']; simpl in *;
    try (exfalso; exact (Hout x r Hin)).
  destruct Hout as (l & x0 & Hl & Hql).
  rewrite Hl in Hin. apply in_app_or in Hin. destruct Hin as [Hin|Hin].
  - exfalso. exact (Hql x r Hin).
  - simpl in Hin. destruct Hin as [Hin|[]]. inversion Hin; subst.
    split; [reflexivity|]. eexists. reflexivity.
Qed.

Lemma panic_is_recovered_witness :
  In (0%float, Panics "PANIC") (calls (run_Find default panicking 0 1 tt)) /\
  err (run_Find default panicking 0 1 tt) =
    Some (ErrorFind Recovery (Errorf "%#v" [OValue "PANIC"])).
Proof.
  split; [vm_compute; left; reflexivity|].
  refine (proj1 (panic_is_recovered unit default panicking 0%float 1%float tt
                   0%float "PANIC" _)).
  vm_compute. left. reflexivity.
Defined.

(** ** Number of evaluations, and termination of the loop *)

Section Work.
Context {St : Type}.
Variable cfg : Config.
Variable f : evaluator St.

Ltac count_goal :=
  unfold within, set_err, set_root, logged in *; cbn [calls] in *;
  repeat rewrite length_app in *; cbn [List.length] in *; try lia.

Lemma enter_within (minX maxX : float) (s : state St) :
  outcome (fun _ s' => within 3 s s') (fun _ s' => within 4 s s')
          (enter cfg f minX maxX s).
Proof.
  unfold enter. destruct (replace_borders minX maxX) as [a b].
  steps; count_goal.
Qed.

Lemma iteration_within (iter : Z) (v : vars) (s : state St) :
  outcome (fun _ s' => within 1 s s') (fun _ s' => within 1 s s')
          (iteration cfg f iter v s).
Proof.
  unfold iteration. steps; count_goal.
Qed.

Lemma confirm_within (x : float) (s : state St) :
  outcome (fun (_ : unit) s' => within 1 s s') (fun _ s' => within 1 s s')
          (confirm f x s).
Proof.
  steps; count_goal.
Qed.

(** From the head of pass [iter] on, the loop evaluates at most
    [MaxIteration - iter] times. *)
Lemma loop_within (fuel : nat) :
  forall (iter : Z) (v : vars) (s : state St),
    outcome (fun _ s' => within (Z.max 0 (MaxIteration cfg - iter)) s s')
            (fun _ s' => within (Z.max 0 (MaxIteration cfg - iter)) s s')
            (loop cfg f fuel iter v s).
Proof.
  induction fuel as [|fuel IH]; intros iter v s; rewrite loop_unfold;
    apply outcome_bind;
    (destruct (Z.leb_spec (MaxIteration cfg) iter) as [Hle|Hlt];
     [ rewrite (iteration_capped cfg f iter v s Hle); simpl; count_goal
     | eapply outcome_weaken; [apply iteration_within | | ] ]).
  - intros [v'|] s' Hs'; simpl; count_goal.
  - intros x s' Hs'. count_goal.
  - intros [v'|] s' Hs'; simpl.
    + eapply outcome_weaken; [apply (IH (iter + 1)%Z v' s') | | ];
        intros; count_goal.
    + count_goal.
  - intros x s' Hs'. count_goal.
Qed.

Lemma body_within (minX maxX : float) (s : state St) :
  (0 <= MaxIteration cfg)%Z ->
  outcome (fun _ s' => within (3 + MaxIteration cfg + 1) s s')
          (fun _ s' => within (3 + MaxIteration cfg + 1) s s')
          (body cfg f minX maxX s).
Proof.
  intros Hmax. unfold body. apply outcome_bind.
  eapply outcome_weaken; [apply enter_within | | intros x s' H; count_goal].
  intros v0 s0 H0. apply outcome_bind.
  eapply outcome_weaken;
    [apply (loop_within (Z.to_nat (MaxIteration cfg)) 0 v0 s0) | | intros x s' H; count_goal].
  intros v1 s1 H1.
  eapply outcome_weaken; [apply (confirm_within (xRoot v1) s1) | | ];
    intros; count_goal.
Qed.

(** The fuel given to the loop is never used up. *)
Lemma iteration_no_fuel (iter : Z) (v : vars) (s : state St) :
  outcome (fun _ _ => True) (fun x _ => x <> ByFuel) (iteration cfg f iter v s).
Proof.
  unfold iteration. steps; simpl; congruence || exact I.
Qed.

Lemma enter_no_fuel (minX maxX : float) (s : state St) :
  outcome (fun _ _ => True) (fun x _ => x <> ByFuel) (enter cfg f minX maxX s).
Proof.
  unfold enter. destruct (replace_borders minX maxX) as [a b].
  steps; simpl; congruence || exact I.
Qed.

Lemma loop_no_fuel (fuel : nat) :
  forall (iter : Z) (v : vars) (s : state St),
    (MaxIteration cfg - iter <= Z.of_nat fuel)%Z ->
    outcome (fun _ _ => True) (fun x _ => x <> ByFuel) (loop cfg f fuel iter v s).
Proof.
  induction fuel as [|fuel IH]; intros iter v s Hfuel; rewrite loop_unfold;
    apply outcome_bind;
    (destruct (Z.leb_spec (MaxIteration cfg) iter) as [Hle|Hlt];
     [ rewrite (iteration_capped cfg f iter v s Hle); simpl; congruence
     | eapply outcome_weaken; [apply iteration_no_fuel | | auto] ]).
  - lia.
  - intros [v'|] s' _; simpl; [|exact I]. apply IH. lia.
Qed.

(** [Find] always returns: its body ends by [return] or by a panic, which
    the deferred function recovers. *)
Lemma body_terminates (minX maxX : float) (s : state St) :
  exists s', body cfg f minX maxX s = (Return, s') \/
             exists r, body cfg f minX maxX s = (Panicking r, s').
Proof.
  assert (H : outcome (fun _ _ => False) (fun x _ => x <> ByFuel) (body cfg f minX maxX s)).
  { unfold body. apply outcome_bind.
    eapply outcome_weaken; [apply enter_no_fuel | | auto].
    intros v0 s0 _. apply outcome_bind.
    eapply outcome_weaken;
      [apply (loop_no_fuel (Z.to_nat (MaxIteration cfg)) 0 v0 s0); lia | | auto].
    intros v1 s1 _. steps; simpl; congruence. }
  destruct (body cfg f minX maxX s) as [[[]| |r|] s']; simpl in H.
  - contradiction.
  - exists s'. left. reflexivity.
  - exists s'. right. exists r. reflexivity.
  - congruence.
Qed.

End Work.

(** C5. One call of [Find] evaluates [f] at most [3 + MaxIteration + 1]
    times ([MaxIteration] being a count, that is not negative): three first
    evaluations, at most one in each pass of the loop, and the last
    evaluation at the root. *)
Theorem evaluations_bounded :
  forall (St : Type) (cfg : Config) (f : evaluator St) (minX maxX : float) (e0 : St),
    (0 <= MaxIteration cfg)%Z ->
    (Z.of_nat (List.length (calls (run_Find cfg f minX maxX e0)))
     <= 3 + MaxIteration cfg + 1)%Z.
Proof.
  intros St cfg f minX maxX e0 Hmax.
  pose proof (body_within cfg f minX maxX (initial e0) Hmax) as H.
  unfold run_Find.
  destruct (body cfg f minX maxX (initial e0)) as [[[]| |r|] s']; simpl in *;
    unfold within in H; simpl in H; exact H.
Qed.

Lemma evaluations_bounded_witness :
  (0 <= MaxIteration default)%Z /\
  (Z.of_nat (List.length (calls (run_Find default jump 0 1 tt)))
   <= 3 + MaxIteration default + 1)%Z.
Proof.
  split; [vm_compute; discriminate|].
  apply (evaluations_bounded unit default jump 0%float 1%float tt).
  vm_compute. discriminate.
Defined.

(** ** Order of the floats *)

Lemma SFcompare_swap (x y : spec_float) :
  SFcompare y x = option_map CompOpp (SFcompare x y).
Proof.
  destruct x as [sx|sx| |sx mx ex], y as [sy|sy| |sy my ey]; simpl;
    try destruct sx; try destruct sy; try reflexivity;
    rewrite (Z.compare_antisym ex ey); destruct (ex ?= ey)%Z; simpl; try reflexivity;
    rewrite (Pos.compare_cont_antisym mx my Eq); reflexivity.
Qed.

Lemma ltb_asym (x y : float) :
  (x <? y)%float = true -> (y <? x)%float = false.
Proof.
  rewrite !ltb_spec. unfold SFltb. rewrite (SFcompare_swap (Prim2SF x) (Prim2SF y)).
  destruct (SFcompare (Prim2SF x) (Prim2SF y)) as [[| |]|]; simpl; congruence.
Qed.

Lemma replace_borders_sym (a b : float) :
  (a <? b)%float = true \/ (b <? a)%float = true \/ a = b ->
  replace_borders a b = replace_borders b a.
Proof.
  unfold replace_borders. intros [H|[H|H]].
  - rewrite H, (ltb_asym a b H). reflexivity.
  - rewrite H, (ltb_asym b a H). reflexivity.
  - subst. reflexivity.
Qed.

(** C4, as the code has it. [Find(f, a, b)] and [Find(f, b, a)] are the same
    call (same root, same error, same evaluations) whenever the two bounds are
    comparable by [<] or are the same value: the swap then brings both calls to
    the same pair.  A NaN bound, or two zeros of opposite signs, are not
    swapped. *)
Theorem order_independent_when_comparable :
  forall (St : Type) (cfg : Config) (f : evaluator St) (a b : float) (e0 : St),
    (a <? b)%float = true \/ (b <? a)%float = true \/ a = b ->
    run_Find cfg f a b e0 = run_Find cfg f b a e0 /\
    Find cfg f a b e0 = Find cfg f b a e0.
Proof.
  intros St cfg f a b e0 H.
  assert (Hrun : run_Find cfg f a b e0 = run_Find cfg f b a e0).
  { unfold run_Find, body, enter. rewrite (replace_borders_sym a b H). reflexivity. }
  split; [exact Hrun|]. unfold Find. rewrite Hrun. reflexivity.
Qed.

Lemma order_independent_when_comparable_witness :
  ((-10) <? 10)%float = true /\
  Find default (pure (fun x => Returns (2 * x + 1)%float None)) 10 (-10) tt =
  Find default (pure (fun x => Returns (2 * x + 1)%float None)) (-10) 10 tt.
Proof.
  split; [vm_compute; reflexivity|].
  refine (proj2 (order_independent_when_comparable unit default
                   (pure (fun x => Returns (2 * x + 1)%float None))
                   10%float (-10)%float tt _)).
  right. left. vm_compute. reflexivity.
Defined.

(** C4 does not hold for all bounds: with a NaN bound the two orders give
    two different roots, both without error; with the two zeros the two
    orders report two different failures of the evaluator. *)
Lemma order_matters_for_nan :
  Find default flat nan 1 tt = (nan, None) /\
  Find default flat 1 nan tt = (1%float, None) /\
  (nan =? 1)%float = false /\
  Find default zero_sign 0 (-0) tt = (0%float, Some (Errorf "positive" [])) /\
  Find default zero_sign (-0) 0 tt = (0%float, Some (Errorf "negative" [])).
Proof.
  repeat split; vm_compute; reflexivity.
Qed.

(** ** The samples and the values of the evaluator *)

(** C2, on the code.  The source discards the right half with
    [xRigth, yRigth = xRoot, yRigth]: the abscissa moves to the midpoint and
    the ordinate stays.  For [x - 0.3125] over [[0, 1]] the second pass starts
    with [xRigth = 0.5] and [yRigth = 0.6875], the value at [1], while the
    evaluator gives [0.1875] at [0.5].  For the parabola with roots [0.3125]
    and [0.8125] the stale sign makes the second pass report that no root is
    bracketed although the values at [xRoot = 0.25] and at [xRigth = 0.5] have
    opposite signs. *)
Theorem right_sample_is_stale :
  head default shifted 0 1 tt 1 =
    Some ({| xLeft := 0; yLeft := -0.3125; xRoot := 0.25; yRoot := -0.0625;
             xRigth := 0.5; yRigth := 0.6875 |},
          {| ev := tt;
             calls := [(0, Returns (-0.3125) None); (0.5, Returns 0.1875 None);
                       (1, Returns 0.6875 None); (0.25, Returns (-0.0625) None)]%float;
             root := 0; err := None |}) /\
  shifted tt 0.5%float = (Returns 0.1875 None, tt) /\
  shifted tt 1%float = (Returns 0.6875 None, tt) /\
  (0.6875 =? 0.1875)%float = false /\
  Find default parabola 0 1 tt =
    (0%float,
     Some (ErrorFind InternalErr
             (Errorf "No root: [%.3e, %.3e, %.3e]"
                [OFloat 0.25390625; OFloat 0.03515625; OFloat 0.12890625]))) /\
  parabola tt 0.25%float = (Returns 0.03515625 None, tt) /\
  parabola tt 0.5%float = (Returns (-0.05859375) None, tt).
Proof.
  repeat split; vm_compute; reflexivity.
Qed.

Lemma first_error_three (a b c : option error) :
  first_error [a; b; c] = None -> a = None /\ b = None /\ c = None.
Proof.
  destruct a, b, c; simpl; intros H; try discriminate; auto.
Qed.

Section Precise.
Variable cfg : Config.
Variable g : float -> reply.

Ltac pure_calls :=
  unfold pure, set_err, set_root, logged in *; cbn [ev calls root err] in *;
  repeat match goal with
         | H : (_, _) = (_, _) |- _ => inversion H; clear H
         | H : first_error [_; _; _] = None |- _ =>
             apply first_error_three in H; destruct H as (? & ? & ?)
         end;
  subst.

Lemma enter_precise (minX maxX : float) (s : state unit) :
  outcome (fun v _ => sampled g v) (success cfg g) (enter cfg (pure g) minX maxX s).
Proof.
  unfold enter. destruct (replace_borders minX maxX) as [a b].
  steps; unfold success, sampled, precise; pure_calls; cbn [xRoot yRoot];
    try congruence; intros _ He; subst.
  - exists y. split; congruence.
  - exists y1. split; congruence.
Qed.

Lemma iteration_precise (iter : Z) (v : vars) (s : state unit) :
  sampled g v ->
  outcome (fun c _ => match c with
                      | Continue v' => sampled g v'
                      | Break => converged (Precision cfg) v = true
                      end)
          (fun x s' => x = ByReturn -> err s' <> None)
          (iteration cfg (pure g) iter v s).
Proof.
  intros Hv. unfold iteration.
  steps; unfold sampled; pure_calls; cbn [xRoot yRoot]; try congruence.
Qed.

Lemma loop_precise (fuel : nat) :
  forall (iter : Z) (v : vars) (s : state unit),
    sampled g v ->
    outcome (fun v' _ => sampled g v' /\ converged (Precision cfg) v' = true)
            (fun x s' => x = ByReturn -> err s' <> None)
            (loop cfg (pure g) fuel iter v s).
Proof.
  induction fuel as [|fuel IH]; intros iter v s Hv; rewrite loop_unfold;
    apply outcome_bind;
    (eapply outcome_weaken; [apply iteration_precise; exact Hv | | auto]);
    intros [v'|] s' H; simpl; auto; congruence.
Qed.

Lemma converged_small (v : vars) :
  converged (Precision cfg) v = true -> (Abs (yRoot v) <? Precision cfg)%float = true.
Proof.
  unfold converged.
  destruct (xLeft v =? 0)%float; intros H; apply andb_true_iff in H; tauto.
Qed.

Lemma body_precise (minX maxX : float) (s : state unit) :
  outcome (fun _ _ => True) (success cfg g) (body cfg (pure g) minX maxX s).
Proof.
  unfold body. apply outcome_bind.
  eapply outcome_weaken; [apply enter_precise | | auto].
  intros v0 s0 H0. apply outcome_bind.
  eapply outcome_weaken; [apply loop_precise; exact H0 | | ].
  2:{ intros x s1 H Hx He. exfalso. exact (H Hx He). }
  intros v1 s1 [H1 Hc].
  steps; unfold success, precise; pure_calls; try congruence.
  intros _ _. exists (yRoot v1). split.
  - unfold sampled in H1. congruence.
  - apply converged_small in Hc. unfold sampled in H1. congruence.
Qed.

(** The part of C2 that the code keeps: at the start of every pass the left
    and the midpoint samples pair an abscissa with the value of the
    evaluator there. *)
Lemma enter_left_root (minX maxX : float) (s : state unit) :
  outcome (fun v _ => left_root_sampled g v) (fun _ _ => True)
          (enter cfg (pure g) minX maxX s).
Proof.
  unfold enter. destruct (replace_borders minX maxX) as [a b].
  steps; unfold left_root_sampled; pure_calls; cbn [xLeft yLeft xRoot yRoot]; auto.
Qed.

Lemma bracket_left (v v1 : vars) :
  bracket v = Some v1 ->
  (xLeft v1 = xLeft v /\ yLeft v1 = yLeft v) \/
  (xLeft v1 = xRoot v /\ yLeft v1 = yRoot v).
Proof.
  unfold bracket.
  destruct (negb (Bool.eqb (Signbit (yLeft v)) (Signbit (yRoot v))));
    [|destruct (negb (Bool.eqb (Signbit (yRoot v)) (Signbit (yRigth v))))];
    intros H; inversion H; subst; cbn [xLeft yLeft]; auto.
Qed.

Lemma iteration_left_root (iter : Z) (v : vars) (s : state unit) :
  left_root_sampled g v ->
  outcome (fun c _ => match c with
                      | Continue v' => left_root_sampled g v'
                      | Break => True
                      end)
          (fun _ _ => True) (iteration cfg (pure g) iter v s).
Proof.
  intros [Hl Hr]. unfold iteration.
  steps; unfold left_root_sampled; pure_calls; cbn [xLeft yLeft xRoot yRoot]; auto.
  match goal with
  | Hb : bracket v = Some ?v1 |- _ =>
      destruct (bracket_left v v1 Hb) as [[E1 E2]|[E1 E2]];
      rewrite E2; rewrite E1 in *; auto
  end.
Qed.

Lemma head_left_root (minX maxX : float) (n : nat) (v : vars) (s : state unit) :
  head cfg (pure g) minX maxX tt n = Some (v, s) -> left_root_sampled g v.
Proof.
  revert v s. induction n as [|n IH]; intros v s H; simpl in H.
  - pose proof (enter_left_root minX maxX (initial tt)) as Hout.
    destruct (enter cfg (pure g) minX maxX (initial tt)) as [[v0| |r|] s0]; try discriminate.
    inversion H; subst. exact Hout.
  - destruct (head cfg (pure g) minX maxX tt n) as [[v0 s0]|]; [|discriminate].
    pose proof (iteration_left_root (Z.of_nat n) v0 s0 (IH _ _ eq_refl)) as Hout.
    destruct (iteration cfg (pure g) (Z.of_nat n) v0 s0) as [[[v1|]| |r|] s1];
      try discriminate.
    inversion H; subst. exact Hout.
Qed.

(** The precision half of the contract, for every stateless evaluator. *)
Lemma Find_precise (minX maxX r : float) :
  Find cfg (pure g) minX maxX tt = (r, None) -> precise cfg g r.
Proof.
  unfold Find, run_Find. intros H.
  pose proof (body_precise minX maxX (initial tt)) as Hout.
  destruct (body_terminates cfg (pure g) minX maxX (initial tt)) as (s' & [Hb|[v Hb]]);
    rewrite Hb in *; simpl in *; inversion H; subst.
  apply Hout; auto.
Qed.

End Precise.

(** * Binary64 arithmetic of the midpoint *)

Local Open Scope Z_scope.

Lemma pow2_pos (k : Z) : 0 <= k -> 0 < 2 ^ k.
Proof. intros. apply Z.pow_pos_nonneg; lia. Qed.

Lemma pow2_succ (k : Z) : 0 <= k -> 2 ^ (k + 1) = 2 * 2 ^ k.
Proof. intros. rewrite Z.pow_add_r by lia. lia. Qed.

Lemma pow2_le (j k : Z) : 0 <= j <= k -> 2 ^ j <= 2 ^ k.
Proof. intros. apply Z.pow_le_mono_r; lia. Qed.

Lemma huge_pos : 0 < huge.
Proof. unfold huge. apply pow2_pos. lia. Qed.

Lemma huge_53 : huge = 2 ^ 53 * 2 ^ 2045.
Proof. unfold huge. rewrite <- Z.pow_add_r by lia. reflexivity. Qed.

Lemma huge_52 : huge = 2 ^ 52 * 2 ^ 2046.
Proof. unfold huge. rewrite <- Z.pow_add_r by lia. reflexivity. Qed.

Lemma digits2_bounds (p : positive) :
  2 ^ (Zpos (digits2_pos p) - 1) <= Zpos p < 2 ^ Zpos (digits2_pos p).
Proof.
  induction p as [p IH|p IH|]; cbn [digits2_pos].
  - change (PosDef.Pos.succ (digits2_pos p)) with (Pos.succ (digits2_pos p)).
    rewrite Pos2Z.inj_succ, Pos2Z.inj_xI.
    replace (Z.succ (Zpos (digits2_pos p)) - 1) with ((Zpos (digits2_pos p) - 1) + 1) by lia.
    unfold Z.succ. rewrite !pow2_succ by lia. lia.
  - change (PosDef.Pos.succ (digits2_pos p)) with (Pos.succ (digits2_pos p)).
    rewrite Pos2Z.inj_succ, Pos2Z.inj_xO.
    replace (Z.succ (Zpos (digits2_pos p)) - 1) with ((Zpos (digits2_pos p) - 1) + 1) by lia.
    unfold Z.succ. rewrite !pow2_succ by lia. lia.
  - simpl. lia.
Qed.

(** The number of digits is determined by the two powers around. *)
Lemma digits2_unique (p : positive) (d : Z) :
  2 ^ (d - 1) <= Zpos p < 2 ^ d -> 0 < d -> Zpos (digits2_pos p) = d.
Proof.
  intros [H1 H2] Hd. pose proof (digits2_bounds p) as [H3 H4].
  destruct (Z.lt_trichotomy (Zpos (digits2_pos p)) d) as [Hlt|[Heq|Hgt]]; [|assumption|].
  - assert (2 ^ Zpos (digits2_pos p) <= 2 ^ (d - 1)) by (apply pow2_le; lia). lia.
  - assert (2 ^ d <= 2 ^ (Zpos (digits2_pos p) - 1)) by (apply pow2_le; lia). lia.
Qed.

Lemma iter_pos_nat (A : Type) (f : A -> A) (p : positive) (x : A) :
  iter_pos f p x = Nat.iter (Pos.to_nat p) f x.
Proof.
  revert x. induction p as [p IH|p IH|]; intros x; cbn [iter_pos].
  - rewrite !IH. rewrite Pos2Nat.inj_xI.
    replace (S (2 * Pos.to_nat p))%nat with (Pos.to_nat p + (Pos.to_nat p + 1))%nat by lia.
    rewrite !Nat.iter_add. reflexivity.
  - rewrite !IH. rewrite Pos2Nat.inj_xO.
    replace (2 * Pos.to_nat p)%nat with (Pos.to_nat p + Pos.to_nat p)%nat by lia.
    rewrite Nat.iter_add. reflexivity.
  - reflexivity.
Qed.

Lemma shr_1_nonneg (m : Z) (r s : bool) :
  0 <= m ->
  shr_1 {| shr_m := m; shr_r := r; shr_s := s |} =
  {| shr_m := m / 2; shr_r := Z.odd m; shr_s := r || s |}.
Proof.
  intros Hm. rewrite <- Z.div2_div.
  destruct m as [|[p|p|]|p]; try reflexivity. lia.
Qed.

(** [k] shifts to the right: the quotient, and no flag when nothing is lost. *)
Lemma shr_iter (k : nat) (m : Z) :
  0 <= m ->
  let rec := Nat.iter k shr_1 {| shr_m := m; shr_r := false; shr_s := false |} in
  shr_m rec = m / 2 ^ Z.of_nat k /\
  (m mod 2 ^ Z.of_nat k = 0 -> shr_r rec = false /\ shr_s rec = false).
Proof.
  intros Hm. induction k as [|k IH].
  - simpl. rewrite Z.div_1_r. auto.
  - cbn zeta in *. rewrite Nat.iter_succ.
    destruct (Nat.iter k shr_1 {| shr_m := m; shr_r := false; shr_s := false |})
      as [mk rk sk] eqn:Hrec.
    cbn [shr_m shr_r shr_s] in IH. destruct IH as [IHm IHe].
    assert (Hp : 0 < 2 ^ Z.of_nat k) by (apply pow2_pos; lia).
    assert (Hmk : 0 <= mk) by (subst mk; apply Z.div_pos; lia).
    rewrite (shr_1_nonneg mk rk sk Hmk). cbn [shr_m shr_r shr_s].
    replace (Z.of_nat (S k)) with (Z.of_nat k + 1) by lia.
    rewrite pow2_succ by lia.
    split.
    + subst mk. rewrite Z.div_div by lia. f_equal. lia.
    + intros Hmod.
      assert (Hdiv : (2 * 2 ^ Z.of_nat k | m)) by (apply Z.mod_divide; lia).
      destruct Hdiv as [q Hq].
      assert (Hmod' : m mod 2 ^ Z.of_nat k = 0).
      { apply Z.mod_divide; [lia|]. exists (q * 2). lia. }
      destruct (IHe Hmod') as [-> ->]. split; [|reflexivity].
      subst mk. replace m with ((q * 2) * 2 ^ Z.of_nat k) by lia.
      rewrite Z.div_mul by lia. rewrite Z.odd_mul. simpl. apply andb_false_r.
Qed.

Lemma iter_xO_value (m d : positive) :
  Zpos (Pos.iter xO m d) = Zpos m * 2 ^ Zpos d.
Proof.
  change (Pos.iter xO m d) with (shift_pos d m).
  rewrite shift_pos_correct. rewrite Z.mul_comm. reflexivity.
Qed.

(** ** Rounding on integers: values are counted in units of [2^-1074] *)

Lemma Zdigits2_bounds (z : Z) :
  0 < z -> 2 ^ (Zdigits2 z - 1) <= z < 2 ^ Zdigits2 z.
Proof.
  destruct z as [|p|p]; try lia. intros _. apply digits2_bounds.
Qed.

Lemma Zdigits2_pos (z : Z) : 0 < z -> 0 < Zdigits2 z.
Proof. destruct z; simpl; lia. Qed.

Lemma Zdigits2_mono (x y : Z) : 0 < x <= y -> Zdigits2 x <= Zdigits2 y.
Proof.
  intros [Hx Hxy].
  pose proof (Zdigits2_bounds x Hx) as [Hx1 Hx2].
  pose proof (Zdigits2_bounds y ltac:(lia)) as [Hy1 Hy2].
  pose proof (Zdigits2_pos x Hx). pose proof (Zdigits2_pos y ltac:(lia)).
  destruct (Z.le_gt_cases (Zdigits2 x) (Zdigits2 y)) as [|Hgt]; [assumption|].
  assert (2 ^ Zdigits2 y <= 2 ^ (Zdigits2 x - 1)) by (apply pow2_le; lia). lia.
Qed.

Lemma cexp_nonneg (z : Z) : 0 <= cexp z.
Proof. unfold cexp. lia. Qed.

Lemma cexp_lt_digits (z : Z) : 0 < z -> cexp z <= Zdigits2 z - 1.
Proof. intros Hz. pose proof (Zdigits2_pos z Hz). unfold cexp. lia. Qed.

Lemma round_down_le (z : Z) : 0 <= z -> 0 <= round_down z <= z.
Proof.
  intros Hz. unfold round_down.
  assert (Hp : 0 < 2 ^ cexp z) by (apply pow2_pos, cexp_nonneg).
  pose proof (Z.mul_div_le z (2 ^ cexp z) Hp).
  pose proof (Z.div_pos z (2 ^ cexp z) Hz Hp). nia.
Qed.

(** The leading power of two is below the rounding down. *)
Lemma round_down_leading (z : Z) : 0 < z -> 2 ^ (Zdigits2 z - 1) <= round_down z.
Proof.
  intros Hz. unfold round_down.
  pose proof (cexp_nonneg z). pose proof (cexp_lt_digits z Hz).
  pose proof (Zdigits2_bounds z Hz) as [Hlo _].
  assert (Hp : 0 < 2 ^ cexp z) by (apply pow2_pos; lia).
  assert (Hsplit : 2 ^ (Zdigits2 z - 1) = 2 ^ (Zdigits2 z - 1 - cexp z) * 2 ^ cexp z).
  { rewrite <- Z.pow_add_r by lia. f_equal. lia. }
  assert (2 ^ (Zdigits2 z - 1 - cexp z) <= z / 2 ^ cexp z).
  { apply Z.div_le_lower_bound; lia. }
  nia.
Qed.

(** The rounding up stays below the next power of two. *)
Lemma round_up_next (z : Z) : 0 < z -> round_down z + 2 ^ cexp z <= 2 ^ Zdigits2 z.
Proof.
  intros Hz. unfold round_down.
  pose proof (cexp_nonneg z). pose proof (cexp_lt_digits z Hz).
  pose proof (Zdigits2_bounds z Hz) as [_ Hhi].
  assert (Hp : 0 < 2 ^ cexp z) by (apply pow2_pos; lia).
  assert (Hsplit : 2 ^ Zdigits2 z = 2 ^ (Zdigits2 z - cexp z) * 2 ^ cexp z).
  { rewrite <- Z.pow_add_r by lia. f_equal. lia. }
  assert (z / 2 ^ cexp z < 2 ^ (Zdigits2 z - cexp z)).
  { apply Z.div_lt_upper_bound; lia. }
  nia.
Qed.

Lemma representable_multiple (x : Z) :
  0 <= x -> representable x -> exists q, x = q * 2 ^ cexp x.
Proof.
  intros Hx Hr. unfold representable in Hr. rewrite Z.abs_eq in Hr by lia.
  assert (Hp : 0 < 2 ^ cexp x) by (apply pow2_pos, cexp_nonneg).
  apply Z.mod_divide in Hr; [|lia]. exact Hr.
Qed.

Lemma round_down_max (x z : Z) :
  0 < x <= z -> representable x -> x <= round_down z.
Proof.
  intros [Hx Hxz] Hr.
  pose proof (Zdigits2_mono x z (conj Hx Hxz)) as Hd.
  destruct (Z.eq_dec (Zdigits2 x) (Zdigits2 z)) as [Heq|Hne].
  - destruct (representable_multiple x ltac:(lia) Hr) as [q Hq].
    assert (Hc : cexp x = cexp z) by (unfold cexp; rewrite Heq; reflexivity).
    rewrite Hc in Hq. unfold round_down.
    assert (Hp : 0 < 2 ^ cexp z) by (apply pow2_pos, cexp_nonneg).
    assert (q <= z / 2 ^ cexp z) by (apply Z.div_le_lower_bound; lia).
    nia.
  - pose proof (Zdigits2_bounds x Hx) as [_ Hhi].
    pose proof (round_down_leading z ltac:(lia)).
    pose proof (Zdigits2_pos x Hx).
    assert (2 ^ Zdigits2 x <= 2 ^ (Zdigits2 z - 1)) by (apply pow2_le; lia).
    lia.
Qed.

Lemma round_up_min (x z : Z) :
  0 < z <= x -> representable x -> z mod 2 ^ cexp z <> 0 ->
  round_down z + 2 ^ cexp z <= x.
Proof.
  intros [Hz Hzx] Hr Hin.
  pose proof (Zdigits2_mono z x (conj Hz Hzx)) as Hd.
  destruct (Z.eq_dec (Zdigits2 z) (Zdigits2 x)) as [Heq|Hne].
  - destruct (representable_multiple x ltac:(lia) Hr) as [q Hq].
    assert (Hc : cexp x = cexp z) by (unfold cexp; rewrite Heq; reflexivity).
    rewrite Hc in Hq. unfold round_down.
    assert (Hp : 0 < 2 ^ cexp z) by (apply pow2_pos, cexp_nonneg).
    pose proof (Z.div_mod z (2 ^ cexp z) ltac:(lia)) as Hdm.
    pose proof (Z.mod_pos_bound z (2 ^ cexp z) Hp) as Hmb.
    assert (z / 2 ^ cexp z < q) by nia.
    nia.
  - pose proof (Zdigits2_bounds x ltac:(lia)) as [Hlo _].
    pose proof (round_up_next z Hz).
    pose proof (Zdigits2_pos z Hz).
    assert (2 ^ Zdigits2 z <= 2 ^ (Zdigits2 x - 1)) by (apply pow2_le; lia).
    lia.
Qed.

Lemma nearby_between (z y x : Z) :
  0 < z -> nearby z y -> representable x ->
  0 <= y /\ (0 <= x <= z -> x <= y) /\ (z <= x -> y <= x).
Proof.
  intros Hz Hy Hr.
  pose proof (round_down_le z ltac:(lia)) as [Hd0 Hdz].
  assert (Hp : 0 < 2 ^ cexp z) by (apply pow2_pos, cexp_nonneg).
  assert (Hlow : 0 <= x <= z -> x <= round_down z).
  { intros [H0 Hxz]. destruct (Z.eq_dec x 0); [lia|].
    apply round_down_max; [lia | assumption]. }
  destruct Hy as [->|[-> Hin]].
  - repeat split; lia.
  - repeat split; try lia.
    intros Hzx. apply round_up_min; [lia | assumption | assumption].
Qed.

Lemma representable_opp (x : Z) : representable x -> representable (- x).
Proof. unfold representable. rewrite Z.abs_opp. auto. Qed.

Lemma rounded_between (z y x : Z) :
  rounded z y -> representable x -> (x <= z -> x <= y) /\ (z <= x -> y <= x).
Proof.
  intros Hy Hr. destruct z as [|p|p]; simpl in Hy.
  - subst. lia.
  - destruct (nearby_between (Zpos p) y x ltac:(lia) Hy Hr) as (H0 & H1 & H2).
    split; [|assumption]. intros H. destruct (Z.le_gt_cases 0 x); [apply H1|]; lia.
  - destruct (nearby_between (Zpos p) (- y) (- x) ltac:(lia) Hy (representable_opp x Hr))
      as (H0 & H1 & H2).
    split; intros H.
    + assert (- y <= - x) by (apply H2; lia). lia.
    + destruct (Z.le_gt_cases x 0); [|lia].
      assert (- x <= - y) by (apply H1; lia). lia.
Qed.

(** ** The rounding of [SpecFloat] on binary64 *)

Lemma fexp_eq (e : Z) : SpecFloat.fexp prec emax e = Z.max (e - 53) (-1074).
Proof. reflexivity. Qed.

Lemma Zdigits2_unique (z d : Z) :
  2 ^ (d - 1) <= z < 2 ^ d -> 0 < d -> Zdigits2 z = d.
Proof.
  intros [H1 H2] Hd.
  assert (Hz : 0 < z).
  { assert (0 < 2 ^ (d - 1)) by (apply pow2_pos; lia). lia. }
  destruct z as [|p|p]; try lia. apply digits2_unique; auto.
Qed.

Lemma Zdigits2_shift (m : positive) (k : Z) :
  0 <= k -> Zdigits2 (Zpos m * 2 ^ k) = Zpos (digits2_pos m) + k.
Proof.
  intros Hk. pose proof (digits2_bounds m) as [Hlo Hhi].
  assert (Hp : 0 < 2 ^ k) by (apply pow2_pos; lia).
  apply Zdigits2_unique; [|lia].
  replace (Zpos (digits2_pos m) + k - 1) with ((Zpos (digits2_pos m) - 1) + k) by lia.
  rewrite !Z.pow_add_r by lia. nia.
Qed.

Lemma shr_fexp_exact (m e : Z) :
  0 <= m ->
  exists rec n,
    n = Z.max (SpecFloat.fexp prec emax (Zdigits2 m + e) - e) 0 /\
    shr_fexp prec emax m e loc_Exact = (rec, e + n) /\
    shr_m rec = m / 2 ^ n /\
    (m mod 2 ^ n = 0 -> shr_r rec = false /\ shr_s rec = false).
Proof.
  intros Hm. unfold shr_fexp. cbn [shr_record_of_loc].
  set (k := SpecFloat.fexp prec emax (Zdigits2 m + e) - e).
  destruct k as [|p|p] eqn:Hk; unfold shr.
  - exists {| shr_m := m; shr_r := false; shr_s := false |}, 0.
    cbn [shr_m shr_r shr_s]. rewrite Z.add_0_r, Z.div_1_r. repeat split; auto.
  - exists (iter_pos shr_1 p {| shr_m := m; shr_r := false; shr_s := false |}), (Zpos p).
    split; [lia|]. split; [reflexivity|].
    rewrite iter_pos_nat.
    pose proof (shr_iter (Pos.to_nat p) m Hm) as H. cbn zeta in H.
    rewrite positive_nat_Z in H. exact H.
  - exists {| shr_m := m; shr_r := false; shr_s := false |}, 0.
    cbn [shr_m shr_r shr_s]. rewrite Z.add_0_r, Z.div_1_r. repeat split; auto; lia.
Qed.

Lemma round_nearest_even_cases (m : Z) (rec : shr_record) :
  shr_m rec = m ->
  round_nearest_even (shr_m rec) (loc_of_shr_record rec) = m \/
  (round_nearest_even (shr_m rec) (loc_of_shr_record rec) = m + 1 /\
   ~ (shr_r rec = false /\ shr_s rec = false)).
Proof.
  intros <-. destruct rec as [m [|] [|]]; cbn [shr_m shr_r shr_s loc_of_shr_record round_nearest_even];
    try (destruct (Z.even m)); try (left; reflexivity);
    right; (split; [reflexivity | intros [? ?]; discriminate]).
Qed.

Lemma binary_round_aux_eq (s : bool) (mx ex : Z) (lx : location) :
  binary_round_aux prec emax s mx ex lx =
  let '(mrs', e') := shr_fexp prec emax mx ex lx in
  let '(mrs'', e'') :=
    shr_fexp prec emax (round_nearest_even (shr_m mrs') (loc_of_shr_record mrs')) e' loc_Exact in
  match shr_m mrs'' with
  | Z0 => S754_zero s
  | Zpos m => if (e'' <=? emax - prec)%Z then S754_finite s m e'' else S754_infinity s
  | _ => S754_nan
  end.
Proof. reflexivity. Qed.


Lemma div_shifted (m : Z) (k n : Z) :
  0 <= k -> 0 <= n -> (m * 2 ^ k) / 2 ^ (n + k) = m / 2 ^ n.
Proof.
  intros Hk Hn. rewrite Z.pow_add_r by lia.
  apply Z.div_mul_cancel_r.
  - pose proof (pow2_pos n Hn). lia.
  - pose proof (pow2_pos k Hk). lia.
Qed.

Lemma mod_shifted (m : Z) (k n : Z) :
  0 <= k -> 0 <= n -> (m * 2 ^ k) mod 2 ^ (n + k) = (m mod 2 ^ n) * 2 ^ k.
Proof.
  intros Hk Hn. rewrite Z.pow_add_r by lia.
  apply Z.mul_mod_distr_r.
  - pose proof (pow2_pos n Hn). lia.
  - pose proof (pow2_pos k Hk). lia.
Qed.

Lemma binary_round_aux_spec (s : bool) (m : positive) (e : Z) :
  -1074 <= e ->
  e <= SpecFloat.fexp prec emax (Zpos (digits2_pos m) + e) ->
  exists y, nearby (Zpos m * 2 ^ (e + 1074)) y /\
            packed s y (binary_round_aux prec emax s (Zpos m) e loc_Exact).
Proof.
  intros He Hcan. rewrite fexp_eq in Hcan.
  set (d := Zpos (digits2_pos m)) in *.
  set (e' := Z.max (d + e - 53) (-1074)) in *.
  pose proof (digits2_bounds m) as [Hdlo Hdhi]. fold d in Hdlo, Hdhi.
  assert (Hd : 0 < d) by (unfold d; lia).
  set (z := Zpos m * 2 ^ (e + 1074)).
  assert (Hzd : Zdigits2 z = d + (e + 1074)) by (apply Zdigits2_shift; lia).
  assert (Hc : cexp z = e' + 1074) by (unfold cexp; rewrite Hzd; unfold e'; lia).
  set (n := e' - e).
  assert (Hn : 0 <= n) by (unfold n; lia).
  assert (Hcn : cexp z = n + (e + 1074)) by (rewrite Hc; unfold n; lia).
  assert (Hpn : 0 < 2 ^ n) by (apply pow2_pos; lia).
  (* first shift *)
  rewrite binary_round_aux_eq.
  destruct (shr_fexp_exact (Zpos m) e ltac:(lia)) as (rec & n0 & Hn0 & Hshr & Hm1 & Hfl).
  rewrite fexp_eq in Hn0. change (Zdigits2 (Zpos m)) with d in Hn0. fold e' in Hn0.
  assert (Hnn : n0 = n) by (unfold n; lia). clear Hn0. subst n0.
  rewrite Hshr. clear Hshr.
  replace (e + n) with e' by (unfold n; lia).
  set (m1 := Zpos m / 2 ^ n) in *.
  assert (Hm1lo : 1 <= m1).
  { unfold m1. apply Z.div_le_lower_bound; [lia|].
    destruct (Z.eq_dec n 0) as [->|Hn0]; [simpl; lia|].
    assert (n = d - 53) by (unfold n, e' in *; lia).
    assert (2 ^ n <= 2 ^ (d - 1)) by (apply pow2_le; lia). lia. }
  assert (Hm1hi : m1 < 2 ^ 53).
  { unfold m1. apply Z.div_lt_upper_bound; [lia|].
    assert (d <= n + 53) by (unfold n, e' in *; lia).
    assert (2 ^ d <= 2 ^ (n + 53)) by (apply pow2_le; lia).
    rewrite Z.pow_add_r in * by lia. lia. }
  assert (Hm1big : -1074 < e' -> 2 ^ 52 <= m1).
  { intros He'. unfold m1. apply Z.div_le_lower_bound; [lia|].
    assert (n = d - 53) by (unfold n, e' in *; lia).
    replace (d - 1) with (52 + n) in Hdlo by lia.
    rewrite Z.pow_add_r in Hdlo by lia. lia. }
  assert (Hdiv : z / 2 ^ cexp z = m1).
  { rewrite Hcn. unfold z, m1. apply div_shifted; lia. }
  assert (Hmod : z mod 2 ^ cexp z = (Zpos m mod 2 ^ n) * 2 ^ (e + 1074)).
  { rewrite Hcn. unfold z. apply mod_shifted; lia. }
  assert (Hpk : 0 < 2 ^ (e + 1074)) by (apply pow2_pos; lia).
  assert (Hpc : 0 < 2 ^ (e' + 1074)) by (apply pow2_pos; unfold e'; lia).
  (* rounding *)
  set (mr := round_nearest_even (shr_m rec) (loc_of_shr_record rec)).
  assert (Hmr : (mr = m1 \/ (mr = m1 + 1 /\ Zpos m mod 2 ^ n <> 0))).
  { destruct (round_nearest_even_cases m1 rec Hm1) as [H|[H Hne]]; fold mr in H.
    - left. exact H.
    - right. split; [exact H|]. intros H0. apply Hne, Hfl, H0. }
  assert (Hnear : nearby z (mr * 2 ^ (e' + 1074))).
  { unfold nearby, round_down. rewrite Hdiv, Hmod, Hc.
    destruct Hmr as [->|[-> Hne]]; [left; reflexivity|right].
    split; [lia|]. intros H0. apply Hne. nia. }
  exists (mr * 2 ^ (e' + 1074)). split; [exact Hnear|].
  (* second shift *)
  assert (Hmrlo : 1 <= mr <= 2 ^ 53) by (destruct Hmr as [->|[-> _]]; lia).
  destruct (shr_fexp_exact mr e' ltac:(lia)) as (rec2 & n2 & Hn2 & Hshr2 & Hm2 & _).
  rewrite fexp_eq in Hn2. rewrite Hshr2. clear Hshr2.
  destruct (Z.eq_dec mr (2 ^ 53)) as [Hcarry|Hnocarry].
  - (* the mantissa reached 2^53 *)
    assert (Hdr : Zdigits2 mr = 54) by (rewrite Hcarry; reflexivity).
    rewrite Hdr in Hn2.
    assert (Hnn : n2 = 1) by (unfold e' in *; lia). clear Hn2. subst n2.
    rewrite Hm2, Hcarry.
    change (2 ^ 53 / 2 ^ 1) with (Zpos (2 ^ 52)).
    change (emax - prec) with 971.
    destruct (Z.leb_spec (e' + 1) 971) as [Hle|Hgt].
    + right. right. exists (2 ^ 52)%positive, (e' + 1).
      split; [reflexivity|]. split; [unfold e'; lia|].
      replace (e' + 1 + 1074) with ((e' + 1074) + 1) by lia.
      rewrite pow2_succ by (unfold e'; lia).
      change (Zpos (2 ^ 52)) with (2 ^ 52). change (2 ^ 53) with (2 * 2 ^ 52). lia.
    + left. split; [reflexivity|].
      rewrite huge_53. apply Z.mul_le_mono_nonneg_l; [lia|].
      apply pow2_le. lia.
  - assert (Hdr : Zdigits2 mr <= 53).
    { destruct (Z.le_gt_cases (Zdigits2 mr) 53) as [|Hgt]; [assumption|].
      pose proof (Zdigits2_bounds mr ltac:(lia)) as [Hlo _].
      assert (2 ^ 53 <= 2 ^ (Zdigits2 mr - 1)) by (apply pow2_le; lia). lia. }
    assert (Hnn : n2 = 0) by (unfold e' in *; lia). clear Hn2. subst n2.
    rewrite Hm2, Z.div_1_r, Z.add_0_r.
    destruct mr as [|pr|pr]; try lia.
    change (emax - prec) with 971.
    destruct (Z.leb_spec e' 971) as [Hle|Hgt].
    + right. right. exists pr, e'. split; [reflexivity|]. split; [unfold e'; lia|reflexivity].
    + left. split; [reflexivity|].
      assert (2 ^ 52 <= Zpos pr).
      { destruct Hmr as [->|[Heq _]]; [apply Hm1big; lia|].
        rewrite Heq. pose proof (Hm1big ltac:(lia)). lia. }
      rewrite huge_52. apply Z.mul_le_mono_nonneg; try assumption.
      * lia.
      * apply Z.lt_le_incl, pow2_pos. lia.
      * apply pow2_le. lia.
Qed.

Lemma shl_align_value (mx : positive) (ex ez : Z) :
  ez <= ex -> Zpos (fst (shl_align mx ex ez)) = Zpos mx * 2 ^ (ex - ez).
Proof.
  intros H. unfold shl_align.
  destruct (ez - ex) as [|p|p] eqn:Hd; cbn [fst].
  - replace (ex - ez) with 0 by lia. simpl. lia.
  - lia.
  - rewrite iter_xO_value. f_equal. f_equal. lia.
Qed.

Lemma shl_align_canonical (mx : positive) (ex e' : Z) :
  e' = SpecFloat.fexp prec emax (Zpos (digits2_pos mx) + ex) ->
  -1074 <= ex ->
  let '(mz, ez) := shl_align mx ex e' in
  -1074 <= ez /\
  ez <= SpecFloat.fexp prec emax (Zpos (digits2_pos mz) + ez) /\
  Zpos mz * 2 ^ (ez + 1074) = Zpos mx * 2 ^ (ex + 1074).
Proof.
  intros He' Hex. rewrite fexp_eq in He'. unfold shl_align.
  destruct (e' - ex) as [|p|p] eqn:Hd.
  - rewrite fexp_eq. repeat split; lia.
  - rewrite fexp_eq. repeat split; lia.
  - rewrite fexp_eq.
    assert (Hdig : Zpos (digits2_pos (Pos.iter xO mx p)) = Zpos (digits2_pos mx) + Zpos p).
    { change (Zpos (digits2_pos (Pos.iter xO mx p))) with (Zdigits2 (Zpos (Pos.iter xO mx p))).
      rewrite iter_xO_value. apply Zdigits2_shift. lia. }
    rewrite Hdig, iter_xO_value.
    repeat split; try lia.
    rewrite <- Z.mul_assoc, <- Z.pow_add_r by lia. f_equal. f_equal. lia.
Qed.

Lemma binary_round_spec (s : bool) (mx : positive) (ex : Z) :
  -1074 <= ex ->
  exists y, nearby (Zpos mx * 2 ^ (ex + 1074)) y /\
            packed s y (binary_round prec emax s mx ex).
Proof.
  intros Hex. unfold binary_round.
  pose proof (shl_align_canonical mx ex _ eq_refl Hex) as H.
  destruct (shl_align mx ex (SpecFloat.fexp prec emax (Zpos (digits2_pos mx) + ex)))
    as [mz ez].
  destruct H as (H1 & H2 & H3). rewrite <- H3.
  apply binary_round_aux_spec; assumption.
Qed.

Lemma packed_reach (s : bool) (y : Z) (r : spec_float) :
  packed s y r -> reach r (cond_Zopp s y).
Proof.
  intros [[-> H]|[[-> ->]|(m & e & -> & He & <-)]]; simpl.
  - destruct s; simpl; lia.
  - destruct s; reflexivity.
  - reflexivity.
Qed.

Lemma rounded_pos (z y : Z) : 0 < z -> nearby z y -> rounded z y.
Proof. destruct z; simpl; auto; lia. Qed.

Lemma rounded_neg (z y : Z) : z < 0 -> nearby (- z) (- y) -> rounded z y.
Proof. destruct z; simpl; auto; lia. Qed.

Lemma binary_normalize_spec (m e : Z) :
  -1074 <= e ->
  exists y, rounded (m * 2 ^ (e + 1074)) y /\
            reach (binary_normalize prec emax m e false) y.
Proof.
  intros He. assert (Hp : 0 < 2 ^ (e + 1074)) by (apply pow2_pos; lia).
  destruct m as [|p|p]; cbn [binary_normalize].
  - exists 0. split; reflexivity.
  - destruct (binary_round_spec false p e He) as (y & Hy & Hpk).
    exists y. split; [apply rounded_pos; [nia|exact Hy]|].
    apply (packed_reach false y). exact Hpk.
  - destruct (binary_round_spec true p e He) as (y & Hy & Hpk).
    exists (- y). split.
    + apply rounded_neg; [nia|]. rewrite Z.opp_involutive.
      replace (- (Z.neg p * 2 ^ (e + 1074))) with (Zpos p * 2 ^ (e + 1074)) by lia.
      exact Hy.
    + apply (packed_reach true y). exact Hpk.
Qed.


(** ** Valid binary64 numbers *)

Lemma valid_finite (s : bool) (m : positive) (e : Z) :
  valid_binary (S754_finite s m e) = true ->
  -1074 <= e <= 971 /\
  e = Z.max (Zpos (digits2_pos m) + e - 53) (-1074).
Proof.
  cbn [SpecFloat.valid_binary]. unfold bounded, canonical_mantissa.
  rewrite fexp_eq. change (emax - prec) with 971.
  intros H. apply andb_true_iff in H. destruct H as [H1 H2].
  apply Z.eqb_eq in H1. apply Z.leb_le in H2. lia.
Qed.

Lemma valid_magnitude (s : bool) (m : positive) (e : Z) :
  valid_binary (S754_finite s m e) = true ->
  0 < Zpos m * 2 ^ (e + 1074) < huge /\
  cexp (Zpos m * 2 ^ (e + 1074)) = e + 1074.
Proof.
  intros H. destruct (valid_finite s m e H) as [He Hcan].
  pose proof (digits2_bounds m) as [Hlo Hhi].
  assert (Hp : 0 < 2 ^ (e + 1074)) by (apply pow2_pos; lia).
  split; [split; [nia|]|].
  - assert (Zpos (digits2_pos m) <= 53) by lia.
    assert (2 ^ Zpos (digits2_pos m) <= 2 ^ 53) by (apply pow2_le; lia).
    rewrite huge_53.
    apply Z.lt_le_trans with (2 ^ 53 * 2 ^ (e + 1074)).
    + apply Z.mul_lt_mono_pos_r; lia.
    + apply Z.mul_le_mono_nonneg_l; [lia|]. apply pow2_le. lia.
  - unfold cexp. rewrite Zdigits2_shift by lia. lia.
Qed.

Lemma scaled_representable (x : spec_float) :
  valid_binary x = true -> representable (scaled x).
Proof.
  destruct x as [s|s| |s m e]; intros H; try (unfold representable; reflexivity).
  destruct (valid_magnitude s m e H) as [[Hpos _] Hc].
  unfold representable. cbn [scaled].
  replace (Z.abs (cond_Zopp s (Zpos m * 2 ^ (e + 1074)))) with (Zpos m * 2 ^ (e + 1074))
    by (destruct s; cbn [cond_Zopp]; lia).
  rewrite Hc. apply Z.mod_mul.
  assert (0 < 2 ^ (e + 1074)) by (apply pow2_pos; destruct (valid_finite s m e H); lia). lia.
Qed.

Lemma scaled_bound (x : spec_float) :
  valid_binary x = true -> - huge < scaled x < huge.
Proof.
  destruct x as [s|s| |s m e]; intros H; cbn [scaled]; try (split; reflexivity).
  destruct (valid_magnitude s m e H) as [[Hpos Hlt] _].
  destruct s; cbn [cond_Zopp]; lia.
Qed.

Lemma compare_canonical (m1 m2 : positive) (e1 e2 : Z) :
  valid_binary (S754_finite false m1 e1) = true ->
  valid_binary (S754_finite false m2 e2) = true ->
  match (e1 ?= e2) with
  | Lt => Lt
  | Gt => Gt
  | Eq => Pos.compare_cont Eq m1 m2
  end = (Zpos m1 * 2 ^ (e1 + 1074) ?= Zpos m2 * 2 ^ (e2 + 1074)).
Proof.
  intros H1 H2.
  destruct (valid_finite _ _ _ H1) as [He1 Hc1].
  destruct (valid_finite _ _ _ H2) as [He2 Hc2].
  pose proof (digits2_bounds m1) as [Hlo1 Hhi1].
  pose proof (digits2_bounds m2) as [Hlo2 Hhi2].
  assert (Hp1 : 0 < 2 ^ (e1 + 1074)) by (apply pow2_pos; lia).
  assert (Hp2 : 0 < 2 ^ (e2 + 1074)) by (apply pow2_pos; lia).
  symmetry. destruct (Z.compare_spec e1 e2) as [Heq|Hlt|Hgt].
  - subst e2. change (Pos.compare_cont Eq m1 m2) with (Zpos m1 ?= Zpos m2).
    destruct (Z.compare_spec (Zpos m1) (Zpos m2)) as [E|L|G].
    + rewrite E. apply Z.compare_refl.
    + apply Z.compare_lt_iff. nia.
    + apply Z.compare_gt_iff. nia.
  - apply Z.compare_lt_iff.
    assert (Hd2 : Zpos (digits2_pos m2) = 53) by lia.
    assert (Hd1 : Zpos (digits2_pos m1) <= 53) by lia.
    rewrite Hd2 in Hlo2. change (2 ^ (53 - 1)) with (2 ^ 52) in Hlo2.
    assert (2 ^ Zpos (digits2_pos m1) <= 2 ^ 53) by (apply pow2_le; lia).
    assert (2 ^ (e1 + 1074 + 1) <= 2 ^ (e2 + 1074)) by (apply pow2_le; lia).
    rewrite pow2_succ in * by lia.
    change (2 ^ 53) with (2 * 2 ^ 52) in *. nia.
  - apply Z.compare_gt_iff.
    assert (Hd1 : Zpos (digits2_pos m1) = 53) by lia.
    assert (Hd2 : Zpos (digits2_pos m2) <= 53) by lia.
    rewrite Hd1 in Hlo1. change (2 ^ (53 - 1)) with (2 ^ 52) in Hlo1.
    assert (2 ^ Zpos (digits2_pos m2) <= 2 ^ 53) by (apply pow2_le; lia).
    assert (2 ^ (e2 + 1074 + 1) <= 2 ^ (e1 + 1074)) by (apply pow2_le; lia).
    rewrite pow2_succ in * by lia.
    change (2 ^ 53) with (2 * 2 ^ 52) in *. nia.
Qed.

(** The comparison of the specification is the comparison of the keys. *)
Lemma SFcompare_key (x y : spec_float) :
  valid_binary x = true -> valid_binary y = true ->
  x <> S754_nan -> y <> S754_nan ->
  SFcompare x y = Some (key x ?= key y).
Proof.
  intros Hx Hy Nx Ny.
  pose proof (scaled_bound x Hx) as Bx. pose proof (scaled_bound y Hy) as By'.
  assert (Hlt : forall a b : Z, a < b -> Lt = (a ?= b))
    by (intros; symmetry; apply Z.compare_lt_iff; assumption).
  assert (Hgt : forall a b : Z, b < a -> Gt = (a ?= b))
    by (intros; symmetry; apply Z.compare_gt_iff; assumption).
  assert (Hpx : forall s m e, x = S754_finite s m e -> 0 < Zpos m * 2 ^ (e + 1074)).
  { intros s m e ->. apply (valid_magnitude _ _ _ Hx). }
  assert (Hpy : forall s m e, y = S754_finite s m e -> 0 < Zpos m * 2 ^ (e + 1074)).
  { intros s m e ->. apply (valid_magnitude _ _ _ Hy). }
  destruct x as [sx|sx| |sx mx ex], y as [sy|sy| |sy my ey]; try congruence;
    try (pose proof (Hpx _ _ _ eq_refl)); try (pose proof (Hpy _ _ _ eq_refl));
    clear Hpx Hpy;
    cbn [SFcompare key scaled] in *; f_equal;
    try destruct sx; try destruct sy; cbn [cond_Zopp] in *;
    try reflexivity; try (apply Hlt; lia); try (apply Hgt; lia).
  - rewrite Z.compare_opp.
    rewrite (Z.compare_antisym (Zpos mx * 2 ^ (ex + 1074)) (Zpos my * 2 ^ (ey + 1074))).
    rewrite <- (compare_canonical mx my ex ey Hx Hy).
    destruct (ex ?= ey); reflexivity.
  - apply compare_canonical; assumption.
Qed.

(** ** Addition and subtraction round the exact result *)

Lemma rounded_exact (z : Z) : representable z -> rounded z z.
Proof.
  intros Hr. unfold representable in Hr.
  assert (Hrd : forall a, 0 < a -> a mod 2 ^ cexp a = 0 -> nearby a a).
  { intros a Ha Hm. left. unfold round_down.
    pose proof (pow2_pos (cexp a) (cexp_nonneg a)).
    pose proof (Z.div_mod a (2 ^ cexp a) ltac:(lia)). lia. }
  destruct z as [|p|p]; cbn [rounded].
  - reflexivity.
  - apply Hrd; [lia|exact Hr].
  - apply Hrd; [lia|exact Hr].
Qed.

Lemma aligned_scaled (s : bool) (m : positive) (e ez : Z) :
  -1074 <= ez <= e ->
  cond_Zopp s (Zpos (fst (shl_align m e ez))) * 2 ^ (ez + 1074) =
  cond_Zopp s (Zpos m * 2 ^ (e + 1074)).
Proof.
  intros H. rewrite shl_align_value by lia.
  assert (2 ^ (e + 1074) = 2 ^ (e - ez) * 2 ^ (ez + 1074)).
  { rewrite <- Z.pow_add_r by lia. f_equal. lia. }
  destruct s; cbn [cond_Zopp]; nia.
Qed.

Lemma SFadd_rounds (x y : spec_float) :
  valid_binary x = true -> valid_binary y = true ->
  finite_or_zero x = true -> finite_or_zero y = true ->
  exists v, rounded (scaled x + scaled y) v /\ reach (SFadd prec emax x y) v.
Proof.
  intros Vx Vy Fx Fy.
  destruct x as [sx|sx| |sx mx ex], y as [sy|sy| |sy my ey]; try discriminate.
  - exists 0. split; [reflexivity|]. destruct sx, sy; reflexivity.
  - exists (scaled (S754_finite sy my ey)). split; [|reflexivity].
    cbn [scaled]. rewrite Z.add_0_l. apply rounded_exact.
    apply (scaled_representable _ Vy).
  - exists (scaled (S754_finite sx mx ex)). split; [|reflexivity].
    cbn [scaled]. rewrite Z.add_0_r. apply rounded_exact.
    apply (scaled_representable _ Vx).
  - destruct (valid_finite _ _ _ Vx) as [Hex _].
    destruct (valid_finite _ _ _ Vy) as [Hey _].
    cbn [SFadd scaled].
    set (ez := Z.min ex ey).
    destruct (binary_normalize_spec
                (cond_Zopp sx (Zpos (fst (shl_align mx ex ez))) +
                 cond_Zopp sy (Zpos (fst (shl_align my ey ez)))) ez ltac:(unfold ez; lia))
      as (v & Hv & Hr).
    exists v. split; [|exact Hr].
    rewrite Z.mul_add_distr_r in Hv.
    rewrite !aligned_scaled in Hv by (unfold ez; lia). exact Hv.
Qed.

Lemma SFsub_rounds (x y : spec_float) :
  valid_binary x = true -> valid_binary y = true ->
  finite_or_zero x = true -> finite_or_zero y = true ->
  exists v, rounded (scaled x - scaled y) v /\ reach (SFsub prec emax x y) v.
Proof.
  intros Vx Vy Fx Fy.
  destruct x as [sx|sx| |sx mx ex], y as [sy|sy| |sy my ey]; try discriminate.
  - exists 0. split; [reflexivity|]. destruct sx, sy; reflexivity.
  - exists (- scaled (S754_finite sy my ey)). split.
    + cbn [scaled]. rewrite Z.sub_0_l. apply rounded_exact.
      apply representable_opp, (scaled_representable _ Vy).
    + cbn [SFsub reach scaled]. destruct sy; cbn [negb cond_Zopp]; lia.
  - exists (scaled (S754_finite sx mx ex)). split; [|reflexivity].
    cbn [scaled]. rewrite Z.sub_0_r. apply rounded_exact.
    apply (scaled_representable _ Vx).
  - destruct (valid_finite _ _ _ Vx) as [Hex _].
    destruct (valid_finite _ _ _ Vy) as [Hey _].
    cbn [SFsub scaled].
    set (ez := Z.min ex ey).
    destruct (binary_normalize_spec
                (cond_Zopp sx (Zpos (fst (shl_align mx ex ez))) -
                 cond_Zopp sy (Zpos (fst (shl_align my ey ez)))) ez ltac:(unfold ez; lia))
      as (v & Hv & Hr).
    exists v. split; [|exact Hr].
    rewrite Z.mul_sub_distr_r in Hv.
    rewrite !aligned_scaled in Hv by (unfold ez; lia). exact Hv.
Qed.


(** ** Halving *)

Lemma SFdiv_core_eq (m1 e1 m2 e2 : Z) :
  SFdiv_core_binary prec emax m1 e1 m2 e2 =
  let e' := Z.min (SpecFloat.fexp prec emax (Zdigits2 m1 + e1 - (Zdigits2 m2 + e2))) (e1 - e2) in
  let s := e1 - e2 - e' in
  let m' := match s with Zpos _ => Z.shiftl m1 s | Z0 => m1 | Zneg _ => 0 end in
  (m' / m2, e', new_location m2 (m' mod m2)).
Proof.
  unfold SFdiv_core_binary. cbv zeta. unfold Z.div, Z.modulo.
  match goal with |- context [Z.div_eucl ?a ?b] => destruct (Z.div_eucl a b) end.
  reflexivity.
Qed.

Lemma nearby_exact (z y : Z) : 0 <= z -> z mod 2 ^ cexp z = 0 -> nearby z y -> y = z.
Proof.
  intros Hz Hm [->|[_ Hne]]; [|contradiction].
  unfold round_down. pose proof (pow2_pos (cexp z) (cexp_nonneg z)).
  pose proof (Z.div_mod z (2 ^ cexp z) ltac:(lia)). lia.
Qed.

Lemma packed_finite (y : Z) (r : spec_float) :
  packed false y r -> 0 <= y < huge ->
  finite_or_zero r = true /\ scaled r = y.
Proof.
  intros [[-> H]|[[-> ->]|(m & e & -> & He & <-)]] Hy; cbn; try lia; auto.
Qed.

(** Halving a float whose exponent is above the least one is exact. *)
Lemma halve_normal (mx : positive) (ex : Z) :
  valid_binary (S754_finite false mx ex) = true ->
  -1074 < ex ->
  finite_or_zero (SFdiv prec emax (S754_finite false mx ex) two) = true /\
  2 * scaled (SFdiv prec emax (S754_finite false mx ex) two) = Zpos mx * 2 ^ (ex + 1074).
Proof.
  intros Hv Hex.
  destruct (valid_finite _ _ _ Hv) as [Hrange Hcan].
  destruct (valid_magnitude _ _ _ Hv) as [[Hpos Hlt] _].
  assert (Hd : Zpos (digits2_pos mx) = 53) by lia.
  unfold two. cbn [SFdiv xorb]. rewrite SFdiv_core_eq. cbv zeta.
  change (Zdigits2 (Zpos mx)) with (Zpos (digits2_pos mx)). rewrite Hd.
  change (Zdigits2 4503599627370496) with 53.
  rewrite fexp_eq.
  replace (Z.min (Z.max (53 + ex - (53 + -51) - 53) (-1074)) (ex - -51))
    with (Z.max (ex - 2) (-1074)) by lia.
  set (e' := Z.max (ex - 2) (-1074)).
  set (s := ex - -51 - e').
  assert (Hs : 52 <= s <= 53) by (unfold s, e'; lia).
  destruct s as [|ps|ps] eqn:Hsp; try lia. rewrite <- Hsp in *.
  rewrite Z.shiftl_mul_pow2 by lia.
  assert (Hsplit : 2 ^ s = 2 ^ (s - 52) * 4503599627370496).
  { change 4503599627370496 with (2 ^ 52). rewrite <- Z.pow_add_r by lia. f_equal. lia. }
  rewrite Hsplit, Z.mul_assoc.
  rewrite Z.div_mul by lia. rewrite Z.mod_mul by lia.
  change (new_location 4503599627370496 0) with loc_Exact.
  assert (Hq : 0 < Zpos mx * 2 ^ (s - 52)).
  { assert (0 < 2 ^ (s - 52)) by (apply pow2_pos; lia). nia. }
  destruct (Zpos mx * 2 ^ (s - 52)) as [|q|q] eqn:Hqe; try lia.
  assert (Hdq : Zpos (digits2_pos q) = 53 + (s - 52)).
  { change (Zpos (digits2_pos q)) with (Zdigits2 (Zpos q)). rewrite <- Hqe.
    rewrite Zdigits2_shift by lia. lia. }
  destruct (binary_round_aux_spec false q e') as (y & Hy & Hpk).
  { unfold e'; lia. }
  { rewrite fexp_eq, Hdq. unfold s, e' in *. lia. }
  assert (Hval : Zpos q * 2 ^ (e' + 1074) = Zpos mx * 2 ^ (ex + 1073)).
  { rewrite <- Hqe, <- Z.mul_assoc, <- Z.pow_add_r by (unfold e'; lia).
    f_equal. f_equal. unfold s. lia. }
  rewrite Hval in Hy.
  assert (Hc : cexp (Zpos mx * 2 ^ (ex + 1073)) = ex + 1073).
  { unfold cexp. rewrite Zdigits2_shift by lia. lia. }
  assert (Hp : 0 < 2 ^ (ex + 1073)) by (apply pow2_pos; lia).
  assert (y = Zpos mx * 2 ^ (ex + 1073)).
  { apply nearby_exact; [|rewrite Hc; apply Z.mod_mul; lia|exact Hy].
    apply Z.mul_nonneg_nonneg; lia. }
  assert (Hdouble : 2 ^ (ex + 1074) = 2 * 2 ^ (ex + 1073)).
  { replace (ex + 1074) with (ex + 1073 + 1) by lia. apply pow2_succ. lia. }
  assert (Hy2 : 2 * y = Zpos mx * 2 ^ (ex + 1074)) by (rewrite Hdouble; lia).
  assert (Hyb : 0 <= y < huge) by lia.
  destruct (packed_finite y _ Hpk Hyb) as [Hf Hsc].
  split; [exact Hf|]. rewrite Hsc. exact Hy2.
Qed.

Lemma loc_roundtrip (m : Z) (l : location) :
  loc_of_shr_record (shr_record_of_loc m l) = l /\ shr_m (shr_record_of_loc m l) = m.
Proof. destruct l as [|[| |]]; split; reflexivity. Qed.

Lemma Zdigits2_small (z : Z) : 0 <= z < 2 ^ 53 -> Zdigits2 z <= 53.
Proof.
  intros [H0 H1]. destruct (Z.eq_dec z 0) as [->|Hz]; [simpl; lia|].
  destruct (Z.le_gt_cases (Zdigits2 z) 53) as [|Hgt]; [assumption|].
  pose proof (Zdigits2_bounds z ltac:(lia)) as [Hlo _].
  assert (2 ^ 53 <= 2 ^ (Zdigits2 z - 1)) by (apply pow2_le; lia). lia.
Qed.

(** At the least exponent nothing is shifted: the result is the rounded mantissa. *)
Lemma binary_round_aux_least_eq (q : Z) (l : location) :
  0 <= q < 2 ^ 52 ->
  binary_round_aux prec emax false q (-1074) l =
  match round_nearest_even q l with
  | Z0 => S754_zero false
  | Zpos p => S754_finite false p (-1074)
  | Zneg _ => S754_nan
  end.
Proof.
  intros Hq. rewrite binary_round_aux_eq.
  unfold shr_fexp at 1. rewrite fexp_eq.
  pose proof (Zdigits2_small q ltac:(lia)) as Hdq.
  replace (Z.max (Zdigits2 q + -1074 - 53) (-1074) - -1074) with 0 by lia.
  cbn [shr]. destruct (loc_roundtrip q l) as [-> ->].
  set (mr := round_nearest_even q l).
  assert (Hmr : q <= mr <= q + 1).
  { unfold mr. destruct l as [|[| |]]; cbn [round_nearest_even]; try lia.
    destruct (Z.even q); lia. }
  destruct (shr_fexp_exact mr (-1074) ltac:(lia)) as (rec2 & n2 & Hn2 & Hshr2 & Hm2 & _).
  rewrite fexp_eq in Hn2.
  pose proof (Zdigits2_small mr ltac:(change (2 ^ 53) with (2 * 2 ^ 52); lia)) as Hdr.
  assert (Hnn : n2 = 0) by lia. clear Hn2. subst n2.
  rewrite Hshr2, Hm2, Z.div_1_r.
  destruct mr as [|pr|pr]; reflexivity.
Qed.

Lemma binary_round_aux_least (q : Z) (l : location) :
  0 <= q < 2 ^ 52 ->
  finite_or_zero (binary_round_aux prec emax false q (-1074) l) = true /\
  scaled (binary_round_aux prec emax false q (-1074) l) = round_nearest_even q l.
Proof.
  intros Hq. rewrite (binary_round_aux_least_eq q l Hq).
  assert (Hmr : q <= round_nearest_even q l).
  { destruct l as [|[| |]]; cbn [round_nearest_even]; try lia.
    destruct (Z.even q); lia. }
  destruct (round_nearest_even q l) as [|pr|pr]; try lia.
  - split; reflexivity.
  - split; [reflexivity|]. cbn [scaled cond_Zopp].
    change (2 ^ (-1074 + 1074)) with 1. lia.
Qed.

Lemma halve_least (mx : positive) :
  valid_binary (S754_finite false mx (-1074)) = true ->
  finite_or_zero (SFdiv prec emax (S754_finite false mx (-1074)) two) = true /\
  Zpos mx - 1 <= 2 * scaled (SFdiv prec emax (S754_finite false mx (-1074)) two)
              <= Zpos mx + 1.
Proof.
  intros Hv.
  destruct (valid_finite _ _ _ Hv) as [_ Hcan].
  pose proof (digits2_bounds mx) as [_ Hhi].
  assert (Hd : Zpos (digits2_pos mx) <= 53) by lia.
  assert (Hmx : Zpos mx < 2 ^ 53).
  { assert (2 ^ Zpos (digits2_pos mx) <= 2 ^ 53) by (apply pow2_le; lia). lia. }
  unfold two. cbn [SFdiv xorb]. rewrite SFdiv_core_eq. cbv zeta.
  change (Zdigits2 (Zpos mx)) with (Zpos (digits2_pos mx)).
  change (Zdigits2 4503599627370496) with 53.
  rewrite fexp_eq.
  replace (Z.min (Z.max (Zpos (digits2_pos mx) + -1074 - (53 + -51) - 53) (-1074))
                 (-1074 - -51)) with (-1074) by lia.
  change (-1074 - -51 - -1074) with 51.
  rewrite Z.shiftl_mul_pow2 by lia.
  change 4503599627370496 with (2 * 2 ^ 51).
  assert (Hp : 0 < 2 ^ 51) by (apply pow2_pos; lia).
  rewrite Z.div_mul_cancel_r by lia.
  rewrite Z.mul_mod_distr_r by lia.
  set (q := Zpos mx / 2). set (r := Zpos mx mod 2).
  pose proof (Z.div_mod (Zpos mx) 2 ltac:(lia)) as Hdm. fold q r in Hdm.
  pose proof (Z.mod_pos_bound (Zpos mx) 2 ltac:(lia)) as Hr. fold r in Hr.
  assert (Hq : 0 <= q < 2 ^ 52).
  { change (2 ^ 53) with (2 * 2 ^ 52) in Hmx. lia. }
  destruct (binary_round_aux_least q (new_location (2 * 2 ^ 51) (r * 2 ^ 51)) Hq)
    as [Hf Hsc].
  split; [exact Hf|]. rewrite Hsc.
  assert (Hr01 : r = 0 \/ r = 1) by lia.
  destruct Hr01 as [Hr0|Hr1].
  - rewrite Hr0. change (new_location (2 * 2 ^ 51) (0 * 2 ^ 51)) with loc_Exact.
    cbn [round_nearest_even]. lia.
  - rewrite Hr1. change (new_location (2 * 2 ^ 51) (1 * 2 ^ 51)) with (loc_Inexact Eq).
    cbn [round_nearest_even]. destruct (Z.even q); lia.
Qed.

(** Halving a float that is not negative. *)
Lemma SFdiv_two_halves (d : spec_float) :
  valid_binary d = true -> finite_or_zero d = true -> 0 <= scaled d ->
  finite_or_zero (SFdiv prec emax d two) = true /\
  scaled d - 1 <= 2 * scaled (SFdiv prec emax d two) <= scaled d + 1 /\
  (-1074 < match d with S754_finite _ _ e => e | _ => -1074 end ->
   2 * scaled (SFdiv prec emax d two) = scaled d).
Proof.
  intros Hv Hf Hpos. destruct d as [s|s| |s m e]; try discriminate.
  - cbn. repeat split; lia.
  - destruct s.
    { destruct (valid_magnitude _ _ _ Hv) as [[Hp _] _]. cbn [scaled cond_Zopp] in Hpos. lia. }
    destruct (valid_finite _ _ _ Hv) as [Hrange _].
    destruct (Z.eq_dec e (-1074)) as [->|Hne].
    + destruct (halve_least m Hv) as [H1 H2].
      split; [exact H1|]. cbn [scaled cond_Zopp].
      change (2 ^ (-1074 + 1074)) with 1. rewrite Z.mul_1_r.
      split; [exact H2|]. lia.
    + destruct (halve_normal m e Hv ltac:(lia)) as [H1 H2].
      split; [exact H1|]. cbn [scaled cond_Zopp]. rewrite H2. split; lia.
Qed.


(** ** The midpoint lies in the bracket *)

Lemma reach_finite (r : spec_float) (v lo hi : Z) :
  reach r v -> - huge < lo -> hi < huge -> lo <= v <= hi ->
  finite_or_zero r = true /\ scaled r = v.
Proof.
  intros Hr Hlo Hhi Hv. destruct r as [s|s| |s m e]; cbn [reach] in Hr.
  - split; [reflexivity|exact Hr].
  - destruct s; cbn [cond_Zopp] in Hr; lia.
  - contradiction.
  - split; [reflexivity|exact Hr].
Qed.

Lemma reach_scaled (r : spec_float) (v : Z) :
  reach r v -> finite_or_zero r = true -> scaled r = v.
Proof.
  intros Hr Hf. destruct r as [s|s| |s m e]; try discriminate; exact Hr.
Qed.

(** A subtraction that rounds up is exact to the last bit but one. *)
Lemma rounded_up_even (x d : Z) (r : spec_float) :
  0 < x -> nearby x d -> x < d ->
  valid_binary r = true -> finite_or_zero r = true -> scaled r = d ->
  d <= 2 * x /\ -1074 < match r with S754_finite _ _ e => e | _ => -1074 end.
Proof.
  intros Hx [->|[-> Hne]] Hlt Hv Hf Hs.
  { pose proof (round_down_le x ltac:(lia)). lia. }
  pose proof (round_down_le x ltac:(lia)) as [_ Hrd].
  pose proof (cexp_nonneg x) as Hc0. pose proof (cexp_lt_digits x Hx) as Hcd.
  pose proof (Zdigits2_bounds x Hx) as [Hlo _].
  assert (Hc1 : 1 <= cexp x).
  { destruct (Z.eq_dec (cexp x) 0) as [E|]; [|lia].
    rewrite E in Hne. change (2 ^ 0) with 1 in Hne. rewrite Z.mod_1_r in Hne. lia. }
  assert (H2c : 2 ^ cexp x <= 2 ^ (Zdigits2 x - 1)) by (apply pow2_le; lia).
  split; [lia|].
  destruct r as [s|s| |s m e]; try discriminate.
  - cbn [scaled] in Hs. pose proof (pow2_pos (cexp x) Hc0). lia.
  - destruct (valid_finite _ _ _ Hv) as [Hrange Hcan].
    destruct (Z.eq_dec e (-1074)) as [->|]; [exfalso|lia].
    pose proof (digits2_bounds m) as [_ Hhi].
    assert (Hd : Zpos (digits2_pos m) <= 53) by lia.
    assert (2 ^ Zpos (digits2_pos m) <= 2 ^ 53) by (apply pow2_le; lia).
    assert (Hdx : 54 <= Zdigits2 x) by (unfold cexp in Hc1; lia).
    assert (2 ^ 53 <= 2 ^ (Zdigits2 x - 1)) by (apply pow2_le; lia).
    cbn [scaled] in Hs. change (2 ^ (-1074 + 1074)) with 1 in Hs.
    destruct s; cbn [cond_Zopp] in Hs; lia.
Qed.

Lemma middle_between_spec (a b d h m : spec_float) :
  valid_binary a = true -> valid_binary b = true ->
  valid_binary d = true -> valid_binary h = true ->
  finite_or_zero a = true -> finite_or_zero b = true ->
  scaled a <= scaled b ->
  d = SFsub prec emax b a ->
  finite_or_zero d = true ->
  h = SFdiv prec emax d two ->
  m = SFadd prec emax a h ->
  finite_or_zero m = true /\ scaled a <= scaled m <= scaled b.
Proof.
  intros Va Vb Vd Vh Fa Fb Hab Hd Fd Hh Hm.
  destruct (SFsub_rounds b a Vb Va Fb Fa) as (D & HD & HrD). rewrite <- Hd in HrD.
  pose proof (reach_scaled d D HrD Fd) as HsD.
  set (X := scaled b - scaled a) in *.
  assert (HX : 0 <= X) by (unfold X; lia).
  assert (HD0 : 0 <= D).
  { apply (rounded_between X D 0 HD); [reflexivity|lia]. }
  destruct (SFdiv_two_halves d Vd Fd ltac:(lia)) as (Fh & Hhalf & Hexact).
  rewrite <- Hh in *. rewrite HsD in *.
  set (H := scaled h) in *.
  assert (HH : 0 <= H <= X).
  { split; [lia|].
    destruct (Z.le_gt_cases D X) as [Hle|Hgt].
    - destruct (Z.eq_dec X 0) as [E|]; [|lia].
      assert (D = 0) by lia. lia.
    - assert (HXp : 0 < X).
      { destruct (Z.eq_dec X 0) as [E|]; [|lia].
        rewrite E in HD. cbn [rounded] in HD. lia. }
      assert (Hnear : nearby X D) by (destruct X; cbn [rounded] in HD; [lia|exact HD|lia]).
      destruct (rounded_up_even X D d HXp Hnear Hgt Vd Fd HsD) as [H2 He].
      specialize (Hexact He). lia. }
  destruct (SFadd_rounds a h Va Vh Fa Fh) as (v & Hv & Hrv). rewrite <- Hm in Hrv.
  fold H in Hv.
  pose proof (scaled_representable a Va) as Ra.
  pose proof (scaled_representable b Vb) as Rb.
  pose proof (scaled_bound a Va) as Ba. pose proof (scaled_bound b Vb) as Bb.
  assert (Hva : scaled a <= v) by (apply (rounded_between _ v _ Hv Ra); lia).
  assert (Hvb : v <= scaled b) by (apply (rounded_between _ v _ Hv Rb); unfold X in HH; lia).
  destruct (reach_finite m v (scaled a) (scaled b) Hrv ltac:(lia) ltac:(lia) ltac:(lia))
    as [Fm Hsm].
  split; [exact Fm|]. lia.
Qed.


Local Close Scope Z_scope.

(** ** From the specification to the primitive floats *)

Lemma Prim2SF_two : Prim2SF 2%float = two.
Proof. reflexivity. Qed.

Lemma finite_key (x : float) : finite x = true -> fkey x = scaled (Prim2SF x).
Proof. unfold finite, fkey. destruct (Prim2SF x); try discriminate; reflexivity. Qed.

Lemma leb_key (x y : float) :
  (x <=? y)%float = true <->
  Prim2SF x <> S754_nan /\ Prim2SF y <> S754_nan /\ (fkey x <= fkey y)%Z.
Proof.
  rewrite FloatAxioms.leb_spec. unfold SFleb, fkey. split.
  - intros H.
    assert (Nx : Prim2SF x <> S754_nan).
    { intros E. rewrite E in H. discriminate. }
    assert (Ny : Prim2SF y <> S754_nan).
    { intros E. rewrite E in H. destruct (Prim2SF x); discriminate. }
    rewrite (SFcompare_key _ _ (Prim2SF_valid x) (Prim2SF_valid y) Nx Ny) in H.
    repeat split; auto.
    destruct (Z.compare_spec (key (Prim2SF x)) (key (Prim2SF y))); try discriminate; lia.
  - intros (Nx & Ny & Hk).
    rewrite (SFcompare_key _ _ (Prim2SF_valid x) (Prim2SF_valid y) Nx Ny).
    destruct (Z.compare_spec (key (Prim2SF x)) (key (Prim2SF y))); try reflexivity; lia.
Qed.

Lemma ltb_key (x y : float) :
  (x <? y)%float = true <->
  Prim2SF x <> S754_nan /\ Prim2SF y <> S754_nan /\ (fkey x < fkey y)%Z.
Proof.
  rewrite FloatAxioms.ltb_spec. unfold SFltb, fkey. split.
  - intros H.
    assert (Nx : Prim2SF x <> S754_nan).
    { intros E. rewrite E in H. discriminate. }
    assert (Ny : Prim2SF y <> S754_nan).
    { intros E. rewrite E in H. destruct (Prim2SF x); discriminate. }
    rewrite (SFcompare_key _ _ (Prim2SF_valid x) (Prim2SF_valid y) Nx Ny) in H.
    repeat split; auto.
    destruct (Z.compare_spec (key (Prim2SF x)) (key (Prim2SF y))); try discriminate; lia.
  - intros (Nx & Ny & Hk).
    rewrite (SFcompare_key _ _ (Prim2SF_valid x) (Prim2SF_valid y) Nx Ny).
    destruct (Z.compare_spec (key (Prim2SF x)) (key (Prim2SF y))); try reflexivity; lia.
Qed.

Lemma leb_trans (x y z : float) :
  (x <=? y)%float = true -> (y <=? z)%float = true -> (x <=? z)%float = true.
Proof.
  intros H1 H2. apply leb_key in H1, H2. apply leb_key.
  destruct H1 as (? & ? & ?), H2 as (? & ? & ?). repeat split; auto; lia.
Qed.

Lemma IsNaN_spec (x : float) : IsNaN x = false <-> Prim2SF x <> S754_nan.
Proof.
  unfold IsNaN, is_nan. rewrite FloatAxioms.eqb_spec. unfold SFeqb.
  destruct (Prim2SF x) as [s|s| |s m e] eqn:E; cbn [SFcompare].
  - split; [discriminate|reflexivity].
  - destruct s; split; try discriminate; reflexivity.
  - split; [discriminate|congruence].
  - rewrite Z.compare_refl, Pos.compare_cont_refl.
    destruct s; split; try discriminate; reflexivity.
Qed.

Lemma IsInf_spec (x : float) :
  IsInf x = false <-> (forall s, Prim2SF x <> S754_infinity s).
Proof.
  unfold IsInf, is_infinity. rewrite FloatAxioms.eqb_spec, abs_spec. unfold SFeqb.
  change (Prim2SF infinity) with (S754_infinity false).
  destruct (Prim2SF x) as [s|s| |s m e]; cbn [SFabs SFcompare].
  - split; [discriminate|reflexivity].
  - split; [discriminate|]. intros H. exfalso. exact (H s eq_refl).
  - split; [discriminate|reflexivity].
  - split; [discriminate|reflexivity].
Qed.

Lemma checked_finite (x : float) :
  IsNaN x = false -> IsInf x = false -> finite x = true.
Proof.
  intros Hn Hi. apply IsNaN_spec in Hn. pose proof (proj1 (IsInf_spec x) Hi) as Hi'.
  clear Hi. rename Hi' into Hi. unfold finite.
  destruct (Prim2SF x) as [s|s| |s m e]; try reflexivity.
  - exfalso. exact (Hi s eq_refl).
  - congruence.
Qed.

Lemma finite_not_nan (x : float) : finite x = true -> Prim2SF x <> S754_nan.
Proof. unfold finite. destruct (Prim2SF x); try discriminate; congruence. Qed.

(** A finite difference has finite operands; a finite midpoint too. *)
Lemma sub_finite (b a : float) :
  finite (b - a) = true -> finite a = true /\ finite b = true.
Proof.
  unfold finite. rewrite sub_spec. unfold SF64sub.
  destruct (Prim2SF b) as [sb|sb| |sb mb eb], (Prim2SF a) as [sa|sa| |sa ma ea];
    cbn [SFsub finite_or_zero]; try destruct sb; try destruct sa; auto; discriminate.
Qed.

Lemma middle_finite (a b : float) :
  finite (middle a b) = true -> finite (b - a) = true.
Proof.
  unfold middle, finite. rewrite add_spec, div_spec, Prim2SF_two.
  unfold SF64add, SF64div, two.
  destruct (Prim2SF (b - a)) as [s|s| |s m e]; try reflexivity;
    destruct (Prim2SF a) as [sa|sa| |sa ma ea]; cbn [SFdiv SFadd finite_or_zero xorb];
    try destruct sa; try destruct s; auto; discriminate.
Qed.

Lemma middle_between (a b : float) :
  (a <=? b)%float = true ->
  finite (b - a) = true ->
  finite (middle a b) = true /\
  (a <=? middle a b)%float = true /\ (middle a b <=? b)%float = true.
Proof.
  intros Hab Hd.
  destruct (sub_finite b a Hd) as [Fa Fb].
  apply leb_key in Hab. destruct Hab as (Na & Nb & Hk).
  rewrite (finite_key a Fa), (finite_key b Fb) in Hk.
  destruct (middle_between_spec (Prim2SF a) (Prim2SF b) (Prim2SF (b - a))
              (Prim2SF ((b - a) / 2)) (Prim2SF (middle a b))) as [Fm Hm];
    try apply Prim2SF_valid; auto.
  - apply sub_spec.
  - rewrite div_spec, Prim2SF_two. reflexivity.
  - unfold middle. apply add_spec.
  - split; [exact Fm|].
    pose proof (finite_not_nan _ Fm).
    split; apply leb_key;
      rewrite ?(finite_key a Fa), ?(finite_key b Fb), ?(finite_key _ Fm);
      repeat split; auto; lia.
Qed.


(** ** The bracket stays inside the bounds *)

Lemma leb_left (x y : float) : (x <=? y)%float = true -> (x <=? x)%float = true.
Proof.
  intros H. apply leb_key in H. destruct H as (Nx & _ & _).
  apply leb_key. repeat split; auto. lia.
Qed.

Lemma leb_right (x y : float) : (x <=? y)%float = true -> (y <=? y)%float = true.
Proof.
  intros H. apply leb_key in H. destruct H as (_ & Ny & _).
  apply leb_key. repeat split; auto. lia.
Qed.

(** After the swap the bounds are in order, provided none is NaN. *)
Lemma replace_borders_ordered (minX maxX : float) :
  IsNaN minX = false -> IsNaN maxX = false ->
  (fst (replace_borders minX maxX) <=? snd (replace_borders minX maxX))%float = true.
Proof.
  intros Hn Hx. apply IsNaN_spec in Hn, Hx. unfold replace_borders.
  destruct (maxX <? minX)%float eqn:Hlt; cbn [fst snd].
  - apply ltb_key in Hlt. apply leb_key. destruct Hlt as (? & ? & ?).
    repeat split; auto. lia.
  - apply leb_key. repeat split; auto.
    destruct (Z.le_gt_cases (fkey minX) (fkey maxX)) as [|Hgt]; [assumption|].
    assert (H : (maxX <? minX)%float = true) by (apply ltb_key; repeat split; auto; lia).
    congruence.
Qed.

Lemma abs_lt_finite (w p : float) : (Abs w <? p)%float = true -> finite w = true.
Proof.
  unfold Abs, finite. rewrite FloatAxioms.ltb_spec, abs_spec. unfold SFltb.
  destruct (Prim2SF w) as [s|s| |s m e]; cbn [SFabs finite_or_zero]; auto.
  destruct (Prim2SF p) as [sp|sp| |sp mp ep]; cbn [SFcompare];
    try destruct sp; discriminate.
Qed.

Lemma div_finite (d l : float) : finite (d / l) = true -> finite d = true.
Proof.
  unfold finite. rewrite div_spec. unfold SF64div.
  destruct (Prim2SF d) as [s|s| |s m e]; auto;
    destruct (Prim2SF l) as [sl|sl| |sl ml el]; cbn [SFdiv finite_or_zero]; auto.
Qed.

Lemma converged_finite_width (prec : float) (v : vars) :
  converged prec v = true -> finite (xRigth v - xLeft v) = true.
Proof.
  unfold converged.
  destruct (xLeft v =? 0)%float; intros H; apply andb_true_iff in H; destruct H as [_ H];
    apply abs_lt_finite in H; [exact H|].
  exact (div_finite _ _ H).
Qed.

Lemma bracketed_root (a b : float) (v : vars) :
  bracketed a b v -> finite (xRigth v - xLeft v) = true ->
  (xLeft v <=? xRoot v)%float = true /\ (xRoot v <=? xRigth v)%float = true /\
  within_bounds a b (xRoot v).
Proof.
  intros (Ha & Hlr & Hb & Hroot) Hfin.
  destruct (middle_between _ _ Hlr Hfin) as (_ & H1 & H2).
  rewrite Hroot. repeat split; auto.
  - exact (leb_trans _ _ _ Ha H1).
  - exact (leb_trans _ _ _ H2 Hb).
Qed.

Lemma not_valid_finite (x y : float) : not_valid x y = None -> finite x = true.
Proof.
  intros H. apply not_valid_none in H.
  apply orb_false_iff in H. destruct H as [H _].
  apply orb_false_iff in H. destruct H as [H Hinf].
  apply orb_false_iff in H. destruct H as [Hnan _].
  apply checked_finite; assumption.
Qed.

(** A pass that goes on keeps the bracket inside the bounds. *)
Lemma bracket_step (a b : float) (v v1 : vars) (y : float) :
  bracketed a b v ->
  bracket v = Some v1 ->
  not_valid (middle (xLeft v1) (xRigth v1)) y = None ->
  bracketed a b {| xLeft := xLeft v1; yLeft := yLeft v1;
                   xRoot := middle (xLeft v1) (xRigth v1); yRoot := y;
                   xRigth := xRigth v1; yRigth := yRigth v1 |}.
Proof.
  intros Hv Hb Hnv.
  pose proof (not_valid_finite _ _ Hnv) as Hfin.
  apply middle_finite in Hfin. destruct (sub_finite _ _ Hfin) as [Fl Fr].
  destruct Hv as (Ha & Hlr & Hrb & Hroot).
  assert (Hmid : finite (xRoot v) = true).
  { unfold bracket in Hb.
    destruct (negb (Bool.eqb (Signbit (yLeft v)) (Signbit (yRoot v))));
      [|destruct (negb (Bool.eqb (Signbit (yRoot v)) (Signbit (yRigth v))))];
      inversion Hb; subst v1; cbn [xLeft xRigth] in *; assumption. }
  rewrite Hroot in Hmid. apply middle_finite in Hmid.
  destruct (middle_between _ _ Hlr Hmid) as (_ & H1 & H2). rewrite <- Hroot in H1, H2.
  unfold bracket in Hb. unfold bracketed. cbn [xLeft xRigth xRoot].
  destruct (negb (Bool.eqb (Signbit (yLeft v)) (Signbit (yRoot v))));
    [|destruct (negb (Bool.eqb (Signbit (yRoot v)) (Signbit (yRigth v))))];
    inversion Hb; subst v1; cbn [xLeft xRigth] in *; repeat split; auto.
  - exact (leb_trans _ _ _ H2 Hrb).
  - exact (leb_trans _ _ _ Ha H1).
Qed.


(** ** The root lies within the bounds *)

Section Bounds.
Context {St : Type}.
Variable cfg : Config.
Variable f : evaluator St.
Variables a b : float.

Lemma enter_bounds (minX maxX : float) (s : state St) :
  replace_borders minX maxX = (a, b) ->
  (a <=? b)%float = true ->
  outcome (fun v _ => bracketed a b v) (inside a b) (enter cfg f minX maxX s).
Proof.
  intros Hrb Hab. unfold enter. rewrite Hrb.
  pose proof (leb_left a b Hab) as Haa. pose proof (leb_right a b Hab) as Hbb.
  steps; unfold inside, bracketed, within_bounds, set_err, set_root, logged;
    cbn [root err xLeft xRigth xRoot]; auto; congruence.
Qed.

Lemma iteration_bounds (iter : Z) (v : vars) (s : state St) :
  bracketed a b v ->
  outcome (fun c _ => match c with
                      | Continue v' => bracketed a b v'
                      | Break => within_bounds a b (xRoot v)
                      end)
          failed (iteration cfg f iter v s).
Proof.
  intros Hv. unfold iteration.
  steps; unfold failed, set_err; cbn [err]; try congruence.
  - match goal with H : converged _ _ = true |- _ =>
      apply converged_finite_width in H;
      exact (proj2 (proj2 (bracketed_root a b v Hv H)))
    end.
  - match goal with
    | Hb : bracket v = Some ?v1, Hn : not_valid _ _ = None |- _ =>
        exact (bracket_step a b v v1 _ Hv Hb Hn)
    end.
Qed.

Lemma loop_bounds (fuel : nat) :
  forall (iter : Z) (v : vars) (s : state St),
    bracketed a b v ->
    outcome (fun v' _ => within_bounds a b (xRoot v')) failed
            (loop cfg f fuel iter v s).
Proof.
  induction fuel as [|fuel IH]; intros iter v s Hv; rewrite loop_unfold;
    apply outcome_bind;
    (eapply outcome_weaken; [apply iteration_bounds; exact Hv | | auto]);
    intros [v'|] s' H; simpl; auto; unfold failed; congruence.
Qed.

Lemma body_bounds (minX maxX : float) (s : state St) :
  replace_borders minX maxX = (a, b) ->
  (a <=? b)%float = true ->
  outcome (fun _ _ => True) (inside a b) (body cfg f minX maxX s).
Proof.
  intros Hrb Hab. unfold body. apply outcome_bind.
  eapply outcome_weaken; [apply enter_bounds; assumption | | auto].
  intros v0 s0 H0. apply outcome_bind.
  eapply outcome_weaken; [apply loop_bounds; exact H0 | | ].
  2:{ intros x s1 H Hx He. exfalso. exact (H Hx He). }
  intros v1 s1 H1.
  steps; unfold inside, set_err, set_root, logged; cbn [root err]; auto; congruence.
Qed.

(** For every evaluator, stateful or not: a root handed back without error
    is within the normalized bounds, when these are in order. *)
Lemma Find_within_bounds (minX maxX : float) (e0 : St) (r : float) :
  replace_borders minX maxX = (a, b) ->
  (a <=? b)%float = true ->
  Find cfg f minX maxX e0 = (r, None) ->
  within_bounds a b r.
Proof.
  intros Hrb Hab. unfold Find, run_Find. intros H.
  pose proof (body_bounds minX maxX (initial e0) Hrb Hab) as Hout.
  destruct (body_terminates cfg f minX maxX (initial e0)) as (s' & [Hb|[v Hb]]);
    rewrite Hb in *; simpl in *; inversion H; subst.
  apply Hout; auto.
Qed.

End Bounds.

(** C1 does not hold for all bounds: when a bound is NaN nothing is swapped,
    NaN is evaluated like any other point, and [Find] hands it back as a
    root, without error, although NaN is within no bounds. *)
Lemma nan_root_out_of_bounds :
  Find default flat nan 1 tt = (nan, None) /\
  replace_borders nan 1 = (nan, 1%float) /\
  (nan <=? nan)%float = false /\
  (nan <=? 1)%float = false /\
  IsNaN nan = true.
Proof.
  repeat split; vm_compute; reflexivity.
Qed.

(** C1, as the code has it.  For every stateless evaluator [g] and every
    bounds of which none is NaN, if [Find] returns a root [r] with a nil
    error then [r] lies within the normalized bounds, which are the given
    bounds in increasing order, and [g] returns at [r], without error, a
    value [y] with [|y| < Precision]. *)
Theorem root_within_bounds_and_precise :
  forall (cfg : Config) (g : float -> reply) (minX maxX r : float),
    IsNaN minX = false ->
    IsNaN maxX = false ->
    Find cfg (pure g) minX maxX tt = (r, None) ->
    let lo := fst (replace_borders minX maxX) in
    let hi := snd (replace_borders minX maxX) in
    ((lo = minX /\ hi = maxX) \/ (lo = maxX /\ hi = minX)) /\
    (lo <=? hi)%float = true /\
    (lo <=? r)%float = true /\
    (r <=? hi)%float = true /\
    exists y, g r = Returns y None /\ (Abs y <? Precision cfg)%float = true.
Proof.
  intros cfg g minX maxX r Hmin Hmax HFind lo hi.
  pose proof (replace_borders_ordered minX maxX Hmin Hmax) as Hord. fold lo hi in Hord.
  assert (Hrb : replace_borders minX maxX = (lo, hi)).
  { unfold lo, hi. destruct (replace_borders minX maxX); reflexivity. }
  destruct (Find_within_bounds cfg (pure g) lo hi minX maxX tt r Hrb Hord HFind) as [H1 H2].
  split.
  { unfold lo, hi, replace_borders. destruct (maxX <? minX)%float; cbn [fst snd]; auto. }
  repeat split; auto.
  exact (Find_precise cfg g minX maxX r HFind).
Qed.

Lemma root_within_bounds_and_precise_witness :
  IsNaN 10 = false /\ IsNaN (-10) = false /\
  Find default (pure (fun x => Returns (2 * x + 1)%float None)) 10 (-10) tt =
    (-0x1.fffffep-2, None)%float /\
  (-10 <=? -0x1.fffffep-2)%float = true /\
  (-0x1.fffffep-2 <=? 10)%float = true /\
  exists y, Returns (2 * -0x1.fffffep-2 + 1)%float None = Returns y None /\
            (Abs y <? Precision default)%float = true.
Proof.
  split; [vm_compute; reflexivity|].
  split; [vm_compute; reflexivity|].
  split; [vm_compute; reflexivity|].
  refine (proj2 (proj2 (root_within_bounds_and_precise default
                          (fun x => Returns (2 * x + 1)%float None)
                          10%float (-10)%float (-0x1.fffffep-2)%float _ _ _)));
    vm_compute; reflexivity.
Defined.

(** * Further properties of [Find] *)

(** ** Invariants of a call

    A property [I] of the loop variables that every pass keeps, with a
    property [E] of the frame wherever the call is left, holds of the frame
    from which [Find] reads its results. *)

Section Invariants.
Context {St : Type}.
Variable cfg : Config.
Variable f : evaluator St.
Variable I : Z -> vars -> state St -> Prop.
Variable B : vars -> state St -> Prop.
Variable E : exit -> state St -> Prop.

Hypothesis pass : forall iter v s,
  I iter v s ->
  outcome (fun c s' => match c with
                       | Continue v' => I (iter + 1)%Z v' s'
                       | Break => B v s'
                       end)
          E (iteration cfg f iter v s).

Hypothesis last : forall v s,
  B v s -> outcome (fun (_ : unit) _ => True) E (confirm f (xRoot v) s).

Lemma loop_invariant (fuel : nat) :
  forall (iter : Z) (v : vars) (s : state St),
    I iter v s ->
    outcome B (fun x s' => x <> ByFuel -> E x s') (loop cfg f fuel iter v s).
Proof.
  induction fuel as [|fuel IH]; intros iter v s Hv; rewrite loop_unfold;
    apply outcome_bind;
    (eapply outcome_weaken; [apply pass; exact Hv | | auto]);
    intros [v'|] s' H; simpl; auto; congruence.
Qed.

Lemma body_invariant (minX maxX : float) (s : state St) :
  outcome (I 0%Z) E (enter cfg f minX maxX s) ->
  outcome (fun _ _ => True) (fun x s' => x <> ByFuel -> E x s') (body cfg f minX maxX s).
Proof.
  intros Henter. unfold body. apply outcome_bind.
  eapply outcome_weaken; [exact Henter | | auto].
  intros v0 s0 H0. apply outcome_bind.
  eapply outcome_weaken; [apply loop_invariant; exact H0 | | auto].
  intros v1 s1 H1.
  eapply outcome_weaken; [apply last; exact H1 | | auto]. auto.
Qed.

(** What holds when the body is left holds of the frame [Find] reads its
    results from; after a panic the deferred function has set [err]. *)
Lemma run_invariant (minX maxX : float) (e0 : St) :
  outcome (I 0%Z) E (enter cfg f minX maxX (initial e0)) ->
  E ByReturn (run_Find cfg f minX maxX e0) \/
  exists r s, E (ByPanic r) s /\
              run_Find cfg f minX maxX e0 =
                set_err (Some (ErrorFind Recovery (Errorf "%#v" [OValue r]))) s.
Proof.
  intros Henter. pose proof (body_invariant minX maxX (initial e0) Henter) as Hout.
  unfold run_Find.
  destruct (body_terminates cfg f minX maxX (initial e0)) as (s' & [Hb|[r Hb]]);
    rewrite Hb in *; simpl in *.
  - left. apply Hout. discriminate.
  - right. exists r, s'. split; [apply Hout; discriminate | reflexivity].
Qed.

End Invariants.

(** Rewriting with the replies of a stateless evaluator. *)
Ltac stateless :=
  unfold pure, set_err, set_root, logged in *; cbn [ev calls root err] in *;
  repeat match goal with
         | H : (_, _) = (_, _) |- _ => inversion H; clear H
         | H : first_error [_; _; _] = None |- _ =>
             apply first_error_three in H; destruct H as (? & ? & ?)
         end;
  subst.

(** ** Sign changes

    The right sample keeps the value of an earlier right end (C2), but once
    the two samples at the ends differ in sign it keeps the sign of the value
    at its abscissa: the sign comparison then behaves as that of the
    bisection. *)

(** The half that a pass keeps has samples of opposite sign bits at its ends
    when the bracket had. *)
Lemma bracket_signs (v v1 : vars) :
  bracket v = Some v1 ->
  Signbit (yLeft v) <> Signbit (yRigth v) ->
  Signbit (yLeft v1) <> Signbit (yRigth v1) /\
  ((xLeft v1 = xLeft v /\ yLeft v1 = yLeft v /\ xRigth v1 = xRoot v /\
    yRigth v1 = yRigth v /\ Signbit (yRoot v) = Signbit (yRigth v)) \/
   (xLeft v1 = xRoot v /\ yLeft v1 = yRoot v /\ xRigth v1 = xRigth v /\
    yRigth v1 = yRigth v)).
Proof.
  unfold bracket. intros H Hs.
  destruct (Signbit (yLeft v)) eqn:E1, (Signbit (yRoot v)) eqn:E2,
           (Signbit (yRigth v)) eqn:E3; simpl in H;
    try congruence; inversion H; subst v1; cbn [xLeft yLeft xRigth yRigth];
    rewrite ?E1, ?E2, ?E3; split; try congruence; auto 10.
Qed.

Lemma bracket_exists (v : vars) :
  Signbit (yLeft v) <> Signbit (yRigth v) -> bracket v <> None.
Proof.
  intros H. apply bracket_kept.
  destruct (Signbit (yLeft v)), (Signbit (yRoot v)), (Signbit (yRigth v));
    try congruence; auto; right; congruence.
Qed.

Section Signs.
Context {St : Type}.
Variable cfg : Config.
Variable f : evaluator St.

Lemma iteration_signs (iter : Z) (v : vars) (s : state St) :
  Signbit (yLeft v) <> Signbit (yRigth v) ->
  outcome (fun c _ => match c with
                      | Continue v' => Signbit (yLeft v') <> Signbit (yRigth v')
                      | Break => True
                      end)
          (fun _ _ => True) (iteration cfg f iter v s).
Proof.
  intros Hv. unfold iteration. steps; auto.
  cbn [yLeft yRigth].
  match goal with
  | Hb : bracket v = Some ?v1 |- _ => exact (proj1 (bracket_signs v v1 Hb Hv))
  end.
Qed.

Lemma head_signs (minX maxX : float) (e0 : St) (v0 : vars) (s0 : state St) :
  head cfg f minX maxX e0 0 = Some (v0, s0) ->
  Signbit (yLeft v0) <> Signbit (yRigth v0) ->
  forall (n : nat) (v : vars) (s : state St),
    head cfg f minX maxX e0 n = Some (v, s) ->
    Signbit (yLeft v) <> Signbit (yRigth v).
Proof.
  intros H0 Hs0 n. induction n as [|n IH]; intros v s H.
  - rewrite H0 in H. inversion H; subst. exact Hs0.
  - simpl in H.
    destruct (head cfg f minX maxX e0 n) as [[v1 s1]|]; [|discriminate].
    pose proof (iteration_signs (Z.of_nat n) v1 s1 (IH _ _ eq_refl)) as Hout.
    destruct (iteration cfg f (Z.of_nat n) v1 s1) as [[[v2|]| |r|] s2]; try discriminate.
    inversion H; subst. exact Hout.
Qed.

End Signs.

(** X1. Once the samples at the two ends of the bracket differ in sign bit at
    the entry of the loop, they do at the start of every pass, for every
    evaluator, and the sign comparison of every pass keeps a half: the loop
    never takes its "No root" exit. *)
Theorem opposite_signs_keep_a_half :
  forall (St : Type) (cfg : Config) (f : evaluator St) (minX maxX : float) (e0 : St)
         (v0 : vars) (s0 : state St),
    head cfg f minX maxX e0 0 = Some (v0, s0) ->
    Signbit (yLeft v0) <> Signbit (yRigth v0) ->
    forall (n : nat) (v : vars) (s : state St),
      head cfg f minX maxX e0 n = Some (v, s) ->
      Signbit (yLeft v) <> Signbit (yRigth v) /\ bracket v <> None.
Proof.
  intros St cfg f minX maxX e0 v0 s0 H0 Hs0 n v s H.
  pose proof (head_signs cfg f minX maxX e0 v0 s0 H0 Hs0 n v s H) as Hs.
  split; [exact Hs|]. apply bracket_exists. exact Hs.
Qed.

Lemma opposite_signs_keep_a_half_witness :
  head default shifted 0 1 tt 0 =
    Some ({| xLeft := 0; yLeft := -0.3125; xRoot := 0.5; yRoot := 0.1875;
             xRigth := 1; yRigth := 0.6875 |},
          {| ev := tt;
             calls := [(0, Returns (-0.3125) None); (0.5, Returns 0.1875 None);
                       (1, Returns 0.6875 None)]%float;
             root := 0; err := None |}) /\
  Signbit (-0.3125) <> Signbit 0.6875 /\
  Signbit (-0.3125) <> Signbit 0.6875 /\
  bracket {| xLeft := 0; yLeft := -0.3125; xRoot := 0.25; yRoot := -0.0625;
             xRigth := 0.5; yRigth := 0.6875 |} <> None.
Proof.
  split; [vm_compute; reflexivity|].
  split; [vm_compute; discriminate|].
  refine (opposite_signs_keep_a_half unit default shifted 0%float 1%float tt
            {| xLeft := 0; yLeft := -0.3125; xRoot := 0.5; yRoot := 0.1875;
               xRigth := 1; yRigth := 0.6875 |}
            {| ev := tt;
               calls := [(0, Returns (-0.3125) None); (0.5, Returns 0.1875 None);
                         (1, Returns 0.6875 None)]%float;
               root := 0; err := None |} _ _
            1%nat
            {| xLeft := 0; yLeft := -0.3125; xRoot := 0.25; yRoot := -0.0625;
               xRigth := 0.5; yRigth := 0.6875 |}
            {| ev := tt;
               calls := [(0, Returns (-0.3125) None); (0.5, Returns 0.1875 None);
                         (1, Returns 0.6875 None);
                         (0.25, Returns (-0.0625) None)]%float;
               root := 0; err := None |} _).
  - vm_compute. reflexivity.
  - vm_compute. discriminate.
  - vm_compute. reflexivity.
Defined.

Section Enclosure.
Variable cfg : Config.
Variable g : float -> reply.
Variables lo hi : float.

Lemma enter_enclosing (minX maxX : float) (s : state unit) :
  replace_borders minX maxX = (lo, hi) ->
  (lo <=? hi)%float = true ->
  sign_change g lo hi ->
  outcome (fun v _ => enclosing g v /\ bracketed lo hi v) (enclosed_exit cfg g lo hi)
          (enter cfg (pure g) minX maxX s).
Proof.
  intros Hrb Hord (ya & yb & Ha & Hb & Hab). unfold enter. rewrite Hrb.
  pose proof (leb_left lo hi Hord) as Haa. pose proof (leb_right lo hi Hord) as Hbb.
  steps; unfold enclosed_exit, enclosed, enclosing, bracketed; stateless;
    cbn [xLeft yLeft xRoot yRoot xRigth yRigth]; auto; try congruence.
  repeat split; auto; try congruence.
  exists y1. split; [assumption|reflexivity].
Qed.

Lemma iteration_enclosing (iter : Z) (v : vars) (s : state unit) :
  enclosing g v /\ bracketed lo hi v ->
  outcome (fun c _ => match c with
                      | Continue v' => enclosing g v' /\ bracketed lo hi v'
                      | Break => (enclosing g v /\ bracketed lo hi v) /\
                                 converged (Precision cfg) v = true
                      end)
          (enclosed_exit cfg g lo hi) (iteration cfg (pure g) iter v s).
Proof.
  intros [(Hl & Hm & (yr & Hr & Hsr) & Hs) Hv]. unfold iteration.
  steps; unfold enclosed_exit; stateless; try congruence.
  - split; [split; [|exact Hv]|reflexivity].
    unfold enclosing. repeat split; auto. exists yr. auto.
  - match goal with
    | Hb : bracket v = Some ?v1, Hn : not_valid _ _ = None |- _ =>
        split; [|exact (bracket_step lo hi v v1 _ Hv Hb Hn)];
        destruct (bracket_signs v v1 Hb Hs) as [Hs1 [(E1 & E2 & E3 & E4 & E5)|(E1 & E2 & E3 & E4)]];
        unfold enclosing; cbn [xLeft yLeft xRoot yRoot xRigth yRigth];
        rewrite ?E1, ?E2, ?E3, ?E4 in *; repeat split; auto
    end.
    + exists (yRoot v). split; [assumption|congruence].
    + exists yr. split; assumption.
Qed.

Lemma confirm_enclosing (v : vars) (s : state unit) :
  (enclosing g v /\ bracketed lo hi v) /\ converged (Precision cfg) v = true ->
  outcome (fun (_ : unit) _ => True) (enclosed_exit cfg g lo hi)
          (confirm (pure g) (xRoot v) s).
Proof.
  intros [[(Hl & Hm & (yr & Hr & Hsr) & Hs) Hv] Hc].
  pose proof (converged_finite_width _ _ Hc) as Hfin.
  destruct (bracketed_root lo hi v Hv Hfin) as (H1 & H2 & _).
  destruct Hv as (Ha & _ & Hb & Hroot).
  steps; unfold enclosed_exit, enclosed; stateless; try congruence.
  intros _ _. right. right. exists v. repeat split; auto.
  - exists (yLeft v), yr. repeat split; auto. congruence.
  - rewrite converged_spec in Hc. unfold spec_converged in Hc.
    apply andb_true_iff in Hc. tauto.
Qed.

End Enclosure.

(** X2. The contract of the bisection, for a stateless evaluator [g] and
    bounds of which none is NaN: when [g] returns values of opposite sign
    bits at the two bounds and [Find] returns a root [r] without error, then
    [r] is one of the bounds, or the midpoint of a bracket [[l, h]] inside the
    bounds with [l <= r <= h], of width below [Precision] (absolute when
    [l == 0], relative to [l] otherwise), at the ends of which [g] returns
    values of opposite sign bits. *)
Theorem sign_change_is_enclosed :
  forall (cfg : Config) (g : float -> reply) (minX maxX r : float),
    let lo := fst (replace_borders minX maxX) in
    let hi := snd (replace_borders minX maxX) in
    IsNaN minX = false ->
    IsNaN maxX = false ->
    sign_change g lo hi ->
    Find cfg (pure g) minX maxX tt = (r, None) ->
    enclosed cfg g lo hi r.
Proof.
  intros cfg g minX maxX r lo hi Hmin Hmax Hsc HFind.
  pose proof (replace_borders_ordered minX maxX Hmin Hmax) as Hord. fold lo hi in Hord.
  assert (Hrb : replace_borders minX maxX = (lo, hi)).
  { unfold lo, hi. destruct (replace_borders minX maxX); reflexivity. }
  unfold Find in HFind.
  destruct (run_invariant cfg (pure g)
              (fun _ v _ => enclosing g v /\ bracketed lo hi v)
              (fun v _ => (enclosing g v /\ bracketed lo hi v) /\
                          converged (Precision cfg) v = true)
              (enclosed_exit cfg g lo hi)) with minX maxX tt
    as [H|(p & s & _ & Hrun)].
  - intros iter v s H. apply iteration_enclosing. exact H.
  - intros v s H. apply confirm_enclosing. exact H.
  - apply enter_enclosing; assumption.
  - inversion HFind as [[Hr He]]. rewrite He in *. apply H; auto.
  - rewrite Hrun in HFind. discriminate.
Qed.

Lemma sign_change_is_enclosed_witness :
  IsNaN 10 = false /\ IsNaN (-10) = false /\
  sign_change (fun x => Returns (2 * x + 1)%float None)
    (fst (replace_borders 10 (-10))) (snd (replace_borders 10 (-10))) /\
  Find default (pure (fun x => Returns (2 * x + 1)%float None)) 10 (-10) tt =
    (-0x1.fffffep-2, None)%float /\
  enclosed default (fun x => Returns (2 * x + 1)%float None)
    (fst (replace_borders 10 (-10))) (snd (replace_borders 10 (-10)))
    (-0x1.fffffep-2)%float.
Proof.
  assert (Hs : sign_change (fun x => Returns (2 * x + 1)%float None)
                 (fst (replace_borders 10 (-10))) (snd (replace_borders 10 (-10)))).
  { exists (-19)%float, 21%float.
    split; [vm_compute; reflexivity|]. split; [vm_compute; reflexivity|].
    vm_compute. discriminate. }
  split; [vm_compute; reflexivity|].
  split; [vm_compute; reflexivity|].
  split; [exact Hs|].
  split; [vm_compute; reflexivity|].
  apply (sign_change_is_enclosed default (fun x => Returns (2 * x + 1)%float None)
           10%float (-10)%float (-0x1.fffffep-2)%float).
  - vm_compute. reflexivity.
  - vm_compute. reflexivity.
  - exact Hs.
  - vm_compute. reflexivity.
Defined.

(** ** The log of a call without error *)

Section Clean.
Context {St : Type}.
Variable cfg : Config.
Variable f : evaluator St.

Lemma clean_app (lo hi : float) (l : list (float * reply)) (x y : float) :
  clean lo hi l -> clean lo hi (l ++ [(x, Returns y None)]).
Proof.
  intros (yl & ym & yh & l' & -> & Hl).
  exists yl, ym, yh, (l' ++ [(x, Returns y None)]). split; [reflexivity|].
  apply Forall_app. split; [exact Hl|].
  constructor; [|constructor]. exists y. reflexivity.
Qed.

Lemma enter_clean (minX maxX : float) (e0 : St) :
  outcome (fun _ s => clean (fst (replace_borders minX maxX))
                            (snd (replace_borders minX maxX)) (calls s))
          (clean_exit (fst (replace_borders minX maxX)) (snd (replace_borders minX maxX)))
          (enter cfg f minX maxX (initial e0)).
Proof.
  unfold enter. destruct (replace_borders minX maxX) as [a b]. cbn [fst snd].
  steps; unfold clean_exit, set_err, set_root, logged; cbn [calls err root];
    try congruence;
    repeat match goal with
           | H : first_error [_; _; _] = None |- _ =>
               apply first_error_three in H; destruct H as (? & ? & ?)
           end; subst.
  - intros _ ->. eexists _, _. split; [|reflexivity].
    eexists _, _, _, []. split; [reflexivity|constructor].
  - intros _ ->. eexists _, _. split; [|reflexivity].
    eexists _, _, _, []. split; [reflexivity|constructor].
  - eexists _, _, _, []. split; [reflexivity|constructor].
Qed.

Lemma iteration_clean (lo hi : float) (iter : Z) (v : vars) (s : state St) :
  clean lo hi (calls s) ->
  outcome (fun _ s' => clean lo hi (calls s')) (clean_exit lo hi)
          (iteration cfg f iter v s).
Proof.
  intros Hs. unfold iteration.
  steps; unfold clean_exit, set_err, logged; cbn [calls err]; try congruence.
  apply clean_app. exact Hs.
Qed.

Lemma confirm_clean (lo hi : float) (x : float) (s : state St) :
  clean lo hi (calls s) ->
  outcome (fun (_ : unit) _ => True) (clean_exit lo hi) (confirm f x s).
Proof.
  intros Hs. steps; unfold clean_exit, set_err, set_root, logged; cbn [calls err root];
    try congruence.
  intros _ ->. exists (calls s), y. split; [exact Hs|reflexivity].
Qed.

End Clean.

(** X3. No failure of the evaluator is lost, and the last operation of
    [Find] is an evaluation at its root: when a call returns without error,
    for every evaluator, every evaluation it made has returned without error
    and without panic; the three first were at the lower bound, at the
    midpoint of the bounds and at the upper bound, and the last was at the
    root that the call returns. *)
Theorem success_means_no_evaluation_failed :
  forall (St : Type) (cfg : Config) (f : evaluator St) (minX maxX : float) (e0 : St),
    err (run_Find cfg f minX maxX e0) = None ->
    exists yl ym yh l y,
      calls (run_Find cfg f minX maxX e0) =
        (fst (replace_borders minX maxX), Returns yl None)
        :: (middle (fst (replace_borders minX maxX)) (snd (replace_borders minX maxX)),
            Returns ym None)
        :: (snd (replace_borders minX maxX), Returns yh None)
        :: l ++ [(root (run_Find cfg f minX maxX e0), Returns y None)] /\
      Forall answered l.
Proof.
  intros St cfg f minX maxX e0 Herr.
  set (lo := fst (replace_borders minX maxX)).
  set (hi := snd (replace_borders minX maxX)).
  destruct (run_invariant cfg f (fun _ _ s => clean lo hi (calls s))
              (fun _ s => clean lo hi (calls s)) (clean_exit lo hi)) with minX maxX e0
    as [H|(r & s & _ & Hrun)].
  - intros iter v s H.
    eapply outcome_weaken; [apply iteration_clean; exact H | | auto].
    intros [v'|] s' H'; exact H'.
  - intros v s H. apply confirm_clean. exact H.
  - apply enter_clean.
  - destruct (H eq_refl Herr) as (l & y & (yl & ym & yh & l' & -> & Hl') & Hc).
    exists yl, ym, yh, l', y. split; [exact Hc|exact Hl'].
  - rewrite Hrun in Herr. discriminate.
Qed.

Lemma success_means_no_evaluation_failed_witness :
  err (run_Find default (pure (fun x => Returns (2 * x + 1)%float None)) 10 (-10) tt) = None /\
  exists yl ym yh l y,
    calls (run_Find default (pure (fun x => Returns (2 * x + 1)%float None)) 10 (-10) tt) =
      (fst (replace_borders 10 (-10)), Returns yl None)
      :: (middle (fst (replace_borders 10 (-10))) (snd (replace_borders 10 (-10))),
          Returns ym None)
      :: (snd (replace_borders 10 (-10)), Returns yh None)
      :: l ++ [(root (run_Find default (pure (fun x => Returns (2 * x + 1)%float None))
                        10 (-10) tt), Returns y None)] /\
    Forall answered l.
Proof.
  split; [vm_compute; reflexivity|].
  apply (success_means_no_evaluation_failed unit default
           (pure (fun x => Returns (2 * x + 1)%float None)) 10%float (-10)%float tt).
  vm_compute. reflexivity.
Defined.

Section Probed.
Context {St : Type}.
Variable cfg : Config.
Variable f : evaluator St.

Ltac probe_goal :=
  unfold probed_exit, probed, set_err, set_root, logged in *; cbn [calls err root] in *;
  repeat match goal with
         | H : first_error [_; _; _] = None |- _ =>
             apply first_error_three in H; destruct H as (? & ? & ?)
         end;
  subst; try congruence.

Lemma enter_probed (minX maxX : float) (s : state St) :
  outcome (fun v s' => In (xRoot v, Returns (yRoot v) None) (calls s'))
          (probed_exit cfg) (enter cfg f minX maxX s).
Proof.
  unfold enter. destruct (replace_borders minX maxX) as [a b].
  steps; probe_goal; cbn [xRoot yRoot].
  - intros _ ->. eexists _, _. split; [reflexivity|].
    eexists. split; [|eassumption]. repeat rewrite in_app_iff. cbn [In]. auto 10.
  - intros _ ->. eexists _, _. split; [reflexivity|].
    eexists. split; [|eassumption]. repeat rewrite in_app_iff. cbn [In]. auto 10.
  - repeat rewrite in_app_iff. cbn [In]. auto 10.
Qed.

Lemma iteration_probed (iter : Z) (v : vars) (s : state St) :
  In (xRoot v, Returns (yRoot v) None) (calls s) ->
  outcome (fun c s' => match c with
                       | Continue v' => In (xRoot v', Returns (yRoot v') None) (calls s')
                       | Break => In (xRoot v, Returns (yRoot v) None) (calls s') /\
                                  converged (Precision cfg) v = true
                       end)
          (probed_exit cfg) (iteration cfg f iter v s).
Proof.
  intros Hs. unfold iteration.
  steps; probe_goal; cbn [xRoot yRoot]; auto.
  rewrite in_app_iff. cbn [In]. auto.
Qed.

Lemma confirm_probed (v : vars) (s : state St) :
  In (xRoot v, Returns (yRoot v) None) (calls s) /\ converged (Precision cfg) v = true ->
  outcome (fun (_ : unit) _ => True) (probed_exit cfg) (confirm f (xRoot v) s).
Proof.
  intros [Hs Hc]. apply (converged_small cfg) in Hc.
  steps; probe_goal.
  intros _ ->. eexists _, _. split; [reflexivity|]. exists (yRoot v). auto.
Qed.

End Probed.

(** X4. The precision of the root, for every evaluator, with or without
    state: when a call returns a root without error, the evaluator has
    returned at this root, earlier in the call and without error, a value [y]
    with [|y| < Precision]; the last evaluation, at the root again, came
    after. *)
Theorem root_was_probed :
  forall (St : Type) (cfg : Config) (f : evaluator St) (minX maxX : float) (e0 : St),
    err (run_Find cfg f minX maxX e0) = None ->
    exists l y0 y,
      calls (run_Find cfg f minX maxX e0) =
        l ++ [(root (run_Find cfg f minX maxX e0), Returns y0 None)] /\
      In (root (run_Find cfg f minX maxX e0), Returns y None) l /\
      (Abs y <? Precision cfg)%float = true.
Proof.
  intros St cfg f minX maxX e0 Herr.
  destruct (run_invariant cfg f
              (fun _ v s => In (xRoot v, Returns (yRoot v) None) (calls s))
              (fun v s => In (xRoot v, Returns (yRoot v) None) (calls s) /\
                          converged (Precision cfg) v = true)
              (probed_exit cfg)) with minX maxX e0
    as [H|(p & s & _ & Hrun)].
  - intros iter v s H. apply iteration_probed. exact H.
  - intros v s H. apply confirm_probed. exact H.
  - apply enter_probed.
  - destruct (H eq_refl Herr) as (l & y0 & Hc & y & Hin & Hy).
    exists l, y0, y. auto.
  - rewrite Hrun in Herr. discriminate.
Qed.

Lemma root_was_probed_witness :
  err (run_Find default shifted 0 1 tt) = None /\
  exists l y0 y,
    calls (run_Find default shifted 0 1 tt) =
      l ++ [(root (run_Find default shifted 0 1 tt), Returns y0 None)] /\
    In (root (run_Find default shifted 0 1 tt), Returns y None) l /\
    (Abs y <? Precision default)%float = true.
Proof.
  split; [vm_compute; reflexivity|].
  apply (root_was_probed unit default shifted 0%float 1%float tt).
  vm_compute. reflexivity.
Defined.

(** ** The errors of a call *)

Section Reported.
Context {St : Type}.
Variable cfg : Config.
Variable f : evaluator St.

Lemma bracket_none (v : vars) :
  bracket v = None ->
  Signbit (yLeft v) = Signbit (yRoot v) /\ Signbit (yRoot v) = Signbit (yRigth v).
Proof.
  unfold bracket.
  destruct (Signbit (yLeft v)), (Signbit (yRoot v)), (Signbit (yRigth v)); simpl;
    intros H; try discriminate; auto.
Qed.

Lemma not_valid_messages (x y : float) (msg : string) :
  not_valid x y = Some msg ->
  In msg ["xRoot is NaN"; "yRoot is NaN"; "xRoot is Inf"; "yRoot is Inf"]%string.
Proof.
  unfold not_valid.
  destruct (IsNaN x); [|destruct (IsNaN y); [|destruct (IsInf x); [|destruct (IsInf y)]]];
    intros H; inversion H; simpl; auto.
Qed.

Lemma first_error_in (es : list (option error)) (e : error) :
  first_error es = Some e -> In (Some e) es.
Proof.
  induction es as [|[e'|] es IH]; simpl; intros H; [discriminate| |].
  - inversion H. auto.
  - right. auto.
Qed.

Ltac log_goal :=
  unfold set_err, set_root, logged; cbn [calls err root];
  repeat rewrite in_app_iff; cbn [In]; auto 10.

Lemma enter_reported (minX maxX : float) (s : state St) :
  err s = None ->
  outcome (fun _ s' => err s' = None) (reported_exit cfg) (enter cfg f minX maxX s).
Proof.
  intros Hs. unfold enter. destruct (replace_borders minX maxX) as [a b].
  steps; unfold reported_exit; try (eexists; log_goal; fail); try (log_goal; fail).
  - log_goal. intros er Her. inversion Her; subst er.
    match goal with H : first_error _ = Some _ |- _ => apply first_error_in in H; simpl in H end.
    repeat match goal with H : _ \/ _ |- _ => destruct H end;
      try contradiction; subst;
      eapply reported_native; log_goal.
  - log_goal. intros er Her; rewrite Her in *; clear Her. eapply reported_native. log_goal.
  - log_goal. intros er Her; rewrite Her in *; clear Her. eapply reported_native. log_goal.
Qed.

Lemma iteration_reported (iter : Z) (v : vars) (s : state St) :
  (0 <= iter <= Z.max 0 (MaxIteration cfg))%Z /\ err s = None ->
  outcome (fun c s' => (0 <= iter + 1 <= Z.max 0 (MaxIteration cfg))%Z /\ err s' = None)
          (reported_exit cfg) (iteration cfg f iter v s).
Proof.
  intros [Hiter Hs]. unfold iteration.
  steps; unfold reported_exit; try (eexists; log_goal; fail);
    repeat match goal with
           | H : (_ <=? _)%Z = true |- _ => apply Z.leb_le in H
           | H : (_ <=? _)%Z = false |- _ => apply Z.leb_gt in H
           end;
    try (split; [lia | log_goal]; fail);
    log_goal; intros er Her; inversion Her; subst er;
    first
      [ replace iter with (Z.max 0 (MaxIteration cfg)) by lia; apply reported_cap
      | match goal with
        | H : bracket v = None |- _ =>
            destruct (bracket_none v H); apply reported_no_root; assumption
        end
      | apply reported_not_valid; eapply not_valid_messages; eassumption
      | eapply reported_wrapped; log_goal ].
Qed.

Lemma confirm_reported (x : float) (s : state St) :
  outcome (fun (_ : unit) _ => True) (reported_exit cfg) (confirm f x s).
Proof.
  steps; unfold reported_exit; try (eexists; log_goal; fail).
  log_goal. intros er Her; rewrite Her in *; clear Her. eapply reported_native. log_goal.
Qed.

End Reported.

(** X5. The errors of [Find], for every evaluator: an error that a call
    returns is an error that the evaluator returned to this call, as it is or
    wrapped in an [ErrorFind] of kind [InternalErr]; or the error of the cap,
    of kind [MaximalIteration], with the count [max(0, MaxIteration)]; or
    the error of the sign comparison, of kind [InternalErr], with three
    values of one sign bit; or one of the four errors of kind
    [NotValidValue]; or, of kind [Recovery], the value of a panic of the
    evaluator in this call.  There is no other. *)
Theorem every_error_is_accounted_for :
  forall (St : Type) (cfg : Config) (f : evaluator St) (minX maxX : float) (e0 : St)
         (e : error),
    err (run_Find cfg f minX maxX e0) = Some e ->
    reported cfg (calls (run_Find cfg f minX maxX e0)) e.
Proof.
  intros St cfg f minX maxX e0 e Herr.
  destruct (run_invariant cfg f
              (fun iter _ s => (0 <= iter <= Z.max 0 (MaxIteration cfg))%Z /\ err s = None)
              (fun _ _ => True) (reported_exit cfg)) with minX maxX e0
    as [H|(r & s & (x0 & Hin) & Hrun)].
  - intros iter v s H.
    eapply outcome_weaken; [apply iteration_reported; exact H | | auto].
    intros [v'|] s' H'; [exact H'|exact I].
  - intros v s _. apply confirm_reported.
  - eapply outcome_weaken; [apply enter_reported; reflexivity | | auto].
    intros v s H. split; [lia|exact H].
  - exact (H e Herr).
  - rewrite Hrun in *. cbn [set_err err calls] in *. inversion Herr; subst e.
    eapply reported_panic. exact Hin.
Qed.

Lemma every_error_is_accounted_for_witness :
  err (run_Find default no_root 0 1 tt) =
    Some (ErrorFind InternalErr
            (Errorf "No root: [%.3e, %.3e, %.3e]" [OFloat 5; OFloat 6; OFloat 7])) /\
  reported default (calls (run_Find default no_root 0 1 tt))
    (ErrorFind InternalErr
       (Errorf "No root: [%.3e, %.3e, %.3e]" [OFloat 5; OFloat 6; OFloat 7])).
Proof.
  split; [vm_compute; reflexivity|].
  apply (every_error_is_accounted_for unit default no_root 0%float 1%float tt).
  vm_compute. reflexivity.
Defined.

(** ** The root of a call that fails *)

Section Zero.
Variable cfg : Config.
Variable g : float -> reply.

Lemma enter_zero_root (minX maxX : float) (s : state unit) :
  root s = 0%float ->
  outcome (fun v s' => sampled g v /\ root s' = 0%float) zero_root
          (enter cfg (pure g) minX maxX s).
Proof.
  intros Hs. unfold enter. destruct (replace_borders minX maxX) as [a b].
  steps; unfold zero_root, sampled; stateless; cbn [xRoot yRoot]; auto; try congruence.
  all: left; congruence.
Qed.

Lemma iteration_zero_root (iter : Z) (v : vars) (s : state unit) :
  sampled g v /\ root s = 0%float ->
  outcome (fun c s' => match c with
                       | Continue v' => sampled g v' /\ root s' = 0%float
                       | Break => sampled g v /\ root s' = 0%float
                       end)
          zero_root (iteration cfg (pure g) iter v s).
Proof.
  intros [Hv Hs]. unfold iteration.
  steps; unfold zero_root, sampled; stateless; cbn [xRoot yRoot]; auto.
Qed.

Lemma confirm_zero_root (v : vars) (s : state unit) :
  sampled g v ->
  outcome (fun (_ : unit) _ => True) zero_root (confirm (pure g) (xRoot v) s).
Proof.
  intros Hv. unfold sampled in Hv.
  steps; unfold zero_root; stateless; try congruence.
  left. congruence.
Qed.

End Zero.

(** X6. With a stateless evaluator a call that returns an error returns the
    zero root: [root] is written only where the last evaluation follows, and
    that evaluation repeats one that has returned without error. *)
Theorem failure_leaves_root_zero :
  forall (cfg : Config) (g : float -> reply) (minX maxX r : float) (e : error),
    Find cfg (pure g) minX maxX tt = (r, Some e) -> r = 0%float.
Proof.
  intros cfg g minX maxX r e HFind. unfold Find in HFind.
  destruct (run_invariant cfg (pure g)
              (fun _ v s => sampled g v /\ root s = 0%float)
              (fun v s => sampled g v /\ root s = 0%float) zero_root) with minX maxX tt
    as [H|(p & s & H & Hrun)].
  - intros iter v s H. apply iteration_zero_root. exact H.
  - intros v s [H _]. apply confirm_zero_root. exact H.
  - apply enter_zero_root. reflexivity.
  - inversion HFind as [[Hr He]]. simpl in H. destruct H as [H|H]; congruence.
  - rewrite Hrun in HFind. inversion HFind. exact H.
Qed.

Lemma failure_leaves_root_zero_witness :
  Find default (pure (fun x => Returns (2 * x + 5)%float None)) 0 1 tt =
    (0%float,
     Some (ErrorFind InternalErr
             (Errorf "No root: [%.3e, %.3e, %.3e]" [OFloat 5; OFloat 6; OFloat 7]))) /\
  0%float = 0%float.
Proof.
  split; [vm_compute; reflexivity|].
  apply (failure_leaves_root_zero default (fun x => Returns (2 * x + 5)%float None)
           0%float 1%float 0%float
           (ErrorFind InternalErr
              (Errorf "No root: [%.3e, %.3e, %.3e]" [OFloat 5; OFloat 6; OFloat 7]))).
  vm_compute. reflexivity.
Defined.

(** ** A cap that leaves no pass *)

Section Idle.
Context {St : Type}.
Variable cfg : Config.
Variable f : evaluator St.
Variables lo hi : float.

Ltac idle_goal :=
  unfold idle, set_err, set_root, logged in *; cbn [calls err root] in *;
  repeat rewrite length_app in *; cbn [List.length] in *.

Lemma enter_idle (minX maxX : float) (s : state St) :
  replace_borders minX maxX = (lo, hi) ->
  calls s = [] ->
  outcome (fun _ s' => (Z.of_nat (List.length (calls s')) <= 3)%Z) (idle lo hi)
          (enter cfg f minX maxX s).
Proof.
  intros Hrb Hs. unfold enter. rewrite Hrb.
  steps; idle_goal; rewrite Hs; cbn [List.length]; try lia;
    (split; [lia|]); auto; try congruence.
Qed.

Lemma iteration_idle (iter : Z) (v : vars) (s : state St) :
  (MaxIteration cfg <= 0)%Z ->
  (0 <= iter)%Z /\ (Z.of_nat (List.length (calls s)) <= 3)%Z ->
  outcome (fun _ _ => False) (idle lo hi) (iteration cfg f iter v s).
Proof.
  intros Hmax [Hiter Hs].
  rewrite (iteration_capped cfg f iter v s ltac:(lia)).
  cbn [outcome]. idle_goal. split; [lia|]. congruence.
Qed.

End Idle.

(** X7. With [MaxIteration <= 0] the loop makes no pass: a call evaluates at
    most four times, for every evaluator, and when it returns without error
    its root is one of the two bounds. *)
Theorem no_iterations_no_bisection :
  forall (St : Type) (cfg : Config) (f : evaluator St) (minX maxX : float) (e0 : St),
    (MaxIteration cfg <= 0)%Z ->
    (Z.of_nat (List.length (calls (run_Find cfg f minX maxX e0))) <= 4)%Z /\
    (err (run_Find cfg f minX maxX e0) = None ->
     root (run_Find cfg f minX maxX e0) = fst (replace_borders minX maxX) \/
     root (run_Find cfg f minX maxX e0) = snd (replace_borders minX maxX)).
Proof.
  intros St cfg f minX maxX e0 Hmax.
  set (lo := fst (replace_borders minX maxX)).
  set (hi := snd (replace_borders minX maxX)).
  assert (Hrb : replace_borders minX maxX = (lo, hi)).
  { unfold lo, hi. destruct (replace_borders minX maxX); reflexivity. }
  destruct (run_invariant cfg f
              (fun iter _ s => (0 <= iter)%Z /\ (Z.of_nat (List.length (calls s)) <= 3)%Z)
              (fun _ _ => False) (idle lo hi)) with minX maxX e0
    as [[H1 H2]|(p & s & [H1 H2] & Hrun)].
  - intros iter v s H.
    eapply outcome_weaken;
      [apply (iteration_idle cfg f lo hi); [exact Hmax|exact H] | | auto].
    intros c s' [].
  - intros v s [].
  - eapply outcome_weaken; [apply (enter_idle cfg f lo hi); [exact Hrb|reflexivity] | | auto].
    intros v s H. split; [lia|exact H].
  - split; [exact H1|]. intros He. apply H2; auto.
  - rewrite Hrun. cbn [set_err calls err]. split; [exact H1|discriminate].
Qed.

Lemma no_iterations_no_bisection_witness :
  (MaxIteration {| Precision := Precision default; MaxIteration := 0 |} <= 0)%Z /\
  (Z.of_nat (List.length
     (calls (run_Find {| Precision := Precision default; MaxIteration := 0 |}
               shifted 0 1 tt))) <= 4)%Z.
Proof.
  split; [vm_compute; discriminate|].
  refine (proj1 (no_iterations_no_bisection unit
                   {| Precision := Precision default; MaxIteration := 0 |}
                   shifted 0%float 1%float tt _)).
  vm_compute. discriminate.
Defined.

(** ** A bound that is NaN *)

Lemma IsNaN_true (x : float) : IsNaN x = true <-> Prim2SF x = S754_nan.
Proof.
  split; intros H.
  - destruct (Prim2SF x) eqn:E; try reflexivity;
      assert (Hn : IsNaN x = false) by (apply IsNaN_spec; rewrite E; discriminate);
      congruence.
  - destruct (IsNaN x) eqn:E; [reflexivity|]. apply IsNaN_spec in E. congruence.
Qed.

Lemma sub_nan (a b : float) :
  IsNaN a = true \/ IsNaN b = true -> IsNaN (b - a) = true.
Proof.
  intros H. apply IsNaN_true. rewrite sub_spec. unfold SF64sub.
  destruct H as [H|H]; apply IsNaN_true in H; rewrite H;
    [destruct (Prim2SF b)|]; reflexivity.
Qed.

Lemma div_nan (a b : float) : IsNaN a = true -> IsNaN (a / b) = true.
Proof.
  intros H. apply IsNaN_true. apply IsNaN_true in H.
  rewrite div_spec. unfold SF64div. rewrite H. reflexivity.
Qed.

Lemma add_nan (a b : float) : IsNaN b = true -> IsNaN (a + b) = true.
Proof.
  intros H. apply IsNaN_true. apply IsNaN_true in H.
  rewrite add_spec. unfold SF64add. rewrite H. destruct (Prim2SF a); reflexivity.
Qed.

Lemma middle_nan (a b : float) :
  IsNaN a = true \/ IsNaN b = true -> IsNaN (middle a b) = true.
Proof.
  intros H. unfold middle. apply add_nan, div_nan, sub_nan. exact H.
Qed.

Lemma abs_nan_not_below (x p : float) : IsNaN x = true -> (Abs x <? p)%float = false.
Proof.
  intros H. apply IsNaN_true in H. unfold Abs.
  rewrite FloatAxioms.ltb_spec, abs_spec, H. reflexivity.
Qed.

Lemma converged_nan (prec : float) (v : vars) :
  IsNaN (xLeft v) = true \/ IsNaN (xRigth v) = true -> converged prec v = false.
Proof.
  intros H. pose proof (sub_nan _ _ H) as Hd. unfold converged.
  destruct (xLeft v =? 0)%float.
  - rewrite (abs_nan_not_below _ prec Hd). apply andb_false_r.
  - rewrite (abs_nan_not_below _ prec (div_nan _ (xLeft v) Hd)). apply andb_false_r.
Qed.

Lemma replace_borders_nan (minX maxX : float) :
  IsNaN minX = true \/ IsNaN maxX = true -> replace_borders minX maxX = (minX, maxX).
Proof.
  intros H. unfold replace_borders.
  assert (Hlt : (maxX <? minX)%float = false).
  { rewrite FloatAxioms.ltb_spec. unfold SFltb.
    destruct H as [H|H]; apply IsNaN_true in H; rewrite H;
      [destruct (Prim2SF maxX)|]; reflexivity. }
  rewrite Hlt. reflexivity.
Qed.

Section Undefined.
Context {St : Type}.
Variable cfg : Config.
Variable f : evaluator St.
Variables minX maxX : float.
Hypothesis bound_nan : IsNaN minX = true \/ IsNaN maxX = true.

Ltac idle_goal :=
  unfold idle, set_err, set_root, logged in *; cbn [calls err root] in *;
  repeat rewrite length_app in *; cbn [List.length] in *.

Lemma enter_undefined (s : state St) :
  calls s = [] ->
  outcome (fun v s' => (IsNaN (xLeft v) = true \/ IsNaN (xRigth v) = true) /\
                       IsNaN (xRoot v) = true /\
                       (Z.of_nat (List.length (calls s')) <= 3)%Z)
          (idle minX maxX) (enter cfg f minX maxX s).
Proof.
  intros Hs. unfold enter. rewrite (replace_borders_nan minX maxX bound_nan).
  pose proof (middle_nan minX maxX bound_nan) as Hm.
  steps; idle_goal; rewrite Hs; cbn [List.length xLeft xRigth xRoot]; try lia;
    repeat split; auto; try lia; try congruence.
Qed.

Lemma iteration_undefined (iter : Z) (v : vars) (s : state St) :
  (IsNaN (xLeft v) = true \/ IsNaN (xRigth v) = true) /\
  IsNaN (xRoot v) = true /\
  (Z.of_nat (List.length (calls s)) <= 3)%Z ->
  outcome (fun _ _ => False) (idle minX maxX) (iteration cfg f iter v s).
Proof.
  intros (Hb & Hm & Hs). unfold iteration. rewrite (converged_nan _ v Hb).
  steps; idle_goal; try (split; [lia|congruence]).
  exfalso.
  match goal with
  | Hbr : bracket v = Some ?v1, Hn : not_valid _ _ = None |- _ =>
      apply not_valid_none in Hn;
      assert (Hx : IsNaN (middle (xLeft v1) (xRigth v1)) = true);
      [ apply middle_nan; unfold bracket in Hbr;
        destruct (negb (Bool.eqb (Signbit (yLeft v)) (Signbit (yRoot v))));
          [|destruct (negb (Bool.eqb (Signbit (yRoot v)) (Signbit (yRigth v))))];
          inversion Hbr; subst v1; cbn [xLeft xRigth]; auto
      | rewrite Hx in Hn; discriminate ]
  end.
Qed.

End Undefined.

(** X8. With a bound that is NaN nothing is bisected: a call evaluates at
    most four times, for every evaluator, and when it returns without error
    its root is one of the two bounds as they were given. *)
Theorem NaN_bound_never_bisects :
  forall (St : Type) (cfg : Config) (f : evaluator St) (minX maxX : float) (e0 : St),
    IsNaN minX = true \/ IsNaN maxX = true ->
    (Z.of_nat (List.length (calls (run_Find cfg f minX maxX e0))) <= 4)%Z /\
    (err (run_Find cfg f minX maxX e0) = None ->
     root (run_Find cfg f minX maxX e0) = minX \/
     root (run_Find cfg f minX maxX e0) = maxX).
Proof.
  intros St cfg f minX maxX e0 Hnan.
  destruct (run_invariant cfg f
              (fun _ v s => (IsNaN (xLeft v) = true \/ IsNaN (xRigth v) = true) /\
                            IsNaN (xRoot v) = true /\
                            (Z.of_nat (List.length (calls s)) <= 3)%Z)
              (fun _ _ => False) (idle minX maxX)) with minX maxX e0
    as [[H1 H2]|(p & s & [H1 H2] & Hrun)].
  - intros iter v s H.
    eapply outcome_weaken;
      [apply (iteration_undefined cfg f minX maxX); exact H | | auto].
    intros c s' [].
  - intros v s [].
  - apply (enter_undefined cfg f minX maxX Hnan). reflexivity.
  - split; [exact H1|]. intros He. apply H2; auto.
  - rewrite Hrun. cbn [set_err calls err]. split; [exact H1|discriminate].
Qed.

Lemma NaN_bound_never_bisects_witness :
  (IsNaN nan = true \/ IsNaN 1 = true) /\
  (Z.of_nat (List.length (calls (run_Find default shifted nan 1 tt))) <= 4)%Z.
Proof.
  split; [left; vm_compute; reflexivity|].
  refine (proj1 (NaN_bound_never_bisects unit default shifted nan 1%float tt _)).
  left. vm_compute. reflexivity.
Defined.

(** ** An interval of one point *)

Lemma SFsub_diag (x : spec_float) :
  finite_or_zero x = true -> SFsub prec emax x x = S754_zero false.
Proof.
  destruct x as [s|s| |s m e]; try discriminate; intros _; cbn [SFsub].
  - destruct s; reflexivity.
  - rewrite Z.sub_diag. reflexivity.
Qed.

(** The midpoint of [[a, a]] is [a], but for the negative zero. *)
Lemma middle_same (a : float) :
  finite a = true -> a <> (-0)%float -> middle a a = a.
Proof.
  intros Hf Hz. apply Prim2SF_inj. unfold middle.
  rewrite add_spec, div_spec, sub_spec, Prim2SF_two.
  unfold SF64add, SF64div, SF64sub. unfold finite in Hf.
  rewrite (SFsub_diag _ Hf).
  destruct (Prim2SF a) as [s|s| |s m e] eqn:E; try discriminate.
  - destruct s; [|reflexivity].
    exfalso. apply Hz. apply Prim2SF_inj. rewrite E. reflexivity.
  - reflexivity.
Qed.

Lemma ltb_irrefl (a : float) : (a <? a)%float = false.
Proof.
  destruct (a <? a)%float eqn:E; [|reflexivity].
  pose proof (ltb_asym a a E). congruence.
Qed.

(** X9. Over the interval [[a, a]], for a finite [a] other than the negative
    zero and a stateless evaluator that returns [y] at [a] without error:
    [Find] returns [a] without error when [|y| < Precision]; otherwise it
    returns the zero root with the error of the sign comparison, of kind
    [InternalErr], or, when [MaxIteration <= 0], with the error of the
    cap. *)
Theorem interval_of_one_point :
  forall (cfg : Config) (g : float -> reply) (a y : float),
    finite a = true ->
    a <> (-0)%float ->
    g a = Returns y None ->
    Find cfg (pure g) a a tt = at_a_point cfg a y.
Proof.
  intros cfg g a y Hf Hz Hg.
  set (v := {| xLeft := a; yLeft := y; xRoot := a; yRoot := y; xRigth := a; yRigth := y |}).
  set (s3 := {| ev := tt;
                calls := [(a, Returns y None); (a, Returns y None); (a, Returns y None)];
                root := 0%float; err := None |}).
  assert (Hcall : forall s : state unit,
            call (pure g) a s = (Next (y, None), logged s a (Returns y None) tt)).
  { intros s. unfold call, pure. rewrite Hg. destruct s as [[] l r e]. reflexivity. }
  assert (Henter : enter cfg (pure g) a a (initial tt) =
                   if (Abs y <? Precision cfg)%float
                   then (Return, set_err None (logged (set_root a s3) a (Returns y None) tt))
                   else (Next v, s3)).
  { unfold enter, replace_borders. rewrite ltb_irrefl, (middle_same a Hf Hz).
    unfold bind at 1. rewrite Hcall. unfold bind at 1. rewrite Hcall.
    unfold bind at 1. rewrite Hcall. unfold bind at 1. cbn [check_errors ret].
    destruct (Abs y <? Precision cfg)%float; [|reflexivity].
    unfold confirm, bind, assign_root. rewrite Hcall. reflexivity. }
  assert (Hrun : (root (run_Find cfg (pure g) a a tt), err (run_Find cfg (pure g) a a tt)) =
                 at_a_point cfg a y); [|exact Hrun].
  generalize (eq_refl (run_Find cfg (pure g) a a tt)).
  generalize (run_Find cfg (pure g) a a tt) at 1 3 4. intros s Hs.
  unfold run_Find, body in Hs. unfold bind at 1 in Hs. rewrite Henter in Hs.
  unfold at_a_point.
  destruct (Abs y <? Precision cfg)%float eqn:Hy; [subst s; reflexivity|].
  rewrite loop_unfold in Hs. unfold bind at 1 2 in Hs.
  destruct (Z.leb_spec (MaxIteration cfg) 0) as [Hle|Hlt].
  - rewrite (iteration_capped cfg (pure g) 0 v s3 Hle) in Hs. subst s. reflexivity.
  - assert (Hc : converged (Precision cfg) v = false).
    { unfold converged, v. cbn [xLeft yRoot xRigth]. rewrite Hy.
      destruct (a =? 0)%float; reflexivity. }
    rewrite (iteration_searching cfg (pure g) 0 v Hlt Hc) in Hs.
    rewrite (bracket_lost v eq_refl eq_refl) in Hs. subst s. reflexivity.
Qed.

Lemma interval_of_one_point_witness :
  finite 1 = true /\ 1%float <> (-0)%float /\
  Find default (pure (fun x => Returns (x - 1)%float None)) 1 1 tt = (1%float, None).
Proof.
  assert (Hz : 1%float <> (-0)%float).
  { intros H. apply (f_equal Prim2SF) in H. vm_compute in H. discriminate. }
  split; [vm_compute; reflexivity|].
  split; [exact Hz|].
  apply (interval_of_one_point default (fun x => Returns (x - 1)%float None)
           1%float 0%float); [vm_compute; reflexivity | exact Hz | vm_compute; reflexivity].
Defined.

(** ** Messages *)



(** * The width of the halves of a bracket *)

Local Open Scope Z_scope.

Lemma last_place_pos : 0 < last_place.
Proof. unfold last_place. apply pow2_pos. discriminate. Qed.

Lemma huge_last_place : huge = 2 ^ 53 * last_place.
Proof. exact huge_53. Qed.

Lemma huge_largest : huge = largest + last_place.
Proof. rewrite huge_last_place. unfold largest. generalize last_place. intros P. lia. Qed.

Lemma largest_pos : 0 < largest.
Proof. unfold largest. pose proof last_place_pos. revert H. generalize last_place. intros P HP. lia. Qed.

Lemma digits_below (z k : Z) : 0 < z < 2 ^ k -> 0 <= k -> Zdigits2 z <= k.
Proof.
  intros [H0 H1] Hk.
  pose proof (Zdigits2_bounds z H0) as [Hlo _].
  destruct (Z.le_gt_cases (Zdigits2 z) k) as [|Hgt]; [assumption|].
  assert (2 ^ k <= 2 ^ (Zdigits2 z - 1)) by (apply pow2_le; lia).
  revert Hlo H1 H. generalize (2 ^ k), (2 ^ (Zdigits2 z - 1)). intros; lia.
Qed.

Lemma largest_digits : Zdigits2 largest = 2098.
Proof.
  apply Zdigits2_unique; [|reflexivity].
  assert (H1 : 2 ^ (2098 - 1) = 2 ^ 52 * last_place).
  { unfold last_place. rewrite <- Z.pow_add_r by discriminate. reflexivity. }
  assert (H2 : 2 ^ 2098 = 2 ^ 53 * last_place) by exact huge_last_place.
  rewrite H1, H2. unfold largest. pose proof last_place_pos as HP. clear H1 H2.
  revert HP. generalize last_place. intros P HP. lia.
Qed.

Lemma cexp_largest : cexp largest = 2045.
Proof. unfold cexp. rewrite largest_digits. reflexivity. Qed.

Lemma largest_representable : representable largest.
Proof.
  unfold representable. rewrite Z.abs_eq by (apply Z.lt_le_incl, largest_pos).
  rewrite cexp_largest. unfold largest. fold last_place. apply Z.mod_mul.
  pose proof last_place_pos as HP. revert HP. generalize last_place. intros; lia.
Qed.

(** Nothing representable lies between the largest number and [huge]. *)
Lemma representable_largest (x : Z) :
  representable x -> - huge < x < huge -> - largest <= x <= largest.
Proof.
  assert (Hpos : forall y, 0 <= y -> representable y -> y < huge -> y <= largest).
  { intros y Hy Hr Hlt.
    destruct (Z.le_gt_cases y largest) as [|Hgt]; [assumption|exfalso].
    pose proof largest_pos as HL.
    assert (Hd : Zdigits2 y = 2098).
    { apply Z.le_antisymm.
      - apply digits_below; [|discriminate]. split; [|exact Hlt].
        revert HL Hgt. generalize largest. intros; lia.
      - rewrite <- largest_digits. apply Zdigits2_mono.
        revert HL Hgt. generalize largest. intros; lia. }
    destruct (representable_multiple y Hy Hr) as [q Hq].
    unfold cexp in Hq. rewrite Hd in Hq. change (Z.max (2098 - 53) 0) with 2045 in Hq.
    fold last_place in Hq.
    rewrite huge_largest in Hlt. unfold largest in *.
    pose proof last_place_pos as HP. clear Hd Hr.
    revert HP Hq Hlt Hgt HL. generalize last_place. intros P HP Hq Hlt Hgt HL.
    subst y.
    destruct (Z.le_gt_cases q (2 ^ 53 - 1)) as [Hq|Hq].
    - assert (q * P <= (2 ^ 53 - 1) * P) by (apply Z.mul_le_mono_nonneg_r; lia).
      lia.
    - assert (2 ^ 53 * P <= q * P) by (apply Z.mul_le_mono_nonneg_r; lia).
      lia. }
  intros Hr [Hlo Hhi]. pose proof largest_pos as HL.
  destruct (Z.le_gt_cases 0 x) as [Hx|Hx].
  - pose proof (Hpos x Hx Hr Hhi) as H. revert HL H Hx. generalize largest. intros; lia.
  - assert (H0 : 0 <= - x) by lia. assert (H1 : - x < huge) by lia.
    pose proof (Hpos (- x) H0 (representable_opp x Hr) H1) as H.
    revert HL H Hx. generalize largest. intros; lia.
Qed.

Lemma huge_representable : representable huge.
Proof.
  unfold representable. rewrite Z.abs_eq by (apply Z.lt_le_incl, huge_pos).
  assert (Hd : Zdigits2 huge = 2099).
  { apply Zdigits2_unique; [|reflexivity]. change (2 ^ (2099 - 1)) with huge.
    split; [apply Z.le_refl|]. unfold huge. apply Z.pow_lt_mono_r; [reflexivity|discriminate|reflexivity]. }
  unfold cexp. rewrite Hd. change (Z.max (2099 - 53) 0) with 2046.
  rewrite huge_52 at 1. apply Z.mod_mul.
  apply Z.neq_sym, Z.lt_neq, pow2_pos. discriminate.
Qed.

(** Rounding a negative number loses less than one unit of its last place. *)
Lemma rounded_neg_error (z y : Z) : z < 0 -> rounded z y -> z - 2 ^ cexp (- z) <= y.
Proof.
  intros Hz Hy. destruct z as [|p|p]; try lia. cbn [rounded] in Hy.
  change (- Z.neg p) with (Zpos p) in *.
  pose proof (round_down_le (Zpos p) ltac:(lia)) as [_ Hrd].
  assert (0 < 2 ^ cexp (Zpos p)) by (apply pow2_pos, cexp_nonneg).
  destruct Hy as [Hy|[Hy _]]; lia.
Qed.

Lemma half_place : 2 * 2 ^ 2044 = last_place.
Proof. unfold last_place. rewrite <- pow2_succ by discriminate. reflexivity. Qed.

Lemma pow2_2097 : 2 ^ (2044 + 53) = 2 ^ 52 * last_place.
Proof. unfold last_place. rewrite <- Z.pow_add_r by discriminate. reflexivity. Qed.

Lemma cexp_below (z k : Z) : 0 < z < 2 ^ (k + 53) -> 0 <= k -> 2 ^ cexp z <= 2 ^ k.
Proof.
  intros Hz Hk. pose proof (digits_below z (k + 53) Hz ltac:(lia)) as Hd.
  apply pow2_le. unfold cexp. clear Hz. lia.
Qed.

(** The three roundings of [a + (b - a) / 2], on the integer line. *)
Lemma middle_anatomy (a b d h m : spec_float) :
  valid_binary a = true -> valid_binary b = true ->
  valid_binary d = true -> valid_binary h = true ->
  finite_or_zero a = true -> finite_or_zero b = true ->
  scaled a <= scaled b ->
  d = SFsub prec emax b a ->
  finite_or_zero d = true ->
  h = SFdiv prec emax d two ->
  m = SFadd prec emax a h ->
  rounded (scaled b - scaled a) (scaled d) /\
  0 <= scaled h <= scaled b - scaled a /\
  scaled d - 1 <= 2 * scaled h <= scaled d + 1 /\
  rounded (scaled a + scaled h) (scaled m) /\
  finite_or_zero m = true /\
  scaled a <= scaled m <= scaled b.
Proof.
  intros Va Vb Vd Vh Fa Fb Hab Hd Fd Hh Hm.
  destruct (SFsub_rounds b a Vb Va Fb Fa) as (D & HD & HrD). rewrite <- Hd in HrD.
  pose proof (reach_scaled d D HrD Fd) as HsD.
  set (X := scaled b - scaled a) in *.
  assert (HX : 0 <= X) by (unfold X; lia).
  assert (HD0 : 0 <= D).
  { apply (rounded_between X D 0 HD); [reflexivity|lia]. }
  destruct (SFdiv_two_halves d Vd Fd ltac:(lia)) as (Fh & Hhalf & Hexact).
  rewrite <- Hh in *. rewrite HsD in *.
  set (H := scaled h) in *.
  assert (HH : 0 <= H <= X).
  { split; [lia|].
    destruct (Z.le_gt_cases D X) as [Hle|Hgt].
    - destruct (Z.eq_dec X 0) as [E|]; [|lia].
      assert (D = 0) by lia. lia.
    - assert (HXp : 0 < X).
      { destruct (Z.eq_dec X 0) as [E|]; [|lia].
        rewrite E in HD. cbn [rounded] in HD. lia. }
      assert (Hnear : nearby X D) by (destruct X; cbn [rounded] in HD; [lia|exact HD|lia]).
      destruct (rounded_up_even X D d HXp Hnear Hgt Vd Fd HsD) as [H2 He].
      specialize (Hexact He). lia. }
  destruct (SFadd_rounds a h Va Vh Fa Fh) as (v & Hv & Hrv). rewrite <- Hm in Hrv.
  fold H in Hv.
  pose proof (scaled_representable a Va) as Ra.
  pose proof (scaled_representable b Vb) as Rb.
  pose proof (scaled_bound a Va) as Ba. pose proof (scaled_bound b Vb) as Bb.
  assert (Hva : scaled a <= v) by (apply (rounded_between _ v _ Hv Ra); lia).
  assert (Hvb : v <= scaled b) by (apply (rounded_between _ v _ Hv Rb); unfold X in HH; lia).
  destruct (reach_finite m v (scaled a) (scaled b) Hrv ltac:(lia) ltac:(lia) ltac:(lia))
    as [Fm Hsm].
  rewrite Hsm. repeat split; auto; lia.
Qed.

(** A difference of two floats that does not exceed the largest float is
    finite. *)
Lemma SFsub_finite (x y : spec_float) :
  valid_binary x = true -> valid_binary y = true ->
  finite_or_zero x = true -> finite_or_zero y = true ->
  0 <= scaled x - scaled y <= largest ->
  finite_or_zero (SFsub prec emax x y) = true.
Proof.
  intros Vx Vy Fx Fy [H0 H1].
  destruct (SFsub_rounds x y Vx Vy Fx Fy) as (w & Hw & Hr).
  destruct (rounded_between _ w 0 Hw eq_refl) as [Hlo _].
  destruct (rounded_between _ w largest Hw largest_representable) as [_ Hhi].
  specialize (Hlo H0). specialize (Hhi H1).
  pose proof huge_largest as HL. pose proof last_place_pos as HP. pose proof huge_pos as Hh.
  refine (proj1 (reach_finite _ w 0 largest Hr _ _ (conj Hlo Hhi))); lia.
Qed.

(** Both halves of a bracket are narrower than the largest float. *)
Lemma halves_narrow (sa sb D H v : Z) :
  representable sa -> representable sb -> representable D -> representable H ->
  - huge < sa < huge -> - huge < sb < huge -> - huge < D < huge ->
  sa <= sb ->
  rounded (sb - sa) D ->
  0 <= H <= sb - sa ->
  D - 1 <= 2 * H <= D + 1 ->
  rounded (sa + H) v ->
  sa <= v <= sb ->
  v - sa <= largest /\ sb - v <= largest.
Proof.
  intros Ra Rb RD RH Ba Bb BD Hab HD HH Hhalf Hv Hvab.
  pose proof (representable_largest sa Ra Ba) as La.
  pose proof (representable_largest sb Rb Bb) as Lb.
  pose proof (representable_largest D RD BD) as LD.
  destruct (Z.le_gt_cases (sb - sa) largest) as [Hle|Hgt]; [lia|].
  assert (HDL : D = largest).
  { destruct (rounded_between _ D largest HD largest_representable) as [Hlo _]. lia. }
  assert (HXh : sb - sa < huge).
  { destruct (Z.le_gt_cases huge (sb - sa)) as [Hge|]; [|assumption].
    destruct (rounded_between _ D huge HD huge_representable) as [Hlo _]. lia. }
  pose proof huge_largest as HL. pose proof last_place_pos as HP.
  pose proof half_place as HQ. pose proof pow2_2097 as H97.
  assert (H2 : 2 * H = largest).
  { unfold largest in *. revert HP Hhalf HDL HQ. generalize last_place (2 ^ 2044).
    intros P Q HP Hhalf HDL HQ. lia. }
  split.
  - destruct (Z.le_gt_cases (sa + H) 0) as [Hz|Hz].
    + destruct (rounded_between _ v 0 Hv eq_refl) as [_ Hup]. lia.
    + destruct (rounded_between _ v H Hv RH) as [_ Hup]. lia.
  - destruct (Z.le_gt_cases 0 (sa + H)) as [Hz|Hz].
    + destruct (rounded_between _ v 0 Hv eq_refl) as [Hlo _]. lia.
    + pose proof (rounded_neg_error _ v Hz Hv) as Herr.
      assert (Hc : 2 ^ cexp (- (sa + H)) <= 2 ^ 2044).
      { apply cexp_below; [|discriminate]. rewrite H97. unfold largest in *.
        revert HP H2 La Hz. generalize last_place. intros P HP H2 La Hz. lia. }
      unfold largest in *.
      revert HP HL H2 HXh Herr Hc HQ. generalize last_place (2 ^ 2044) (2 ^ cexp (- (sa + H))).
      intros P Q C HP HL H2 HXh Herr Hc HQ. lia.
Qed.

Lemma halves_spec (a b d h m : spec_float) :
  valid_binary a = true -> valid_binary b = true ->
  valid_binary d = true -> valid_binary h = true -> valid_binary m = true ->
  finite_or_zero a = true -> finite_or_zero b = true ->
  scaled a <= scaled b ->
  d = SFsub prec emax b a ->
  finite_or_zero d = true ->
  h = SFdiv prec emax d two ->
  m = SFadd prec emax a h ->
  finite_or_zero (SFsub prec emax m a) = true /\
  finite_or_zero (SFsub prec emax b m) = true.
Proof.
  intros Va Vb Vd Vh Vm Fa Fb Hab Hd Fd Hh Hm.
  destruct (middle_anatomy a b d h m Va Vb Vd Vh Fa Fb Hab Hd Fd Hh Hm)
    as (HD & HH & Hhalf & Hv & Fm & Hvab).
  destruct (halves_narrow (scaled a) (scaled b) (scaled d) (scaled h) (scaled m))
    as [H1 H2]; auto using scaled_representable, scaled_bound.
  split; apply SFsub_finite; auto; lia.
Qed.

Local Close Scope Z_scope.

Lemma halves_finite (a b : float) :
  (a <=? b)%float = true ->
  finite (b - a) = true ->
  finite (middle a b - a) = true /\ finite (b - middle a b) = true.
Proof.
  intros Hab Hd.
  destruct (sub_finite b a Hd) as [Fa Fb].
  apply leb_key in Hab. destruct Hab as (Na & Nb & Hk).
  rewrite (finite_key a Fa), (finite_key b Fb) in Hk.
  unfold finite. rewrite !sub_spec.
  apply (halves_spec (Prim2SF a) (Prim2SF b) (Prim2SF (b - a))
           (Prim2SF ((b - a) / 2)) (Prim2SF (middle a b)));
    try apply Prim2SF_valid; auto.
  - apply sub_spec.
  - rewrite div_spec, Prim2SF_two. reflexivity.
  - unfold middle. apply add_spec.
Qed.

(** X11. The closure [middle], in binary64: for [a <= b] whose difference
    [b - a] does not overflow, [a + (b - a) / 2] is finite and lies in
    [[a, b]], and the differences to the two ends, the widths of the two
    halves, do not overflow either. *)
Theorem midpoint_stays_in_bracket :
  forall a b : float,
    (a <=? b)%float = true ->
    finite (b - a) = true ->
    finite (middle a b) = true /\
    (a <=? middle a b)%float = true /\
    (middle a b <=? b)%float = true /\
    finite (middle a b - a) = true /\
    finite (b - middle a b) = true.
Proof.
  intros a b Hab Hfin.
  destruct (middle_between a b Hab Hfin) as (H1 & H2 & H3).
  destruct (halves_finite a b Hab Hfin) as [H4 H5].
  repeat split; assumption.
Qed.

Lemma midpoint_stays_in_bracket_witness :
  (-0x1.fffffffffffffp+1023 <=? 0x1p+969)%float = true /\
  finite (0x1p+969 - -0x1.fffffffffffffp+1023) = true /\
  (-0x1.fffffffffffffp+1023 <=? middle (-0x1.fffffffffffffp+1023) 0x1p+969)%float = true /\
  (middle (-0x1.fffffffffffffp+1023) 0x1p+969 <=? 0x1p+969)%float = true.
Proof.
  split; [vm_compute; reflexivity|].
  split; [vm_compute; reflexivity|].
  pose proof (midpoint_stays_in_bracket (-0x1.fffffffffffffp+1023)%float 0x1p+969%float)
    as H.
  split; apply H; vm_compute; reflexivity.
Defined.

(** Without the hypothesis on the difference the midpoint leaves the
    bracket, and [Find] evaluates there. *)
Lemma midpoint_overflows :
  (-0x1.fffffffffffffp+1023 <=? 0x1.fffffffffffffp+1023)%float = true /\
  finite (0x1.fffffffffffffp+1023 - -0x1.fffffffffffffp+1023) = false /\
  middle (-0x1.fffffffffffffp+1023) 0x1.fffffffffffffp+1023 = infinity /\
  calls (run_Find default flat (-0x1.fffffffffffffp+1023) 0x1.fffffffffffffp+1023 tt) =
    [(-0x1.fffffffffffffp+1023, Returns 0 None); (infinity, Returns 0 None);
     (0x1.fffffffffffffp+1023, Returns 0 None);
     (-0x1.fffffffffffffp+1023, Returns 0 None)]%float.
Proof.
  repeat split; vm_compute; reflexivity.
Qed.

(** ** The points of evaluation *)

Lemma between_finite (a b x : float) :
  finite a = true -> finite b = true -> within_bounds a b x -> finite x = true.
Proof.
  intros Fa Fb [H1 H2]. apply leb_key in H1, H2.
  destruct H1 as (_ & Nx & H1), H2 as (_ & _ & H2).
  rewrite (finite_key a Fa) in H1. rewrite (finite_key b Fb) in H2.
  pose proof (scaled_bound _ (Prim2SF_valid a)) as Ba.
  pose proof (scaled_bound _ (Prim2SF_valid b)) as Bb.
  pose proof huge_pos as Hh.
  unfold finite, fkey in *. destruct (Prim2SF x) as [s|s| |s m e]; try reflexivity.
  - destruct s; cbn [key cond_Zopp] in *; lia.
  - congruence.
Qed.

Lemma bracket_halves (a b : float) (v v1 : vars) :
  narrowing a b v ->
  bracket v = Some v1 ->
  (a <=? xLeft v1)%float = true /\
  (xLeft v1 <=? xRigth v1)%float = true /\
  (xRigth v1 <=? b)%float = true /\
  finite (xRigth v1 - xLeft v1) = true.
Proof.
  intros [(Ha & Hlr & Hb & Hroot) Hfin] Hbr.
  destruct (middle_between _ _ Hlr Hfin) as (_ & H1 & H2).
  destruct (halves_finite _ _ Hlr Hfin) as [F1 F2].
  rewrite <- Hroot in *.
  unfold bracket in Hbr.
  destruct (negb (Bool.eqb (Signbit (yLeft v)) (Signbit (yRoot v))));
    [|destruct (negb (Bool.eqb (Signbit (yRoot v)) (Signbit (yRigth v))))];
    inversion Hbr; subst v1; cbn [xLeft xRigth]; repeat split; auto.
  - exact (leb_trans _ _ _ H2 Hb).
  - exact (leb_trans _ _ _ Ha H1).
Qed.

Section Domain.
Context {St : Type}.
Variable cfg : Config.
Variable f : evaluator St.
Variables a b : float.

Ltac domain_goal :=
  unfold evaluated_within, set_err, set_root, logged in *; cbn [calls] in *;
  repeat rewrite Forall_app;
  repeat match goal with
         | |- _ /\ _ => split
         | |- Forall _ [_] => constructor; [cbn [fst]|constructor]
         end;
  auto.

Lemma enter_domain (minX maxX : float) (s : state St) :
  replace_borders minX maxX = (a, b) ->
  (a <=? b)%float = true ->
  finite (b - a) = true ->
  evaluated_within a b (calls s) ->
  outcome (fun v s' => narrowing a b v /\ evaluated_within a b (calls s'))
          (fun _ s' => evaluated_within a b (calls s'))
          (enter cfg f minX maxX s).
Proof.
  intros Hrb Hab Hfin Hs. unfold enter. rewrite Hrb.
  pose proof (leb_left a b Hab) as Haa. pose proof (leb_right a b Hab) as Hbb.
  destruct (middle_between a b Hab Hfin) as (_ & Hm1 & Hm2).
  assert (Wa : within_bounds a b a) by (split; assumption).
  assert (Wb : within_bounds a b b) by (split; assumption).
  assert (Wm : within_bounds a b (middle a b)) by (split; assumption).
  steps; unfold narrowing, bracketed; cbn [xLeft xRigth xRoot]; domain_goal.
Qed.

Lemma iteration_domain (iter : Z) (v : vars) (s : state St) :
  narrowing a b v /\ evaluated_within a b (calls s) ->
  outcome (fun c s' => match c with
                       | Continue v' => narrowing a b v' /\ evaluated_within a b (calls s')
                       | Break => narrowing a b v /\ evaluated_within a b (calls s')
                       end)
          (fun _ s' => evaluated_within a b (calls s'))
          (iteration cfg f iter v s).
Proof.
  intros [Hv Hs]. unfold iteration.
  steps; try (domain_goal; fail);
    match goal with
    | Hb : bracket v = Some ?v1 |- _ =>
        destruct (bracket_halves a b v v1 Hv Hb) as (H1 & H2 & H3 & H4);
        destruct (middle_between _ _ H2 H4) as (_ & H5 & H6);
        assert (Wx : within_bounds a b (middle (xLeft v1) (xRigth v1)))
          by (split; [exact (leb_trans _ _ _ H1 H5) | exact (leb_trans _ _ _ H6 H3)])
    end;
    unfold narrowing, bracketed; cbn [xLeft xRigth xRoot]; domain_goal.
Qed.

Lemma confirm_domain (v : vars) (s : state St) :
  narrowing a b v /\ evaluated_within a b (calls s) ->
  outcome (fun (_ : unit) _ => True) (fun _ s' => evaluated_within a b (calls s'))
          (confirm f (xRoot v) s).
Proof.
  intros [[Hv Hfin] Hs].
  destruct (bracketed_root a b v Hv Hfin) as (_ & _ & Hw).
  steps; domain_goal.
Qed.

End Domain.

(** X12. [Find] evaluates inside the bounds only: when the difference of the
    normalized bounds does not overflow, every point at which a call
    evaluates, for every evaluator and whatever the call returns, is finite
    and lies within the normalized bounds. *)
Theorem evaluations_stay_within_bounds :
  forall (St : Type) (cfg : Config) (f : evaluator St) (minX maxX : float) (e0 : St)
         (x : float) (r : reply),
    let lo := fst (replace_borders minX maxX) in
    let hi := snd (replace_borders minX maxX) in
    finite (hi - lo) = true ->
    In (x, r) (calls (run_Find cfg f minX maxX e0)) ->
    finite x = true /\ (lo <=? x)%float = true /\ (x <=? hi)%float = true.
Proof.
  intros St cfg f minX maxX e0 x r lo hi Hfin Hin.
  assert (Hrb : replace_borders minX maxX = (lo, hi)).
  { unfold lo, hi. destruct (replace_borders minX maxX); reflexivity. }
  destruct (sub_finite hi lo Hfin) as [Flo Fhi].
  assert (Hord : (lo <=? hi)%float = true).
  { assert (Hsw : (lo = minX /\ hi = maxX) \/ (lo = maxX /\ hi = minX)).
    { unfold lo, hi, replace_borders. destruct (maxX <? minX)%float; cbn [fst snd]; auto. }
    pose proof (finite_not_nan _ Flo) as Nlo. pose proof (finite_not_nan _ Fhi) as Nhi.
    apply IsNaN_spec in Nlo, Nhi.
    apply (replace_borders_ordered minX maxX); destruct Hsw as [[E1 E2]|[E1 E2]]; congruence. }
  assert (Hall : evaluated_within lo hi (calls (run_Find cfg f minX maxX e0))).
  { destruct (run_invariant cfg f
                (fun _ v s => narrowing lo hi v /\ evaluated_within lo hi (calls s))
                (fun v s => narrowing lo hi v /\ evaluated_within lo hi (calls s))
                (fun _ s => evaluated_within lo hi (calls s))) with minX maxX e0
      as [H|(p & s & H & Hrun)].
    - intros iter v s H. apply iteration_domain. exact H.
    - intros v s H. apply confirm_domain. exact H.
    - apply enter_domain; auto. constructor.
    - exact H.
    - rewrite Hrun. exact H. }
  unfold evaluated_within in Hall. rewrite Forall_forall in Hall.
  pose proof (Hall (x, r) Hin) as Hw. cbn [fst] in Hw.
  split; [exact (between_finite lo hi x Flo Fhi Hw)|exact Hw].
Qed.

Lemma evaluations_stay_within_bounds_witness :
  finite (snd (replace_borders 0 1) - fst (replace_borders 0 1)) = true /\
  In (0.5%float, Returns 0.1875 None) (calls (run_Find default shifted 0 1 tt)) /\
  finite 0.5 = true /\
  (fst (replace_borders 0 1) <=? 0.5)%float = true /\
  (0.5 <=? snd (replace_borders 0 1))%float = true.
Proof.
  split; [vm_compute; reflexivity|].
  split; [vm_compute; right; left; reflexivity|].
  apply (evaluations_stay_within_bounds unit default shifted 0%float 1%float tt
           0.5%float (Returns 0.1875 None)).
  - vm_compute. reflexivity.
  - vm_compute. right. left. reflexivity.
Defined.

(** * The earlier versions *)

(** ** The earlier [Find] and the generic one *)

Section Versions.
Context {St : Type}.
Variable cfg : Config.
Variable f : evaluator St.

Lemma Float64_loop_unfold (fuel : nat) (iter : Z) (v : vars) :
  Float64.loop cfg f fuel iter v =
  (c <- Float64.iteration cfg f iter v ;;
   match c with
   | Break => ret v
   | Continue v' =>
       match fuel with
       | O => fun s => (OutOfFuel, s)
       | S fuel' => Float64.loop cfg f fuel' (iter + 1)%Z v'
       end
   end).
Proof. destruct fuel; reflexivity. Qed.

(** A pass of the generic [Find] that goes on, or breaks, is a pass of the
    earlier one. *)
Lemma iteration_next (iter : Z) (v : vars) (s s' : state St) (c : ctl) :
  iteration cfg f iter v s = (Next c, s') ->
  Float64.iteration cfg f iter v s = (Next c, s').
Proof.
  unfold iteration, Float64.iteration.
  destruct (MaxIteration cfg <=? iter)%Z; [discriminate|].
  destruct (converged (Precision cfg) v); [auto|].
  destruct (bracket v) as [v1|]; [|discriminate].
  cbv zeta. unfold bind, call.
  destruct (f (ev s) (middle (xLeft v1) (xRigth v1))) as [[y [e|]|r] e']; try discriminate.
  destruct (not_valid (middle (xLeft v1) (xRigth v1)) y); [discriminate|auto].
Qed.

(** A pass of the earlier [Find] that goes on, or breaks, is a pass of the
    generic one, unless a guard on the midpoint stops it. *)
Lemma Float64_iteration_next (iter : Z) (v : vars) (s s' : state St) (c : ctl) :
  Float64.iteration cfg f iter v s = (Next c, s') ->
  iteration cfg f iter v s = (Next c, s') \/
  exists msg, iteration cfg f iter v s =
                (Return, set_err (Some (ErrorFind NotValidValue (Errorf msg []))) s').
Proof.
  unfold iteration, Float64.iteration.
  destruct (MaxIteration cfg <=? iter)%Z; [discriminate|].
  destruct (converged (Precision cfg) v); [auto|].
  destruct (bracket v) as [v1|]; [|discriminate].
  cbv zeta. unfold bind, call.
  destruct (f (ev s) (middle (xLeft v1) (xRigth v1))) as [[y [e|]|r] e']; try discriminate.
  destruct (not_valid (middle (xLeft v1) (xRigth v1)) y) as [msg|]; [|auto].
  intros H. inversion H; subst. right. exists msg. reflexivity.
Qed.

Lemma loop_next (fuel : nat) :
  forall (iter : Z) (v v' : vars) (s s' : state St),
    loop cfg f fuel iter v s = (Next v', s') ->
    Float64.loop cfg f fuel iter v s = (Next v', s').
Proof.
  induction fuel as [|fuel IH]; intros iter v v' s s';
    rewrite loop_unfold, Float64_loop_unfold; unfold bind;
    destruct (iteration cfg f iter v s) as [[[v1|]| |r|] s1] eqn:Hit; try discriminate;
    rewrite (iteration_next _ _ _ _ _ Hit); auto.
Qed.

Lemma Float64_loop_next (fuel : nat) :
  forall (iter : Z) (v v' : vars) (s s' : state St),
    Float64.loop cfg f fuel iter v s = (Next v', s') ->
    loop cfg f fuel iter v s = (Next v', s') \/
    exists msg s'', loop cfg f fuel iter v s = (Return, s'') /\
                    err s'' = Some (ErrorFind NotValidValue (Errorf msg [])).
Proof.
  induction fuel as [|fuel IH]; intros iter v v' s s';
    rewrite loop_unfold, Float64_loop_unfold; unfold bind;
    destruct (Float64.iteration cfg f iter v s) as [[[v1|]| |r|] s1] eqn:Hit;
    try discriminate;
    (destruct (Float64_iteration_next _ _ _ _ _ Hit) as [Hg|[msg Hg]]; rewrite Hg;
     [ auto | intros _; right; eexists _, _; split; reflexivity ]).
Qed.

(** The loop of the generic [Find] is left by [return] with an error only. *)
Lemma loop_failed (fuel : nat) (iter : Z) (v : vars) (s s' : state St) :
  loop cfg f fuel iter v s = (Return, s') -> err s' <> None.
Proof.
  intros H.
  assert (Hout : outcome (fun _ _ => True) (fun x s' => x <> ByFuel -> failed x s')
                         (loop cfg f fuel iter v s)).
  { apply (loop_invariant cfg f (fun _ _ _ => True) (fun _ _ => True) failed); [|exact I].
    intros iter0 v0 s0 _. unfold iteration.
    steps; unfold failed, set_err; cbn [err]; auto; congruence. }
  rewrite H in Hout. simpl in Hout. apply Hout; [discriminate|reflexivity].
Qed.

Lemma Float64_loop_failed (fuel : nat) :
  forall (iter : Z) (v : vars) (s s' : state St),
    Float64.loop cfg f fuel iter v s = (Return, s') -> err s' <> None.
Proof.
  induction fuel as [|fuel IH]; intros iter v s s'; rewrite Float64_loop_unfold;
    unfold bind;
    destruct (Float64.iteration cfg f iter v s) as [[[v1|]| |r|] s1] eqn:Hit;
    try discriminate;
    try (intros H; inversion H; subst s1; clear H;
         unfold Float64.iteration in Hit;
         destruct (MaxIteration cfg <=? iter)%Z;
           [ inversion Hit; subst; discriminate |];
         destruct (converged (Precision cfg) v); [discriminate|];
         destruct (bracket v) as [v2|]; [|inversion Hit; subst; discriminate];
         cbv zeta in Hit; unfold bind, call in Hit;
         destruct (f (ev s) (middle (xLeft v2) (xRigth v2))) as [[y [e|]|r] e'];
         inversion Hit; subst; discriminate).
  apply IH.
Qed.

Lemma body_success_earlier (minX maxX : float) (s s' : state St) :
  body cfg f minX maxX s = (Return, s') -> err s' = None ->
  Float64.body cfg f minX maxX s = (Return, s').
Proof.
  unfold body, Float64.body. unfold bind at 1 3.
  destruct (enter cfg f minX maxX s) as [[v0| |r|] s0]; try discriminate; auto.
  unfold bind.
  destruct (loop cfg f (Z.to_nat (MaxIteration cfg)) 0 v0 s0) as [[v1| |r|] s1] eqn:Hl;
    try discriminate.
  - rewrite (loop_next _ _ _ _ _ _ Hl). auto.
  - intros H He. inversion H; subst s1. exfalso. exact (loop_failed _ _ _ _ _ Hl He).
Qed.

Lemma Float64_body_success (minX maxX : float) (s s' : state St) :
  Float64.body cfg f minX maxX s = (Return, s') -> err s' = None ->
  body cfg f minX maxX s = (Return, s') \/
  exists msg s'', body cfg f minX maxX s = (Return, s'') /\
                  err s'' = Some (ErrorFind NotValidValue (Errorf msg [])).
Proof.
  unfold body, Float64.body. unfold bind at 1 3 5.
  destruct (enter cfg f minX maxX s) as [[v0| |r|] s0]; try discriminate; auto.
  unfold bind.
  destruct (Float64.loop cfg f (Z.to_nat (MaxIteration cfg)) 0 v0 s0)
    as [[v1| |r|] s1] eqn:Hl; try discriminate.
  - destruct (Float64_loop_next _ _ _ _ _ _ Hl) as [Hg|(msg & s'' & Hg & He)]; rewrite Hg.
    + auto.
    + intros _ _. right. exists msg, s''. auto.
  - intros H He. inversion H; subst s1. exfalso. exact (Float64_loop_failed _ _ _ _ _ Hl He).
Qed.

Lemma Float64_iteration_under_cap (iter : Z) (v v' : vars) (s s' : state St) :
  Float64.iteration cfg f iter v s = (Next (Continue v'), s') -> (iter < MaxIteration cfg)%Z.
Proof.
  unfold Float64.iteration.
  destruct (Z.leb_spec (MaxIteration cfg) iter); [discriminate|auto].
Qed.

Lemma Float64_loop_no_fuel (fuel : nat) :
  forall (iter : Z) (v : vars) (s s' : state St),
    (MaxIteration cfg - iter <= Z.of_nat fuel)%Z ->
    Float64.loop cfg f fuel iter v s <> (OutOfFuel, s').
Proof.
  induction fuel as [|fuel IH]; intros iter v s s' Hfuel; rewrite Float64_loop_unfold;
    unfold bind;
    destruct (Float64.iteration cfg f iter v s) as [[[v1|]| |r|] s1] eqn:Hit;
    try discriminate;
    try (pose proof (Float64_iteration_under_cap _ _ _ _ _ Hit); [idtac]).
  - lia.
  - unfold Float64.iteration in Hit.
    destruct (MaxIteration cfg <=? iter)%Z; [discriminate|].
    destruct (converged (Precision cfg) v); [discriminate|].
    destruct (bracket v) as [v2|]; [|discriminate].
    cbv zeta in Hit. unfold bind, call in Hit.
    destruct (f (ev s) (middle (xLeft v2) (xRigth v2))) as [[y [e|]|r] e']; discriminate.
  - apply IH. lia.
  - unfold Float64.iteration in Hit.
    destruct (MaxIteration cfg <=? iter)%Z; [discriminate|].
    destruct (converged (Precision cfg) v); [discriminate|].
    destruct (bracket v) as [v2|]; [|discriminate].
    cbv zeta in Hit. unfold bind, call in Hit.
    destruct (f (ev s) (middle (xLeft v2) (xRigth v2))) as [[y [e|]|r] e']; discriminate.
Qed.

(** The earlier [Find] always returns, too. *)
Lemma Float64_body_terminates (minX maxX : float) (s : state St) :
  exists s', Float64.body cfg f minX maxX s = (Return, s') \/
             exists r, Float64.body cfg f minX maxX s = (Panicking r, s').
Proof.
  assert (H : forall x s', Float64.body cfg f minX maxX s = (x, s') ->
                           x <> Next tt /\ x <> OutOfFuel).
  { intros x s' Hb. pose proof (enter_no_fuel cfg f minX maxX s) as He.
    unfold Float64.body in Hb. unfold bind at 1 in Hb.
    destruct (enter cfg f minX maxX s) as [[v0| |r|] s0]; simpl in He;
      try (inversion Hb; split; congruence).
    unfold bind at 1 in Hb.
    destruct (Float64.loop cfg f (Z.to_nat (MaxIteration cfg)) 0 v0 s0)
      as [[v1| |r|] s1] eqn:Hl; try (inversion Hb; split; discriminate).
    - unfold confirm, bind, assign_root, call, assign_err, return_ in Hb.
      destruct (f (ev (set_root (xRoot v1) s1)) (xRoot v1)) as [[y e|r] e'];
        inversion Hb; split; discriminate.
    - exfalso. apply (Float64_loop_no_fuel (Z.to_nat (MaxIteration cfg)) 0%Z v0 s0 s1 ltac:(lia) Hl). }
  destruct (Float64.body cfg f minX maxX s) as [[[]| |r|] s'] eqn:Hb; eauto; exfalso;
    destruct (H _ _ eq_refl); congruence.
Qed.

End Versions.

(** X13. The generic [Find] and the earlier [Find] over [float64], on the
    same evaluator and bounds.  When the generic one returns without error,
    the earlier one makes the same evaluations and returns the same root,
    without error.  When the earlier one returns without error, the generic
    one does the same, or stops on a midpoint or a value that is NaN or
    infinite, with an error of kind [NotValidValue]: the guards are the only
    difference between the successes of the two. *)
Theorem generic_Find_agrees_with_the_earlier_on_success :
  forall (St : Type) (cfg : Config) (f : evaluator St) (minX maxX : float) (e0 : St),
    (err (run_Find cfg f minX maxX e0) = None ->
     Float64.run_Find cfg f minX maxX e0 = run_Find cfg f minX maxX e0 /\
     Float64.Find cfg f minX maxX e0 = (root (run_Find cfg f minX maxX e0), None)) /\
    (err (Float64.run_Find cfg f minX maxX e0) = None ->
     run_Find cfg f minX maxX e0 = Float64.run_Find cfg f minX maxX e0 \/
     exists msg, err (run_Find cfg f minX maxX e0) =
                   Some (ErrorFind NotValidValue (Errorf msg []))).
Proof.
  intros St cfg f minX maxX e0. split.
  - intros Herr.
    assert (Hrun : Float64.run_Find cfg f minX maxX e0 = run_Find cfg f minX maxX e0).
    { unfold run_Find, Float64.run_Find in *.
      destruct (body_terminates cfg f minX maxX (initial e0)) as (s' & [Hb|[r Hb]]);
        rewrite Hb in *; simpl in Herr; [|discriminate].
      rewrite (body_success_earlier cfg f _ _ _ _ Hb Herr). reflexivity. }
    split; [exact Hrun|].
    unfold Float64.Find. rewrite Hrun, Herr.
    destruct (replace_borders minX maxX). reflexivity.
  - intros Herr. unfold run_Find, Float64.run_Find in *.
    destruct (Float64_body_terminates cfg f minX maxX (initial e0)) as (s' & [Hb|[r Hb]]);
      rewrite Hb in *; simpl in Herr; [|discriminate].
    destruct (Float64_body_success cfg f _ _ _ _ Hb Herr) as [Hg|(msg & s'' & Hg & He)];
      rewrite Hg; simpl.
    + left. reflexivity.
    + right. exists msg. exact He.
Qed.

(** ** Walking through assignments *)

Lemma outcome_assign_root {St} (r : float) (N : unit -> state St -> Prop) E (s : state St) :
  N tt (set_root r s) -> outcome N E (assign_root r s).
Proof. auto. Qed.

Lemma outcome_assign_err {St} (e : option error) (N : unit -> state St -> Prop) E
      (s : state St) :
  N tt (set_err e s) -> outcome N E (assign_err e s).
Proof. auto. Qed.

Lemma outcome_return {St A} (N : A -> state St -> Prop) E (s : state St) :
  E ByReturn s -> outcome N E (return_ s).
Proof. auto. Qed.

Lemma outcome_ret {St A} (a : A) (N : A -> state St -> Prop) E (s : state St) :
  N a s -> outcome N E (ret a s).
Proof. auto. Qed.

Ltac walk :=
  repeat ((cbv beta iota;
           match goal with
           | |- outcome _ _ (assign_root _ _) => apply outcome_assign_root
           | |- outcome _ _ (assign_err _ _) => apply outcome_assign_err
           | |- outcome _ _ (return_ _) => apply outcome_return
           | |- outcome _ _ (ret _ _) => apply outcome_ret
           | |- outcome _ _ (rf.evaluate _ _ _) => unfold rf.evaluate
           end) || step);
  cbv beta iota.

(** ** The errors of the earlier [Find] *)

Section Earlier.
Context {St : Type}.
Variable cfg : Config.
Variable f : evaluator St.

Ltac log_goal :=
  unfold set_err, set_root, logged; cbn [calls err root];
  repeat rewrite in_app_iff; cbn [In]; auto 10.

Lemma enter_earlier (minX maxX : float) (s : state St) :
  err s = None /\ root s = 0%float ->
  outcome (fun _ s' => err s' = None /\ root s' = 0%float) (earlier_exit cfg)
          (enter cfg f minX maxX s).
Proof.
  intros [Hs Hr]. unfold enter. destruct (replace_borders minX maxX) as [a b].
  steps; unfold earlier_exit; try (eexists; log_goal; fail); try (log_goal; fail).
  - log_goal. intros er Her. inversion Her; subst er.
    match goal with H : first_error _ = Some _ |- _ => apply first_error_in in H; simpl in H end.
    repeat match goal with H : _ \/ _ |- _ => destruct H end;
      try contradiction; subst;
      eapply earlier_native; log_goal.
  - log_goal. intros er Her; rewrite Her in *; clear Her. eapply earlier_native. log_goal.
  - log_goal. intros er Her; rewrite Her in *; clear Her. eapply earlier_native. log_goal.
Qed.

Lemma Float64_iteration_earlier (iter : Z) (v : vars) (s : state St) :
  (0 <= iter <= Z.max 0 (MaxIteration cfg))%Z /\ err s = None /\ root s = 0%float ->
  outcome (fun c s' => (0 <= iter + 1 <= Z.max 0 (MaxIteration cfg))%Z /\
                       err s' = None /\ root s' = 0%float)
          (earlier_exit cfg) (Float64.iteration cfg f iter v s).
Proof.
  intros (Hiter & Hs & Hr). unfold Float64.iteration.
  walk; unfold earlier_exit; try (eexists; log_goal; fail);
    repeat match goal with
           | H : (_ <=? _)%Z = true |- _ => apply Z.leb_le in H
           | H : (_ <=? _)%Z = false |- _ => apply Z.leb_gt in H
           end;
    try (split; [lia | log_goal]; fail);
    log_goal; intros er Her; inversion Her; subst er;
    first
      [ replace iter with (Z.max 0 (MaxIteration cfg)) by lia; apply earlier_cap
      | match goal with
        | H : bracket v = None |- _ =>
            destruct (bracket_none v H); rewrite Hr; apply earlier_no_root; assumption
        end
      | eapply earlier_native; log_goal ].
Qed.

Lemma confirm_earlier (x : float) (s : state St) :
  outcome (fun (_ : unit) _ => True) (earlier_exit cfg) (confirm f x s).
Proof.
  steps; unfold earlier_exit; try (eexists; log_goal; fail).
  log_goal. intros er Her; rewrite Her in *; clear Her. eapply earlier_native. log_goal.
Qed.

Lemma Float64_loop_earlier (fuel : nat) :
  forall (iter : Z) (v : vars) (s : state St),
    (0 <= iter <= Z.max 0 (MaxIteration cfg))%Z /\ err s = None /\ root s = 0%float ->
    outcome (fun _ _ => True) (earlier_exit cfg) (Float64.loop cfg f fuel iter v s).
Proof.
  induction fuel as [|fuel IH]; intros iter v s Hs; rewrite Float64_loop_unfold;
    apply outcome_bind;
    (eapply outcome_weaken; [apply Float64_iteration_earlier; exact Hs | | auto]);
    intros [v'|] s' H; cbv beta iota; auto; exact I.
Qed.

End Earlier.

(** X14. The errors of the earlier [Find], for every evaluator: an error
    that a call returns is the wrapping, with the bounds in the order in
    which the call has put them, of an error that the evaluator returned to
    this call, or of the error of the cap, with [-1] as root, or of the
    error of the sign comparison, with the zero root, or of the value of a
    panic of the evaluator in this call.  No error comes back bare, and no
    panic leaves the call. *)
Theorem earlier_Find_wraps_every_error :
  forall (St : Type) (cfg : Config) (f : evaluator St) (minX maxX r : float) (e0 : St)
         (w : wrapped),
    Float64.Find cfg f minX maxX e0 = (r, Some w) ->
    exists e,
      w = Cannot_find (fst (replace_borders minX maxX)) (snd (replace_borders minX maxX)) e /\
      reported_earlier cfg (calls (Float64.run_Find cfg f minX maxX e0)) r e.
Proof.
  intros St cfg f minX maxX r e0 w HFind.
  unfold Float64.Find in HFind.
  destruct (replace_borders minX maxX) as [lo hi]. cbn [fst snd].
  inversion HFind as [[Hr Hw]]. clear HFind.
  destruct (err (Float64.run_Find cfg f minX maxX e0)) as [e|] eqn:Herr; [|discriminate].
  inversion Hw; subst w. exists e. split; [reflexivity|].
  assert (Hout : outcome (fun _ _ => True) (earlier_exit cfg)
                         (Float64.body cfg f minX maxX (initial e0))).
  { unfold Float64.body. apply outcome_bind.
    eapply outcome_weaken; [apply enter_earlier; split; reflexivity | | auto].
    intros v0 s0 H0. apply outcome_bind.
    eapply outcome_weaken; [apply Float64_loop_earlier; split; [lia|exact H0] | | auto].
    intros v1 s1 _. apply confirm_earlier. }
  unfold Float64.run_Find in *.
  destruct (Float64_body_terminates cfg f minX maxX (initial e0)) as (s' & [Hb|[p Hb]]);
    rewrite Hb in *; cbn [Float64.recovering outcome earlier_exit] in *.
  - exact (Hout e Herr).
  - cbn [set_err err calls root] in *. inversion Herr; subst e.
    destruct Hout as [x0 Hin]. eapply earlier_panic. exact Hin.
Qed.

Lemma earlier_Find_wraps_every_error_witness :
  Float64.Find default no_root 0 1 tt =
    (0%float,
     Some (Cannot_find 0 1
             (Errorf "No root: [%.3e, %.3e, %.3e]" [OFloat 5; OFloat 6; OFloat 7]))) /\
  exists e,
    Cannot_find 0 1 (Errorf "No root: [%.3e, %.3e, %.3e]" [OFloat 5; OFloat 6; OFloat 7]) =
      Cannot_find (fst (replace_borders 0 1)) (snd (replace_borders 0 1)) e /\
    reported_earlier default (calls (Float64.run_Find default no_root 0 1 tt)) 0%float e.
Proof.
  split; [vm_compute; reflexivity|].
  apply (earlier_Find_wraps_every_error unit default no_root 0%float 1%float 0%float tt).
  vm_compute. reflexivity.
Defined.

(** ** The contract of the earlier [Find] *)

Lemma finite_true_false (x : float) : finite x <> true -> finite x = false.
Proof. destruct (finite x); congruence. Qed.

Lemma loose_bracket_step (lo hi left rigth : float) :
  loose_bracket lo hi left rigth ->
  loose_bracket lo hi left (middle left rigth) /\ loose_bracket lo hi (middle left rigth) rigth.
Proof.
  intros Hb. destruct (finite (rigth - left)) eqn:Hfin.
  - destruct Hb as [(H1 & H2 & H3)|Hb]; [|congruence].
    destruct (middle_between _ _ H2 Hfin) as (_ & H4 & H5).
    split; left; repeat split; auto.
    + exact (leb_trans _ _ _ H5 H3).
    + exact (leb_trans _ _ _ H1 H4).
  - assert (Hm : finite (middle left rigth) = false).
    { apply finite_true_false. intros H. apply middle_finite in H. congruence. }
    split; right; apply finite_true_false; intros H; apply sub_finite in H;
      destruct H; congruence.
Qed.

Section Float64Invariants.
Context {St : Type}.
Variable cfg : Config.
Variable f : evaluator St.
Variable I : vars -> state St -> Prop.
Variable B : vars -> state St -> Prop.
Variable E : exit -> state St -> Prop.

Hypothesis pass : forall iter v s,
  I v s ->
  outcome (fun c s' => match c with
                       | Continue v' => I v' s'
                       | Break => B v s'
                       end)
          E (Float64.iteration cfg f iter v s).

Lemma Float64_loop_invariant (fuel : nat) :
  forall (iter : Z) (v : vars) (s : state St),
    I v s ->
    outcome B (fun x s' => x <> ByFuel -> E x s') (Float64.loop cfg f fuel iter v s).
Proof.
  induction fuel as [|fuel IH]; intros iter v s Hv; rewrite Float64_loop_unfold;
    apply outcome_bind;
    (eapply outcome_weaken; [apply pass; exact Hv | | auto]);
    intros [v'|] s' H; cbv beta iota; auto; unfold outcome; congruence.
Qed.

End Float64Invariants.

Lemma outcome_conj {St A} (N1 N2 : A -> state St -> Prop) (E1 E2 : exit -> state St -> Prop)
      (r : flow A * state St) :
  outcome N1 E1 r -> outcome N2 E2 r ->
  outcome (fun a s => N1 a s /\ N2 a s) (fun x s => E1 x s /\ E2 x s) r.
Proof. destruct r as [[a| |p|] s]; simpl; auto. Qed.

Section EarlierContract.
Variable cfg : Config.
Variable g : float -> reply.
Variables lo hi : float.

Lemma enter_unguarded (minX maxX : float) (s : state unit) :
  replace_borders minX maxX = (lo, hi) ->
  (lo <=? hi)%float = true ->
  outcome (fun v _ => unguarded g lo hi v) (contract cfg g lo hi)
          (enter cfg (pure g) minX maxX s).
Proof.
  intros Hrb Hord.
  pose proof (outcome_conj _ _ _ _ _ (enter_bounds cfg (pure g) lo hi minX maxX s Hrb Hord)
                (enter_precise cfg g minX maxX s)) as H.
  eapply outcome_weaken; [exact H| |].
  - intros v s' [(Ha & Hlr & Hb & Hroot) Hs]. repeat split; auto. left. auto.
  - intros x s' [Hin Hsu] Hx He. split; [apply Hin|apply Hsu]; auto.
Qed.

Lemma Float64_iteration_unguarded (iter : Z) (v : vars) (s : state unit) :
  unguarded g lo hi v ->
  outcome (fun c _ => match c with
                      | Continue v' => unguarded g lo hi v'
                      | Break => unguarded g lo hi v /\ converged (Precision cfg) v = true
                      end)
          (contract cfg g lo hi) (Float64.iteration cfg (pure g) iter v s).
Proof.
  intros (Hroot & Hb & Hs). unfold Float64.iteration.
  destruct (loose_bracket_step lo hi _ _ Hb) as [Hl Hr]. rewrite <- Hroot in Hl, Hr.
  walk; unfold contract, unguarded, sampled; stateless; try congruence; auto.
  match goal with
  | Hbr : bracket v = Some ?v1 |- _ =>
      unfold bracket in Hbr;
      destruct (negb (Bool.eqb (Signbit (yLeft v)) (Signbit (yRoot v))));
        [|destruct (negb (Bool.eqb (Signbit (yRoot v)) (Signbit (yRigth v))))];
        inversion Hbr; subst v1; cbn [xLeft xRigth xRoot yRoot]; repeat split; auto
  end.
Qed.

Lemma confirm_unguarded (v : vars) (s : state unit) :
  unguarded g lo hi v /\ converged (Precision cfg) v = true ->
  outcome (fun (_ : unit) _ => True) (contract cfg g lo hi) (confirm (pure g) (xRoot v) s).
Proof.
  intros [(Hroot & Hb & Hs) Hc].
  pose proof (converged_finite_width _ _ Hc) as Hfin.
  destruct Hb as [(Ha & Hlr & Hbb)|Hb]; [|congruence].
  destruct (bracketed_root lo hi v (conj Ha (conj Hlr (conj Hbb Hroot))) Hfin)
    as (_ & _ & Hw).
  apply (converged_small cfg) in Hc. unfold sampled in Hs.
  steps; unfold contract, precise; stateless; try congruence.
  intros _ _. split; [exact Hw|]. exists (yRoot v). split; congruence.
Qed.

End EarlierContract.

(** X15. The contract of the earlier [Find], which has no guard on the
    midpoint, for a stateless evaluator [g] and bounds of which none is NaN:
    a root [r] returned without error lies within the normalized bounds, and
    [g] returns at [r], without error, a value [y] with [|y| < Precision]. *)
Theorem earlier_Find_root_within_bounds_and_precise :
  forall (cfg : Config) (g : float -> reply) (minX maxX r : float),
    IsNaN minX = false ->
    IsNaN maxX = false ->
    Float64.Find cfg (pure g) minX maxX tt = (r, None) ->
    (fst (replace_borders minX maxX) <=? r)%float = true /\
    (r <=? snd (replace_borders minX maxX))%float = true /\
    exists y, g r = Returns y None /\ (Abs y <? Precision cfg)%float = true.
Proof.
  intros cfg g minX maxX r Hmin Hmax HFind.
  pose proof (replace_borders_ordered minX maxX Hmin Hmax) as Hord.
  set (lo := fst (replace_borders minX maxX)) in *.
  set (hi := snd (replace_borders minX maxX)) in *.
  assert (Hrb : replace_borders minX maxX = (lo, hi)).
  { unfold lo, hi. destruct (replace_borders minX maxX); reflexivity. }
  assert (Hout : outcome (fun _ _ => True) (fun x s => x <> ByFuel -> contract cfg g lo hi x s)
                         (Float64.body cfg (pure g) minX maxX (initial tt))).
  { unfold Float64.body. apply outcome_bind.
    eapply outcome_weaken; [apply (enter_unguarded cfg g lo hi); assumption | | auto].
    intros v0 s0 H0. apply outcome_bind.
    eapply outcome_weaken;
      [apply (Float64_loop_invariant cfg (pure g)
                (fun v _ => unguarded g lo hi v)
                (fun v _ => unguarded g lo hi v /\ converged (Precision cfg) v = true)
                (contract cfg g lo hi));
       [intros iter v s H; apply Float64_iteration_unguarded; exact H | exact H0]
      | | auto].
    intros v1 s1 H1.
    eapply outcome_weaken; [apply confirm_unguarded; exact H1 | | auto]. auto. }
  unfold Float64.Find, Float64.run_Find in HFind. rewrite Hrb in HFind.
  destruct (Float64_body_terminates cfg (pure g) minX maxX (initial tt))
    as (s' & [Hb|[p Hb]]); rewrite Hb in *; cbn [Float64.recovering outcome] in *.
  - destruct (err s') eqn:He; [discriminate|]. inversion HFind; subst r.
    destruct (Hout ltac:(discriminate) eq_refl He) as [[H1 H2] Hp].
    repeat split; assumption.
  - discriminate.
Qed.

Lemma earlier_Find_root_within_bounds_and_precise_witness :
  IsNaN 0 = false /\ IsNaN 1 = false /\
  Float64.Find default (pure (fun x => Returns (x - 0x1.4p-2)%float None)) 0 1 tt =
    (0x1.3ffff8p-2, None)%float /\
  (fst (replace_borders 0 1) <=? 0x1.3ffff8p-2)%float = true /\
  (0x1.3ffff8p-2 <=? snd (replace_borders 0 1))%float = true.
Proof.
  split; [vm_compute; reflexivity|].
  split; [vm_compute; reflexivity|].
  split; [vm_compute; reflexivity|].
  pose proof (earlier_Find_root_within_bounds_and_precise default
                (fun x => Returns (x - 0x1.4p-2)%float None) 0%float 1%float
                0x1.3ffff8p-2%float) as H.
  split; apply H; vm_compute; reflexivity.
Defined.

(** ** The first [Find], of package [rf] *)

Lemma rf_loop_unfold {St} (f : evaluator St) (fuel : nat) (iter : Z) (left rigth : float) :
  rf.loop f fuel iter left rigth =
  (c <- rf.iteration f iter left rigth ;;
   match c with
   | None => ret tt
   | Some (left', rigth') =>
       match fuel with
       | O => fun s => (OutOfFuel, s)
       | S fuel' => rf.loop f fuel' (iter + 1)%Z left' rigth'
       end
   end).
Proof. destruct fuel; reflexivity. Qed.

Section RfFound.
Variable g : float -> reply.
Variables lo hi : float.

Lemma rf_iteration_found (iter : Z) (left rigth : float) (s : state unit) :
  loose_bracket lo hi left rigth /\ (sign_change g lo hi -> sign_change g left rigth) ->
  outcome (fun c s' => match c with
                       | Some (l, r) =>
                           loose_bracket lo hi l r /\
                           (sign_change g lo hi -> sign_change g l r)
                       | None => rf_found g lo hi (root s') /\ err s' = None
                       end)
          rf_exit (rf.iteration (pure g) iter left rigth s).
Proof.
  intros [Hb Hsc]. unfold rf.iteration.
  destruct (loose_bracket_step lo hi left rigth Hb) as [Hl Hr]. unfold middle in Hl, Hr.
  walk; unfold rf_exit; stateless; try congruence.
  - match goal with
    | H : _ && _ = true |- _ => apply andb_true_iff in H; destruct H as [Hy Hw]
    end.
    pose proof (abs_lt_finite _ _ Hw) as Hfin.
    destruct Hb as [(Ha & Hab & Hbb)|Hb]; [|congruence].
    destruct (middle_between _ _ Hab Hfin) as (_ & Hm1 & Hm2). unfold middle in Hm1, Hm2.
    split; [|reflexivity]. unfold rf_found. repeat split.
    + exact (leb_trans _ _ _ Ha Hm1).
    + exact (leb_trans _ _ _ Hm2 Hbb).
    + eexists. split; eassumption.
    + exists left, rigth. repeat split; auto.
  - split; [exact Hl|]. intros _.
    match goal with
    | H : negb (Bool.eqb (Signbit ?fl) (Signbit ?fr)) = true |- _ =>
        exists fl, fr; repeat split; auto;
        destruct (Signbit fl), (Signbit fr); simpl in H; congruence
    end.
  - split; [exact Hr|]. intros _.
    match goal with
    | H : negb (Bool.eqb (Signbit ?fr) (Signbit ?frigth)) = true |- _ =>
        exists fr, frigth; repeat split; auto;
        destruct (Signbit fr), (Signbit frigth); simpl in H; congruence
    end.
Qed.

Lemma rf_loop_found (fuel : nat) :
  forall (iter : Z) (left rigth : float) (s : state unit),
    loose_bracket lo hi left rigth /\ (sign_change g lo hi -> sign_change g left rigth) ->
    outcome (fun _ s' => rf_found g lo hi (root s') /\ err s' = None)
            (fun x s' => x <> ByFuel -> rf_exit x s')
            (rf.loop (pure g) fuel iter left rigth s).
Proof.
  induction fuel as [|fuel IH]; intros iter left rigth s Hb; rewrite rf_loop_unfold;
    apply outcome_bind;
    (eapply outcome_weaken; [apply rf_iteration_found; exact Hb | | auto]);
    intros [[l r]|] s' H; cbv beta iota; auto; unfold outcome; congruence.
Qed.

End RfFound.

Section RfWork.
Context {St : Type}.
Variable f : evaluator St.

Ltac count_goal :=
  unfold within, set_err, set_root, logged in *; cbn [calls] in *;
  repeat rewrite length_app in *; cbn [List.length] in *; try lia.

Lemma rf_iteration_within (iter : Z) (left rigth : float) (s : state St) :
  outcome (fun c s' => within 3 s s' /\ (iter < rf.MaxIteration)%Z)
          (fun x s' => x <> ByFuel /\
                       (((rf.MaxIteration <= iter)%Z /\ within 0 s s') \/
                        ((iter < rf.MaxIteration)%Z /\ within 3 s s')))
          (rf.iteration f iter left rigth s).
Proof.
  unfold rf.iteration.
  walk;
    repeat match goal with
           | H : (_ <=? _)%Z = true |- _ => apply Z.leb_le in H
           | H : (_ <=? _)%Z = false |- _ => apply Z.leb_gt in H
           end;
    (split; [try discriminate | try (left; split; [assumption|]; count_goal; fail);
                                try (right; split; [assumption|]; count_goal; fail) ]);
    try assumption; count_goal.
Qed.

(** From the head of pass [iter] on, the loop evaluates at most three times
    in each pass that the cap leaves, and the fuel is never used up. *)
Lemma rf_loop_within (fuel : nat) :
  forall (iter : Z) (left rigth : float) (s : state St),
    (0 <= iter)%Z ->
    (rf.MaxIteration - iter <= Z.of_nat fuel)%Z ->
    outcome (fun _ s' => within (3 * Z.max 0 (rf.MaxIteration - iter)) s s')
            (fun x s' => x <> ByFuel /\ within (3 * Z.max 0 (rf.MaxIteration - iter)) s s')
            (rf.loop f fuel iter left rigth s).
Proof.
  induction fuel as [|fuel IH]; intros iter left rigth s Hiter Hfuel; rewrite rf_loop_unfold;
    apply outcome_bind;
    (eapply outcome_weaken; [apply rf_iteration_within | | ]).
  - intros [[l r]|] s' [H Hlt]; cbv beta iota; [lia|unfold ret, outcome; count_goal].
  - intros x s' [Hx [[Hc H]|[Hc H]]]; split; auto; count_goal.
  - intros [[l r]|] s' [H Hlt]; cbv beta iota.
    + eapply outcome_weaken; [apply (IH (iter + 1)%Z l r s'); lia | | ].
      * intros ? s'' H'. count_goal.
      * intros x s'' [Hx H']. split; [exact Hx|]. count_goal.
    + unfold ret, outcome. count_goal.
  - intros x s' [Hx [[Hc H]|[Hc H]]]; split; auto; count_goal.
Qed.

End RfWork.

(** X16. The contract of [rf.Find], for a stateless evaluator [g] and bounds
    of which none is NaN: a root [r] returned without error lies within the
    normalized bounds, [g] returns at [r], without error, a value [y] with
    [|y| < Precision], and [r] is the midpoint of a bracket inside the bounds
    whose width is below [Precision]; when [g] returns values of opposite
    sign bits at the two bounds, it does at the two ends of this bracket. *)
Theorem rf_Find_root_within_bounds_and_precise :
  forall (g : float -> reply) (minX maxX r : float),
    let lo := fst (replace_borders minX maxX) in
    let hi := snd (replace_borders minX maxX) in
    IsNaN minX = false ->
    IsNaN maxX = false ->
    rf.Find (pure g) minX maxX tt = (r, None) ->
    rf_found g lo hi r.
Proof.
  intros g minX maxX r lo hi Hmin Hmax HFind.
  pose proof (replace_borders_ordered minX maxX Hmin Hmax) as Hord. fold lo hi in Hord.
  assert (Hrb : replace_borders minX maxX = (lo, hi)).
  { unfold lo, hi. destruct (replace_borders minX maxX); reflexivity. }
  unfold rf.Find, rf.run_Find, rf.body in HFind. rewrite Hrb in HFind.
  assert (Hb : loose_bracket lo hi lo hi).
  { left. repeat split; [exact (leb_left _ _ Hord)|exact Hord|exact (leb_right _ _ Hord)]. }
  pose proof (rf_loop_found g lo hi (Z.to_nat rf.MaxIteration) 0%Z lo hi (initial tt)
                (conj Hb (fun H => H))) as Hloop.
  pose proof (rf_loop_within (pure g) (Z.to_nat rf.MaxIteration) 0%Z lo hi (initial tt)
                ltac:(lia) ltac:(lia)) as Hfuel.
  unfold bind in HFind.
  destruct (rf.loop (pure g) (Z.to_nat rf.MaxIteration) 0 lo hi (initial tt))
    as [[[]| |p|] s1]; cbn [outcome] in Hloop, Hfuel.
  - destruct Hloop as [Hfound Herr].
    destruct Hfound as (H1 & H2 & (y & Hy & Hsmall) & Hbr).
    unfold rf.confirm, bind, call, pure, assign_err, return_ in HFind.
    rewrite Hy in HFind. cbn in HFind. inversion HFind; subst r.
    repeat split; auto. exists y. auto.
  - cbn in HFind. destruct (err s1) eqn:He; [discriminate|].
    exfalso. apply Hloop; [discriminate|reflexivity|exact He].
  - cbn in HFind. discriminate.
  - exfalso. exact (proj1 Hfuel eq_refl).
Qed.

Lemma rf_Find_root_within_bounds_and_precise_witness :
  IsNaN 10 = false /\ IsNaN (-10) = false /\
  rf.Find (pure (fun x => Returns (2 * x + 1)%float None)) 10 (-10) tt =
    (-0x1.fffff4p-2, None)%float /\
  rf_found (fun x => Returns (2 * x + 1)%float None)
    (fst (replace_borders 10 (-10))) (snd (replace_borders 10 (-10)))
    (-0x1.fffff4p-2)%float.
Proof.
  split; [vm_compute; reflexivity|].
  split; [vm_compute; reflexivity|].
  split; [vm_compute; reflexivity|].
  apply (rf_Find_root_within_bounds_and_precise (fun x => Returns (2 * x + 1)%float None)
           10%float (-10)%float (-0x1.fffff4p-2)%float); vm_compute; reflexivity.
Defined.

(** X17. [rf.Find] always returns, by [return] or by a recovered panic, and
    one call evaluates the function at most [3 * MaxIteration + 1] times:
    three times in each pass, and once more at the root. *)
Theorem rf_Find_evaluations_bounded :
  forall (St : Type) (f : evaluator St) (minX maxX : float) (e0 : St),
    (exists s, rf.body f minX maxX (initial e0) = (Return, s) \/
               exists p, rf.body f minX maxX (initial e0) = (Panicking p, s)) /\
    (Z.of_nat (List.length (calls (rf.run_Find f minX maxX e0)))
     <= 3 * rf.MaxIteration + 1)%Z.
Proof.
  intros St f minX maxX e0.
  unfold rf.run_Find, rf.body. destruct (replace_borders minX maxX) as [lo hi].
  pose proof (rf_loop_within f (Z.to_nat rf.MaxIteration) 0%Z lo hi (initial e0)
                ltac:(lia) ltac:(lia)) as Hloop.
  unfold bind.
  destruct (rf.loop f (Z.to_nat rf.MaxIteration) 0 lo hi (initial e0))
    as [[[]| |p|] s1]; cbn [outcome] in Hloop; unfold within in Hloop;
    cbn [initial calls List.length] in Hloop;
    change (Z.max 0 (rf.MaxIteration - 0)) with rf.MaxIteration in Hloop.
  - unfold rf.confirm, bind, call, assign_err, return_.
    destruct (f (ev s1) (root s1)) as [[y e|p] e']; cbn [Float64.recovering calls set_err];
      (split; [eauto|]); rewrite length_app; cbn [List.length]; lia.
  - split; [eauto|]. cbn [Float64.recovering]. lia.
  - split; [eauto|]. cbn [Float64.recovering set_err calls]. lia.
  - exfalso. exact (proj1 Hloop eq_refl).
Qed.

(** * The piecewise linear functions of the test suite *)

Lemma not_ltb_leb (a b : float) :
  IsNaN a = false -> IsNaN b = false -> (a <? b)%float = false -> (b <=? a)%float = true.
Proof.
  intros Ha Hb H. apply IsNaN_spec in Ha, Hb. apply leb_key. repeat split; auto.
  destruct (Z.le_gt_cases (fkey b) (fkey a)) as [|Hgt]; [assumption|].
  assert (Hlt : (a <? b)%float = true) by (apply ltb_key; repeat split; auto; lia).
  congruence.
Qed.

Lemma not_leb_ltb (a b : float) :
  IsNaN a = false -> IsNaN b = false -> (a <=? b)%float = false -> (b <? a)%float = true.
Proof.
  intros Ha Hb H. apply IsNaN_spec in Ha, Hb. apply ltb_key. repeat split; auto.
  destruct (Z.lt_ge_cases (fkey b) (fkey a)) as [|Hge]; [assumption|].
  assert (Hle : (a <=? b)%float = true) by (apply leb_key; repeat split; auto; lia).
  congruence.
Qed.

Lemma knot_in_range (xy : list xys) (i : Z) :
  (0 <= i < Z.of_nat (List.length xy))%Z -> exists p, knot xy i = Some p /\ In p xy.
Proof.
  intros [H0 H1]. unfold knot. destruct (Z.ltb_spec i 0); [lia|].
  destruct (nth_error xy (Z.to_nat i)) as [p|] eqn:E.
  - exists p. split; [reflexivity|]. exact (nth_error_In _ _ E).
  - apply nth_error_None in E. lia.
Qed.

Section Table.
Variable x : float.
Variable xy : list xys.
Hypothesis x_number : IsNaN x = false.
Hypothesis knots_numbers : Forall (fun p => IsNaN (x_ p) = false) xy.

Lemma knot_number (p : xys) : In p xy -> IsNaN (x_ p) = false.
Proof. intros H. rewrite Forall_forall in knots_numbers. auto. Qed.

Lemma segments_found (n : nat) :
  forall (i : Z) (p pl : xys),
    (1 <= i)%Z -> (i + Z.of_nat n = Z.of_nat (List.length xy))%Z -> (1 <= n)%nat ->
    knot xy (i - 1) = Some p -> (x_ p <=? x)%float = true ->
    knot xy (Z.of_nat (List.length xy) - 1) = Some pl -> (x <=? x_ pl)%float = true ->
    exists y, segments x xy i n = Some (Some y) /\ interpolated x xy y.
Proof.
  induction n as [|n IH]; intros i p pl Hi Hn Hpos Hp Hpx Hpl Hxl; [lia|].
  cbn [segments]. rewrite Hp, Hpx.
  destruct (knot_in_range xy i ltac:(lia)) as (q & Hq & Hqin). rewrite Hq.
  destruct (x <=? x_ q)%float eqn:Hxq.
  - unfold through. rewrite Hp, Hq. cbn [option_map].
    eexists. split; [reflexivity|].
    exists (i - 1)%Z, p, q. replace (i - 1 + 1)%Z with i by lia. auto 10.
  - assert (Hqx : (x_ q <? x)%float = true).
    { apply not_leb_ltb; auto. apply knot_number. exact Hqin. }
    destruct n as [|n].
    + exfalso. replace (Z.of_nat (List.length xy) - 1)%Z with i in Hpl by lia.
      rewrite Hq in Hpl. inversion Hpl; subst pl.
      apply ltb_key in Hqx. apply leb_key in Hxl.
      destruct Hqx as (_ & _ & ?), Hxl as (_ & _ & ?). lia.
    + apply (IH (i + 1)%Z q pl); auto; try lia.
      * replace (i + 1 - 1)%Z with i by lia. exact Hq.
      * apply ltb_key in Hqx. apply leb_key. destruct Hqx as (? & ? & ?).
        repeat split; auto. lia.
Qed.

End Table.

(** X18. [PartLine], for a table of at least two knots: when neither [x] nor
    the abscissa of a knot is NaN, the call does not panic and returns the
    value at [x] of the line through two neighbouring knots: the first two
    when [x] is below the first knot, the last two when [x] is above the
    last, and otherwise two knots with [x] between their abscissas.  It never
    falls through to [-42]. *)
Theorem PartLine_interpolates :
  forall (x : float) (xy : list xys),
    (2 <= List.length xy)%nat ->
    IsNaN x = false ->
    Forall (fun p => IsNaN (x_ p) = false) xy ->
    exists y, PartLine x xy = Some y /\ interpolated x xy y.
Proof.
  intros x xy Hlen Hx Hxy.
  destruct (knot_in_range xy 0 ltac:(lia)) as (p0 & Hp0 & Hin0).
  destruct (knot_in_range xy 1 ltac:(lia)) as (p1 & Hp1 & Hin1).
  destruct (knot_in_range xy (Z.of_nat (List.length xy) - 1) ltac:(lia)) as (pl & Hpl & Hinl).
  destruct (knot_in_range xy (Z.of_nat (List.length xy) - 1 - 1) ltac:(lia))
    as (pk & Hpk & Hink).
  unfold PartLine. cbv zeta. rewrite Hp0.
  destruct (x <? x_ p0)%float eqn:H0.
  - unfold through. rewrite Hp0, Hp1. eexists. split; [reflexivity|].
    exists 0%Z, p0, p1. auto 10.
  - rewrite Hpl. destruct (x_ pl <? x)%float eqn:Hl.
    + unfold through. rewrite Hpk, Hpl. eexists. split; [reflexivity|].
      exists (Z.of_nat (List.length xy) - 1 - 1)%Z, pk, pl.
      replace (Z.of_nat (List.length xy) - 1 - 1 + 1)%Z
        with (Z.of_nat (List.length xy) - 1)%Z by lia.
      repeat split; auto. right. left. split; [exact Hl|lia].
    + assert (K0 : IsNaN (x_ p0) = false) by (apply (knot_number xy Hxy); exact Hin0).
      assert (Kl : IsNaN (x_ pl) = false) by (apply (knot_number xy Hxy); exact Hinl).
      destruct (segments_found x xy Hx Hxy (List.length xy - 1) 1%Z p0 pl)
        as (y & Hy & Hint); auto; try lia.
      * apply not_ltb_leb; auto.
      * apply not_ltb_leb; auto.
      * rewrite Hy. exists y. auto.
Qed.

Lemma PartLine_interpolates_witness :
  (2 <= List.length [mk_xys 0 3; mk_xys 0.5 4; mk_xys 2 (-1)])%nat /\
  IsNaN 0.25 = false /\
  Forall (fun p => IsNaN (x_ p) = false) [mk_xys 0 3; mk_xys 0.5 4; mk_xys 2 (-1)] /\
  exists y, PartLine 0.25 [mk_xys 0 3; mk_xys 0.5 4; mk_xys 2 (-1)] = Some y /\
            interpolated 0.25 [mk_xys 0 3; mk_xys 0.5 4; mk_xys 2 (-1)] y.
Proof.
  assert (HF : Forall (fun p => IsNaN (x_ p) = false)
                 [mk_xys 0 3; mk_xys 0.5 4; mk_xys 2 (-1)])
    by (repeat constructor).
  split; [cbn; lia|].
  split; [vm_compute; reflexivity|].
  split; [exact HF|].
  apply (PartLine_interpolates 0.25%float [mk_xys 0 3; mk_xys 0.5 4; mk_xys 2 (-1)]).
  - cbn. lia.
  - vm_compute. reflexivity.
  - exact HF.
Defined.
